(** * rula: resource pools, rule parser and rule runner

    A shallow embedding of the Go package [rula] (types.go, the rule
    parser and runner.go) together with the properties its
    specification states about it.

    Conventions of the embedding.
    - Go's [int] and [int64] are 64-bit two's-complement integers (the
      package's own benchmark stores [1<<63 - 1] in an [int]); they are
      values of [Z] and every arithmetic operation of the source wraps.
    - A [*Resource] is an address or nil; resources are compared by
      address only, as the Go maps do.
    - A [*Pool] is an address into a heap of pools.  Pools are the only
      objects the runner mutates, so two relations that share a pool set
      (or two keys that share a pool) see each other's updates.
    - A [*Rule] is an address into an immutable table of rules; the
      [OnFail] field may point anywhere in the table, also back to the
      rule itself.
    - [log.Printf] output is not modelled: it influences neither the
      control flow nor the pools. *)

From Stdlib Require Import ZArith Lia Ascii String.
From stdpp Require Import gmap strings list finite.

Local Open Scope Z_scope.

(** ** Machine integers *)

Module GoInt.

Definition min_int : Z := - 2 ^ 63.
Definition max_int : Z := 2 ^ 63 - 1.

Definition in_range (z : Z) : Prop := min_int <= z <= max_int.

(** Two's-complement reduction of a mathematical integer to 64 bits. *)
Definition wrap (z : Z) : Z := (z + 2 ^ 63) mod 2 ^ 64 - 2 ^ 63.

Definition add (a b : Z) : Z := wrap (a + b).
Definition sub (a b : Z) : Z := wrap (a - b).

End GoInt.

(** ** Data model (types.go) *)

(** [*Resource]: [None] is the nil pointer. *)
Abbreviation ResourcePtr := (option nat) (only parsing).

(** [*Pool]: the address of a pool in the heap. *)
Abbreviation PoolPtr := nat (only parsing).

(** [*Rule]: the address of a rule in the rule table. *)
Abbreviation RulePtr := nat (only parsing).

(** [type Relation string] *)
Abbreviation Relation := string (only parsing).

Definition RelationSelf : Relation := "self".
Definition RelationGlobal : Relation := "global".
Definition RelationLocation : Relation := "location".

Module Name.
Record t := mk { Plural : string; Singular : string }.
End Name.

Module Resource.
Record t := mk { ID : string; Name : Name.t }.
End Resource.

Module Pool.
Record t := mk { Resource : ResourcePtr; Quantity : Z; Capacity : Z }.

(** The zero value [Pool{}]. *)
Definition zero : t := mk None 0 0.

Definition with_Quantity (p : t) (q : Z) : t := mk (Resource p) q (Capacity p).
Definition with_Capacity (p : t) (c : Z) : t := mk (Resource p) (Quantity p) c.
End Pool.

(** The heap of pools.  Every address holds a pool; all but finitely many
    hold the zero value. *)
Abbreviation Heap := (gmap PoolPtr Pool.t).

Definition load (h : Heap) (l : PoolPtr) : Pool.t := default Pool.zero (h !! l).
Definition store (l : PoolPtr) (p : Pool.t) (h : Heap) : Heap := <[l := p]> h.

(** [type PoolSet map[*Resource]*Pool]: [None] is the nil map.  The
    package never stores a nil [*Pool] (see [SetCapacity], [AddPool]), so
    the values of the map are pool addresses and the test [pool == nil]
    on a looked-up value coincides with the absence of the key. *)
Abbreviation PoolSet := (option (gmap ResourcePtr PoolPtr)).

Module PoolSet.

(** [pool, ok := p[r]]: indexing a nil map finds nothing. *)
Definition index (p : PoolSet) (r : ResourcePtr) : option PoolPtr :=
  match p with
  | None => None
  | Some m => m !! r
  end.

(** The guard [p == nil || r == nil] followed by the lookup [p[r]]. *)
Definition find (p : PoolSet) (r : ResourcePtr) : option PoolPtr :=
  match p, r with
  | None, _ => None
  | _, None => None
  | Some m, Some _ => m !! r
  end.

(** [SetCapacity]; [fresh] is the address of the pool allocated when the
    key is absent.  Assigning to a nil map panics ([None]). *)
Definition SetCapacity (fresh : PoolPtr) (p : PoolSet) (r : ResourcePtr) (c : Z)
    (h : Heap) : option (PoolSet * Heap) :=
  match index p r with
  | None =>
      match p with
      | None => None
      | Some m => Some (Some (<[r := fresh]> m), store fresh (Pool.mk r 0 c) h)
      end
  | Some l => Some (p, store l (Pool.with_Capacity (load h l) c) h)
  end.

(** [AddPool]; panics ([None]) on a nil resource or a nil map. *)
Definition AddPool (fresh : PoolPtr) (p : PoolSet) (r : ResourcePtr)
    (capacity quantity : Z) (h : Heap) : option (PoolSet * Heap) :=
  match r, p with
  | None, _ => None
  | _, None => None
  | Some _, Some m =>
      Some (Some (<[r := fresh]> m), store fresh (Pool.mk r quantity capacity) h)
  end.

Definition Quantity (p : PoolSet) (r : ResourcePtr) (h : Heap) : Z :=
  match find p r with
  | None => 0
  | Some l => Pool.Quantity (load h l)
  end.

Definition Capacity (p : PoolSet) (r : ResourcePtr) (h : Heap) : Z :=
  match find p r with
  | None => 0
  | Some l => Pool.Capacity (load h l)
  end.

(** The tail shared by [Add] and [Set]: the quantity [q'] has just been
    written to the pool at [l]. *)
Definition clamp (l : PoolPtr) (pool : Pool.t) (q' : Z) (h : Heap) : Heap * Z :=
  if Pool.Capacity pool <? q'
  then (store l (Pool.with_Quantity pool (Pool.Capacity pool)) h,
        GoInt.sub q' (Pool.Capacity pool))
  else (store l (Pool.with_Quantity pool q') h, 0).

(** [Add] returns the updated heap and the amount that could not be
    added. *)
Definition Add (p : PoolSet) (r : ResourcePtr) (q : Z) (h : Heap) : Heap * Z :=
  match find p r with
  | None => (h, q)
  | Some l =>
      let pool := load h l in
      clamp l pool (GoInt.add (Pool.Quantity pool) q) h
  end.

Definition Set_ (p : PoolSet) (r : ResourcePtr) (q : Z) (h : Heap) : Heap * Z :=
  match find p r with
  | None => (h, q)
  | Some l => clamp l (load h l) q h
  end.

(** [Remove] removes all of [q] or nothing. *)
Definition Remove (p : PoolSet) (r : ResourcePtr) (q : Z) (h : Heap) : Heap * Z :=
  match find p r with
  | None => (h, q)
  | Some l =>
      let pool := load h l in
      if Pool.Quantity pool <? q then (h, q)
      else (store l (Pool.with_Quantity pool (GoInt.sub (Pool.Quantity pool) q)) h, 0)
  end.

End PoolSet.

(** ** Rules (types.go) *)

(** [type Op int]: any integer can be stored in an [Op]. *)
Abbreviation Op := Z (only parsing).

Definition OpEquals : Op := 0.
Definition OpGreaterThan : Op := 1.
Definition OpGreaterThanOrEqual : Op := 2.
Definition OpLessThan : Op := 3.
Definition OpLessThanOrEqual : Op := 4.

Module ResourceSource.
Record t := mk { Relation : Relation; Resource : ResourcePtr }.
End ResourceSource.

Module ResourceSpecifier.
Record t := mk { Relation : Relation; Resource : ResourcePtr; Quantity : Z }.
End ResourceSpecifier.

Module ResourceCondition.
(** The embedded [ResourceSpecifier] and the operator. *)
Record t := mk { Specifier : ResourceSpecifier.t; Op : Op }.

Definition Relation (c : t) := ResourceSpecifier.Relation (Specifier c).
Definition Resource (c : t) := ResourceSpecifier.Resource (Specifier c).
Definition Quantity (c : t) := ResourceSpecifier.Quantity (Specifier c).
End ResourceCondition.

Module Rule.
Record t := mk {
  Name : string;
  Period : Z;
  Preconditions : list ResourceCondition.t;
  Inputs : list ResourceSpecifier.t;
  Outputs : list ResourceSpecifier.t;
  Sets : list ResourceSpecifier.t;
  Manual : bool;
  Repeat : Z;
  RepeatFrom : option ResourceSource.t;
  OnFail : option RulePtr
}.

(** The zero value [Rule{}]. *)
Definition zero : t := mk "" 0 [] [] [] [] false 0 None None.
End Rule.

Module RuleState.
Record t := mk { LastRun : Z }.
Definition zero : t := mk 0.
End RuleState.

Module RuleContext.
Record t := mk { Pools : gmap Relation PoolSet }.
End RuleContext.

(** ** The runner (runner.go) *)

Module Runner.
Record t := mk { ruleStates : gmap RulePtr RuleState.t }.
End Runner.

(** [NewRunner] *)
Definition NewRunner : Runner.t := Runner.mk ∅.

(** The errors built by [fmt.Errorf] in [canRun], by format string. *)
Inductive error : Type :=
| ErrNoPreconditionPoolset (rule : string) (rel : Relation)
| ErrUnknownOperation (rule : string) (op : Op)
| ErrNoInputPoolset (rule : string) (rel : Relation).

(** What a call of [RunRule] or [Run] does: it returns, leaving a runner,
    a heap and an error value ([None] is nil), or the model ran out of
    recursion depth before the call returned. *)
Inductive outcome : Type :=
| Returned (ru : Runner.t) (h : Heap) (err : option error)
| OutOfFuel.

Section Engine.

(** The rules in memory.  They are not modified while rules run. *)
Variable rules : RulePtr -> Rule.t.

(** One comparison of [canRun]'s switch: [Some true] when the case
    passes, [Some false] when it makes [canRun] return false, [None] for
    the default case. *)
Definition compare (op : Op) (q target : Z) : option bool :=
  if op =? OpEquals then Some (q =? target)
  else if op =? OpGreaterThan then Some (target <? q)
  else if op =? OpGreaterThanOrEqual then Some (target <=? q)
  else if op =? OpLessThan then Some (q <? target)
  else if op =? OpLessThanOrEqual then Some (q <=? target)
  else None.

(** The first loop of [canRun] (lines 125-163). *)
Fixpoint canRun_preconditions (name : string) (ctx : RuleContext.t) (h : Heap)
    (cs : list ResourceCondition.t) : bool * option error :=
  match cs with
  | [] => (true, None)
  | c :: cs' =>
      match RuleContext.Pools ctx !! ResourceCondition.Relation c with
      | None => (false, Some (ErrNoPreconditionPoolset name (ResourceCondition.Relation c)))
      | Some poolset =>
          let q := PoolSet.Quantity poolset (ResourceCondition.Resource c) h in
          match compare (ResourceCondition.Op c) q (ResourceCondition.Quantity c) with
          | None => (false, Some (ErrUnknownOperation name (ResourceCondition.Op c)))
          | Some false => (false, None)
          | Some true => canRun_preconditions name ctx h cs'
          end
      end
  end.

(** The second loop of [canRun] (lines 166-178). *)
Fixpoint canRun_inputs (name : string) (ctx : RuleContext.t) (h : Heap)
    (ins : list ResourceSpecifier.t) : bool * option error :=
  match ins with
  | [] => (true, None)
  | i :: ins' =>
      match RuleContext.Pools ctx !! ResourceSpecifier.Relation i with
      | None => (false, Some (ErrNoInputPoolset name (ResourceSpecifier.Relation i)))
      | Some poolset =>
          if PoolSet.Quantity poolset (ResourceSpecifier.Resource i) h
               <? ResourceSpecifier.Quantity i
          then (false, None)
          else canRun_inputs name ctx h ins'
      end
  end.

Definition canRun (rule : Rule.t) (ctx : RuleContext.t) (h : Heap) : bool * option error :=
  match canRun_preconditions (Rule.Name rule) ctx h (Rule.Preconditions rule) with
  | (true, None) => canRun_inputs (Rule.Name rule) ctx h (Rule.Inputs rule)
  | res => res
  end.

(** The three effect loops of a round of [RunRule].  Each returns the
    heap it leaves and whether it ran to its end; [false] is the
    [return nil] in the middle of the loop. *)

(** Lines 78-90. *)
Fixpoint RunRule_inputs (ctx : RuleContext.t) (ins : list ResourceSpecifier.t)
    (h : Heap) : Heap * bool :=
  match ins with
  | [] => (h, true)
  | i :: ins' =>
      match RuleContext.Pools ctx !! ResourceSpecifier.Relation i with
      | None => (h, false)
      | Some poolset =>
          let '(h', excess) :=
            PoolSet.Remove poolset (ResourceSpecifier.Resource i)
              (ResourceSpecifier.Quantity i) h in
          if 0 <? excess then (h', false) else RunRule_inputs ctx ins' h'
      end
  end.

(** Lines 93-103. *)
Fixpoint RunRule_outputs (ctx : RuleContext.t) (outs : list ResourceSpecifier.t)
    (h : Heap) : Heap * bool :=
  match outs with
  | [] => (h, true)
  | o :: outs' =>
      match RuleContext.Pools ctx !! ResourceSpecifier.Relation o with
      | None => (h, false)
      | Some poolset =>
          RunRule_outputs ctx outs'
            (fst (PoolSet.Add poolset (ResourceSpecifier.Resource o)
                    (ResourceSpecifier.Quantity o) h))
      end
  end.

(** Lines 106-116. *)
Fixpoint RunRule_sets (ctx : RuleContext.t) (sets : list ResourceSpecifier.t)
    (h : Heap) : Heap * bool :=
  match sets with
  | [] => (h, true)
  | s :: sets' =>
      match RuleContext.Pools ctx !! ResourceSpecifier.Relation s with
      | None => (h, false)
      | Some poolset =>
          RunRule_sets ctx sets'
            (fst (PoolSet.Set_ poolset (ResourceSpecifier.Resource s)
                    (ResourceSpecifier.Quantity s) h))
      end
  end.

(** The effects of one round, lines 77-116: inputs, then outputs, then
    sets, stopping at the first loop that returns. *)
Definition RunRule_effects (rule : Rule.t) (ctx : RuleContext.t) (h : Heap) : Heap * bool :=
  let '(h1, ok1) := RunRule_inputs ctx (Rule.Inputs rule) h in
  if ok1 then
    let '(h2, ok2) := RunRule_outputs ctx (Rule.Outputs rule) h1 in
    if ok2 then RunRule_sets ctx (Rule.Sets rule) h2 else (h2, false)
  else (h1, false).

(** The round loop [for rounds > 0], lines 62-119, with [n] the rounds
    still to go.  [fallback] stands for the call
    [ru.RunRule(rule.OnFail, tick, ctx)]. *)
Fixpoint RunRule_rounds (fallback : RulePtr -> Runner.t -> Heap -> outcome)
    (rule : Rule.t) (ctx : RuleContext.t) (n : nat) (runOnce : bool)
    (ru : Runner.t) (h : Heap) : outcome :=
  match n with
  | O => Returned ru h None
  | S n' =>
      match canRun rule ctx h with
      | (_, Some err) => Returned ru h (Some err)
      | (false, None) =>
          match runOnce, Rule.OnFail rule with
          | false, Some f => fallback f ru h
          | _, _ => Returned ru h None
          end
      | (true, None) =>
          match RunRule_effects rule ctx h with
          | (h', false) => Returned ru h' None
          | (h', true) => RunRule_rounds fallback rule ctx n' true ru h'
          end
      end
  end.

(** Lines 42-60: the number of rounds, or [None] when the relation of
    the repeat source is not in the context. *)
Definition rounds_of (rule : Rule.t) (ctx : RuleContext.t) (h : Heap) : option Z :=
  match Rule.RepeatFrom rule with
  | Some src =>
      match RuleContext.Pools ctx !! ResourceSource.Relation src with
      | None => None
      | Some poolset =>
          match PoolSet.index poolset (ResourceSource.Resource src) with
          | None => Some 0
          | Some l => Some (Pool.Quantity (load h l))
          end
      end
  | None => Some (GoInt.add (Rule.Repeat rule) 1)
  end.

(** [ru.ruleStates[rule]]: a missing key reads as the zero value. *)
Definition ruleState (ru : Runner.t) (rule : RulePtr) : RuleState.t :=
  default RuleState.zero (Runner.ruleStates ru !! rule).

(** The deferred function of [RunRule] (lines 37-40), run when the call
    returns. *)
Definition deferred (rule : RulePtr) (tick : Z) (o : outcome) : outcome :=
  match o with
  | Returned ru h err =>
      Returned (Runner.mk (<[rule := RuleState.mk tick]> (Runner.ruleStates ru))) h err
  | OutOfFuel => OutOfFuel
  end.

(** The throttle test of line 33. *)
Definition throttled (ru : Runner.t) (rule : RulePtr) (tick : Z) : bool :=
  tick <? GoInt.add (RuleState.LastRun (ruleState ru rule)) (Rule.Period (rules rule)).

(** [RunRule]; [fuel] bounds the depth of the calls through [OnFail]. *)
Fixpoint RunRule (fuel : nat) (ru : Runner.t) (rule : RulePtr) (tick : Z)
    (ctx : RuleContext.t) (h : Heap) : outcome :=
  match fuel with
  | O => OutOfFuel
  | S fuel' =>
      if throttled ru rule tick then Returned ru h None
      else
        deferred rule tick
          match rounds_of (rules rule) ctx h with
          | None => Returned ru h None
          | Some rounds =>
              RunRule_rounds (fun f ru' h' => RunRule fuel' ru' f tick ctx h')
                (rules rule) ctx (Z.to_nat rounds) false ru h
          end
  end.

(** [Run]: rules are pointers, evaluated in order. *)
Fixpoint Run (fuel : nat) (ru : Runner.t) (rs : list RulePtr) (tick : Z)
    (ctx : RuleContext.t) (h : Heap) : outcome :=
  match rs with
  | [] => Returned ru h None
  | r :: rs' =>
      if Rule.Period (rules r) =? 0 then Run fuel ru rs' tick ctx h
      else
        match RunRule fuel ru r tick ctx h with
        | Returned ru' h' None => Run fuel ru' rs' tick ctx h'
        | o => o
        end
  end.

End Engine.

(** ** The rule parser *)

(** The parts of Go's standard library that [Parse] calls. *)
Module strings_.

(** [strings.ToLower] on ASCII letters; other bytes are kept. *)
Definition lower_ascii (c : ascii) : ascii :=
  let n := nat_of_ascii c in
  if (65 <=? n)%nat && (n <=? 90)%nat then ascii_of_nat (n + 32) else c.

Fixpoint ToLower (s : string) : string :=
  match s with
  | EmptyString => EmptyString
  | String c s' => String (lower_ascii c) (ToLower s')
  end.

End strings_.

Module strconv.

Definition digit (c : ascii) : option Z :=
  let n := Z.of_nat (nat_of_ascii c) in
  if (48 <=? n) && (n <=? 57) then Some (n - 48) else None.

Fixpoint digits (s : string) (acc : Z) : option Z :=
  match s with
  | EmptyString => Some acc
  | String c s' =>
      match digit c with
      | Some d => digits s' (10 * acc + d)
      | None => None
      end
  end.

(** [strconv.Atoi]: an optional sign and at least one decimal digit,
    with a value that fits an [int]; [None] is any error. *)
Definition Atoi (s : string) : option Z :=
  match s with
  | EmptyString => None
  | String c rest =>
      let neg := Ascii.eqb c "-" in
      let body := if neg || Ascii.eqb c "+" then rest else s in
      match body with
      | EmptyString => None
      | _ =>
          match digits body 0 with
          | None => None
          | Some n =>
              let v := if neg then - n else n in
              if (GoInt.min_int <=? v) && (v <=? GoInt.max_int) then Some v else None
          end
      end
  end.

End strconv.

(** The objects handed over by the line scanner (package [loon]), with
    the fields [Parse] reads, and a model of the scanner itself. *)
Module loon.

Module Directive.
Record t := mk { Name : string; Args : list string; ArgText : string; Line : Z }.
End Directive.

Module Object.
Record t := mk { Type_ : string; Name : string; Line : Z;
                 Directives : list Directive.t }.
End Object.

Definition is_space (c : ascii) : bool :=
  let n := nat_of_ascii c in
  (n =? 32)%nat || (n =? 9)%nat || (n =? 13)%nat.

Fixpoint trim_left (s : string) : string :=
  match s with
  | String c s' => if is_space c then trim_left s' else s
  | EmptyString => EmptyString
  end.

(** Cuts [s] at the first byte satisfying [stop]: the part before it and
    the part from it on. *)
Fixpoint span_until (stop : ascii -> bool) (s : string) : string * string :=
  match s with
  | EmptyString => (EmptyString, EmptyString)
  | String c s' =>
      if stop c then (EmptyString, s)
      else let '(a, b) := span_until stop s' in (String c a, b)
  end.

(** The whitespace-separated fields of a line. *)
Fixpoint fields_aux (fuel : nat) (s : string) : list string :=
  match fuel with
  | O => []
  | S fuel' =>
      match trim_left s with
      | EmptyString => []
      | s1 => let '(w, rest) := span_until is_space s1 in w :: fields_aux fuel' rest
      end
  end.

Definition fields (s : string) : list string := fields_aux (S (String.length s)) s.

Definition trim (s : string) : string :=
  String.rev (trim_left (String.rev (trim_left s))).

Fixpoint lines_aux (fuel : nat) (s : string) : list string :=
  match fuel with
  | O => []
  | S fuel' =>
      let '(l, rest) := span_until (fun c => (nat_of_ascii c =? 10)%nat) s in
      match rest with
      | EmptyString => [l]
      | String _ rest' => l :: lines_aux fuel' rest'
      end
  end.

Definition lines (s : string) : list string := lines_aux (S (String.length s)) s.

Definition is_comment (s : string) : bool :=
  match s with
  | String c _ => (nat_of_ascii c =? 35)%nat
  | EmptyString => false
  end.

Inductive scan_error : Type :=
| ErrUnterminated (line : Z)
| ErrNoName (line : Z).

(** Modelled from the spec: the loop of the line scanner over the lines
    of its input (see [scan]); [cur] is the object being read, [acc] the
    finished objects in reverse order. *)
Fixpoint scan_lines (ls : list string) (line : Z) (cur : option Object.t)
    (acc : list Object.t) : list Object.t * option scan_error :=
  match ls with
  | [] =>
      match cur with
      | None => (rev acc, None)
      | Some o => (rev acc, Some (ErrUnterminated (Object.Line o)))
      end
  | l :: ls' =>
      let t := trim l in
      if String.eqb t "" || is_comment t then scan_lines ls' (line + 1) cur acc
      else
        let '(w, rest) := span_until is_space t in
        match cur with
        | None =>
            match trim rest with
            | EmptyString => (rev acc, Some (ErrNoName line))
            | name => scan_lines ls' (line + 1) (Some (Object.mk w name line [])) acc
            end
        | Some o =>
            if String.eqb t "end"
            then scan_lines ls' (line + 1) None (o :: acc)
            else
              let d := Directive.mk w (fields rest) (trim rest) line in
              scan_lines ls' (line + 1)
                (Some (Object.mk (Object.Type_ o) (Object.Name o) (Object.Line o)
                         (Object.Directives o ++ [d])))
                acc
        end
  end.

(** Modelled from the spec: the line scanner of package [loon], which is
    not part of this repository.  The input is read line by line;
    leading and trailing whitespace is ignored; empty lines and lines
    starting with [#] are skipped; [<type> <name>] opens an object,
    [end] closes it, and every line in between is a directive with a
    name, its raw argument text and the argument text split at
    whitespace.  The result is the objects read before any scanner error
    and that error. *)
Definition scan (text : string) : list Object.t * option scan_error :=
  scan_lines (lines text) 1 None [].

End loon.

Module RuleParser.

(** [rm]: the catalog, from lower-cased singular name to resource. *)
Record t := mk { rm : gmap string ResourcePtr }.

(** The errors [Parse] returns, by format string, with the values the
    caller can tell apart. *)
Inductive error : Type :=
| ErrUnexpectedToken (line : Z)
| ErrMalformedSpecifier (line : Z) (name argtext : string)
| ErrMalformedCondition (line : Z) (name argtext : string)
| ErrUnknownResource (line : Z) (resname : string)
| ErrInvalidQuantity (line : Z)
| ErrUnknownOperator (line : Z) (shown : string)
| ErrMalformedEvery (line : Z) (name argtext : string)
| ErrInvalidPeriod (line : Z)
| ErrMalformedRepeatDirective (line : Z) (name argtext : string)
| ErrInvalidRepeat (line : Z)
| ErrMalformedRepeat (line : Z) (name argtext : string)
| ErrMalformedOnfail (line : Z) (name argtext : string)
| ErrUnknownDirective (line : Z) (name : string)
| ErrUnknownOnfail (rule target : string)
| ErrScanner (e : loon.scan_error).

(** The local type [rulespec] of [Parse]. *)
Record rulespec := mkspec { Rule_ : Rule.t; onFailRuleName : string }.

Definition with_Inputs (r : Rule.t) v :=
  Rule.mk (Rule.Name r) (Rule.Period r) (Rule.Preconditions r) v (Rule.Outputs r)
    (Rule.Sets r) (Rule.Manual r) (Rule.Repeat r) (Rule.RepeatFrom r) (Rule.OnFail r).
Definition with_Outputs (r : Rule.t) v :=
  Rule.mk (Rule.Name r) (Rule.Period r) (Rule.Preconditions r) (Rule.Inputs r) v
    (Rule.Sets r) (Rule.Manual r) (Rule.Repeat r) (Rule.RepeatFrom r) (Rule.OnFail r).
Definition with_Sets (r : Rule.t) v :=
  Rule.mk (Rule.Name r) (Rule.Period r) (Rule.Preconditions r) (Rule.Inputs r)
    (Rule.Outputs r) v (Rule.Manual r) (Rule.Repeat r) (Rule.RepeatFrom r) (Rule.OnFail r).
Definition with_Preconditions (r : Rule.t) v :=
  Rule.mk (Rule.Name r) (Rule.Period r) v (Rule.Inputs r) (Rule.Outputs r)
    (Rule.Sets r) (Rule.Manual r) (Rule.Repeat r) (Rule.RepeatFrom r) (Rule.OnFail r).
Definition with_Period (r : Rule.t) v :=
  Rule.mk (Rule.Name r) v (Rule.Preconditions r) (Rule.Inputs r) (Rule.Outputs r)
    (Rule.Sets r) (Rule.Manual r) (Rule.Repeat r) (Rule.RepeatFrom r) (Rule.OnFail r).
Definition with_Repeat (r : Rule.t) v :=
  Rule.mk (Rule.Name r) (Rule.Period r) (Rule.Preconditions r) (Rule.Inputs r)
    (Rule.Outputs r) (Rule.Sets r) (Rule.Manual r) v (Rule.RepeatFrom r) (Rule.OnFail r).
Definition with_RepeatFrom (r : Rule.t) v :=
  Rule.mk (Rule.Name r) (Rule.Period r) (Rule.Preconditions r) (Rule.Inputs r)
    (Rule.Outputs r) (Rule.Sets r) (Rule.Manual r) (Rule.Repeat r) v (Rule.OnFail r).
Definition with_OnFail (r : Rule.t) v :=
  Rule.mk (Rule.Name r) (Rule.Period r) (Rule.Preconditions r) (Rule.Inputs r)
    (Rule.Outputs r) (Rule.Sets r) (Rule.Manual r) (Rule.Repeat r) (Rule.RepeatFrom r) v.

(** [NewRuleParser]: each [*Resource] comes with the struct it points
    to; a later resource with the same lower-cased name replaces an
    earlier one. *)
Fixpoint catalog (resources : list (nat * Resource.t)) (m : gmap string ResourcePtr)
    : gmap string ResourcePtr :=
  match resources with
  | [] => m
  | (a, r) :: rest =>
      catalog rest (<[strings_.ToLower (Name.Singular (Resource.Name r)) := Some a]> m)
  end.

Definition NewRuleParser (resources : list (nat * Resource.t)) : t :=
  mk (catalog resources ∅).

(** The tail of the cases "in", "out" and "set" (lines 119-143), after
    the optional relation has been split off. *)
Definition specifier (p : t) (dir : loon.Directive.t) (relation : Relation)
    (res qty : string) (rule : Rule.t) : error + Rule.t :=
  let resname := strings_.ToLower res in
  match rm p !! resname with
  | None => inl (ErrUnknownResource (loon.Directive.Line dir) resname)
  | Some r =>
      match strconv.Atoi qty with
      | None => inl (ErrInvalidQuantity (loon.Directive.Line dir))
      | Some quantity =>
          let s := ResourceSpecifier.mk relation r quantity in
          if String.eqb (loon.Directive.Name dir) "in"
          then inr (with_Inputs rule (Rule.Inputs rule ++ [s]))
          else if String.eqb (loon.Directive.Name dir) "set"
          then inr (with_Sets rule (Rule.Sets rule ++ [s]))
          else inr (with_Outputs rule (Rule.Outputs rule ++ [s]))
      end
  end.

(** The switch on the operator text (lines 163-177). *)
Definition operator (s : string) : option Op :=
  if String.eqb s "=" then Some OpEquals
  else if String.eqb s ">" then Some OpGreaterThan
  else if String.eqb s "<" then Some OpLessThan
  else if String.eqb s ">=" then Some OpGreaterThanOrEqual
  else if String.eqb s "<=" then Some OpLessThanOrEqual
  else None.

(** The tail of the case "if" (lines 156-193). *)
Definition condition (p : t) (dir : loon.Directive.t) (relation : Relation)
    (res op qty : string) (rule : Rule.t) : error + Rule.t :=
  let resname := strings_.ToLower res in
  match rm p !! resname with
  | None => inl (ErrUnknownResource (loon.Directive.Line dir) resname)
  | Some r =>
      match operator op with
      | None => inl (ErrUnknownOperator (loon.Directive.Line dir) qty)
      | Some o =>
          match strconv.Atoi qty with
          | None => inl (ErrInvalidQuantity (loon.Directive.Line dir))
          | Some quantity =>
              let c := ResourceCondition.mk (ResourceSpecifier.mk relation r quantity) o in
              inr (with_Preconditions rule (Rule.Preconditions rule ++ [c]))
          end
      end
  end.

(** The tail of "repeat using" (lines 225-234). *)
Definition repeat_using (p : t) (objLine : Z) (relation : Relation) (res : string)
    (rule : Rule.t) : error + Rule.t :=
  let resname := strings_.ToLower res in
  match rm p !! resname with
  | None => inl (ErrUnknownResource objLine resname)
  | Some r => inr (with_RepeatFrom rule (Some (ResourceSource.mk relation r)))
  end.

(** One turn of the loop over [obj.Directives] (lines 106-248). *)
Definition directive (p : t) (objLine : Z) (spec : rulespec) (dir : loon.Directive.t)
    : error + rulespec :=
  let name := loon.Directive.Name dir in
  let args := loon.Directive.Args dir in
  let line := loon.Directive.Line dir in
  let text := loon.Directive.ArgText dir in
  let rule := Rule_ spec in
  let keep (r : error + Rule.t) : error + rulespec :=
    match r with
    | inl e => inl e
    | inr rule' => inr (mkspec rule' (onFailRuleName spec))
    end in
  if String.eqb name "in" || String.eqb name "out" || String.eqb name "set" then
    match args with
    | [res; qty] => keep (specifier p dir RelationSelf res qty rule)
    | [rel; res; qty] => keep (specifier p dir (strings_.ToLower rel) res qty rule)
    | _ => inl (ErrMalformedSpecifier line name text)
    end
  else if String.eqb name "if" then
    match args with
    | [res; op; qty] => keep (condition p dir RelationSelf res op qty rule)
    | [rel; res; op; qty] => keep (condition p dir (strings_.ToLower rel) res op qty rule)
    | _ => inl (ErrMalformedCondition line name text)
    end
  else if String.eqb name "every" then
    match args with
    | [ticks] =>
        match strconv.Atoi ticks with
        | None => inl (ErrInvalidPeriod line)
        | Some period => keep (inr (with_Period rule period))
        end
    | _ => inl (ErrMalformedEvery line name text)
    end
  else if String.eqb name "repeat" then
    match args with
    | [count] =>
        match strconv.Atoi count with
        | None => inl (ErrInvalidRepeat line)
        | Some n => keep (inr (with_Repeat rule n))
        end
    | [kw; res] =>
        if String.eqb kw "using"
        then keep (repeat_using p objLine RelationSelf res rule)
        else inl (ErrMalformedRepeat line name text)
    | [kw; rel; res] =>
        if String.eqb kw "using"
        then keep (repeat_using p objLine (strings_.ToLower rel) res rule)
        else inl (ErrMalformedRepeat line name text)
    | _ => inl (ErrMalformedRepeatDirective line name text)
    end
  else if String.eqb name "onfail" then
    match args with
    | [target] => inr (mkspec rule target)
    | _ => inl (ErrMalformedOnfail line name text)
    end
  else inl (ErrUnknownDirective line name).

Fixpoint directives (p : t) (objLine : Z) (spec : rulespec) (ds : list loon.Directive.t)
    : error + rulespec :=
  match ds with
  | [] => inr spec
  | d :: ds' =>
      match directive p objLine spec d with
      | inl e => inl e
      | inr spec' => directives p objLine spec' ds'
      end
  end.

(** The first pass (lines 91-252).  [rulespecs] grows at its end; the
    address of a rulespec is its position in [rulespecs], and
    [ruleIndex] maps a name to the address of the last rulespec read
    with that name. *)
Fixpoint objects (p : t) (objs : list loon.Object.t) (rulespecs : list rulespec)
    (ruleIndex : gmap string nat) : error + (list rulespec * gmap string nat) :=
  match objs with
  | [] => inr (rulespecs, ruleIndex)
  | obj :: objs' =>
      if negb (String.eqb (loon.Object.Type_ obj) "rule")
      then inl (ErrUnexpectedToken (loon.Object.Line obj))
      else
        let rule :=
          mkspec (Rule.mk (loon.Object.Name obj) 1 [] [] [] [] false 0 None None) "" in
        match directives p (loon.Object.Line obj) rule (loon.Object.Directives obj) with
        | inl e => inl e
        | inr spec =>
            objects p objs' (rulespecs ++ [spec])
              (<[Rule.Name (Rule_ spec) := length rulespecs]> ruleIndex)
        end
  end.

(** The second pass (lines 258-268): every named fallback is replaced
    by the address of the rule of that name. *)
Fixpoint resolve (ruleIndex : gmap string nat) (specs : list rulespec)
    : error + list Rule.t :=
  match specs with
  | [] => inr []
  | r :: specs' =>
      let rest (rule : Rule.t) : error + list Rule.t :=
        match resolve ruleIndex specs' with
        | inl e => inl e
        | inr rs => inr (rule :: rs)
        end in
      if String.eqb (onFailRuleName r) "" then rest (Rule_ r)
      else
        match ruleIndex !! onFailRuleName r with
        | None => inl (ErrUnknownOnfail (Rule.Name (Rule_ r)) (onFailRuleName r))
        | Some a => rest (with_OnFail (Rule_ r) (Some a))
        end
  end.

(** [Parse], on what the scanner delivers: the objects it read and the
    error it stopped with, if any.  The result lists the rules in
    source order; the rule at position [i] is the one a [*Rule] with
    address [i] points to. *)
Definition Parse (p : t) (scanned : list loon.Object.t * option loon.scan_error)
    : error + list Rule.t :=
  match objects p (fst scanned) [] ∅ with
  | inl e => inl e
  | inr (rulespecs, ruleIndex) =>
      match snd scanned with
      | Some e => inl (ErrScanner e)
      | None => resolve ruleIndex rulespecs
      end
  end.

(** [Parse] on a text. *)
Definition ParseText (p : t) (text : string) : error + list Rule.t :=
  Parse p (loon.scan text).

(** The rules in memory after a parse. *)
Definition table (rs : list Rule.t) : RulePtr -> Rule.t :=
  fun a => default Rule.zero (rs !! a).

End RuleParser.

(** ** Sequences of calls and fixtures *)

(** A call of [Add] or of [Set] on a pool set. *)
Inductive pool_call : Type :=
| CallAdd (r : ResourcePtr) (q : Z)
| CallSet (r : ResourcePtr) (q : Z).

Definition call (p : PoolSet) (c : pool_call) (h : Heap) : Heap :=
  match c with
  | CallAdd r q => fst (PoolSet.Add p r q h)
  | CallSet r q => fst (PoolSet.Set_ p r q h)
  end.

(** The calls of [cs], first to last. *)
Fixpoint calls (p : PoolSet) (cs : list pool_call) (h : Heap) : Heap :=
  match cs with
  | [] => h
  | c :: cs' => calls p cs' (call p c h)
  end.

Definition call_target (c : pool_call) : ResourcePtr :=
  match c with CallAdd r _ | CallSet r _ => r end.

Definition call_quantity (c : pool_call) : Z :=
  match c with CallAdd _ q | CallSet _ q => q end.

(** A call that passes a quantity [q >= 0] which, added to a quantity of
    at most [cap], stays within an [int]. *)
Definition call_growing (cap : Z) (c : pool_call) : Prop :=
  0 <= call_quantity c /\ cap + call_quantity c <= GoInt.max_int.

(** The quantity a call writes to the pool it addresses, before the
    comparison with the capacity. *)
Definition call_written (c : pool_call) (pool : Pool.t) : Z :=
  match c with
  | CallAdd _ q => GoInt.add (Pool.Quantity pool) q
  | CallSet _ q => q
  end.

(** [Add p r q] cut the quantity back to the capacity. *)
Definition Add_clamped (p : PoolSet) (r : ResourcePtr) (q : Z) (h : Heap) : bool :=
  match PoolSet.find p r with
  | None => false
  | Some l => Pool.Capacity (load h l) <? GoInt.add (Pool.Quantity (load h l)) q
  end.

(** ** Rounds *)

(** The runner after the deferred function of a call for [rule] at
    [tick] has run. *)
Definition ran (ru : Runner.t) (rule : RulePtr) (tick : Z) : Runner.t :=
  Runner.mk (<[rule := RuleState.mk tick]> (Runner.ruleStates ru)).



(** The heap after [k] rounds of a rule that all succeed: each time
    [canRun] returns true and the three effect loops run to their end.
    [None] when one of the [k] rounds does not succeed. *)
Fixpoint run_rounds (rule : Rule.t) (ctx : RuleContext.t) (k : nat) (h : Heap)
    : option Heap :=
  match k with
  | O => Some h
  | S k' =>
      match canRun rule ctx h, RunRule_effects rule ctx h with
      | (true, None), (h', true) => run_rounds rule ctx k' h'
      | _, _ => None
      end
  end.

(** The removal an input asks for, applied whatever it reports. *)
Definition remove_input (ctx : RuleContext.t) (h : Heap) (i : ResourceSpecifier.t) : Heap :=
  match RuleContext.Pools ctx !! ResourceSpecifier.Relation i with
  | None => h
  | Some poolset =>
      fst (PoolSet.Remove poolset (ResourceSpecifier.Resource i)
             (ResourceSpecifier.Quantity i) h)
  end.

(** The removals of a list of inputs, in order. *)
Definition removals (ctx : RuleContext.t) (ins : list ResourceSpecifier.t) (h : Heap) : Heap :=
  fold_left (remove_input ctx) ins h.

(** The excess the removal of an input reports. *)
Definition input_excess (ctx : RuleContext.t) (h : Heap) (i : ResourceSpecifier.t) : Z :=
  match RuleContext.Pools ctx !! ResourceSpecifier.Relation i with
  | None => 0
  | Some poolset =>
      snd (PoolSet.Remove poolset (ResourceSpecifier.Resource i)
             (ResourceSpecifier.Quantity i) h)
  end.

(** The quantity an input specifier sees. *)
Definition input_available (ctx : RuleContext.t) (h : Heap) (i : ResourceSpecifier.t) : Z :=
  match RuleContext.Pools ctx !! ResourceSpecifier.Relation i with
  | None => 0
  | Some poolset => PoolSet.Quantity poolset (ResourceSpecifier.Resource i) h
  end.

(** The quantity of the pool a pool set holds under a resource, 0 when it
    holds none. *)
Definition held (p : PoolSet) (r : ResourcePtr) (h : Heap) : Z :=
  match PoolSet.index p r with
  | Some l => Pool.Quantity (load h l)
  | None => 0
  end.

(** The pool an input specifier addresses, if any. *)
Definition input_pool (ctx : RuleContext.t) (i : ResourceSpecifier.t) : option PoolPtr :=
  match RuleContext.Pools ctx !! ResourceSpecifier.Relation i with
  | None => None
  | Some poolset => PoolSet.find poolset (ResourceSpecifier.Resource i)
  end.

(** ** Hard errors *)

(** The operators [canRun] knows. *)
Definition known_op (op : Op) : Prop := 0 <= op <= 4.

(** [e] is an error [canRun] can return for the rule in the context: a
    precondition or an input whose relation the context lacks, or a
    precondition with an operator outside the five known ones. *)
Definition hard_error (rule : Rule.t) (ctx : RuleContext.t) (e : error) : Prop :=
  (exists c, c ∈ Rule.Preconditions rule
     /\ RuleContext.Pools ctx !! ResourceCondition.Relation c = None
     /\ e = ErrNoPreconditionPoolset (Rule.Name rule) (ResourceCondition.Relation c))
  \/ (exists c, c ∈ Rule.Preconditions rule
     /\ ~ known_op (ResourceCondition.Op c)
     /\ e = ErrUnknownOperation (Rule.Name rule) (ResourceCondition.Op c))
  \/ (exists i, i ∈ Rule.Inputs rule
     /\ RuleContext.Pools ctx !! ResourceSpecifier.Relation i = None
     /\ e = ErrNoInputPoolset (Rule.Name rule) (ResourceSpecifier.Relation i)).

(** The relation of a specifier is missing from the context. *)
Definition relation_absent (ctx : RuleContext.t) (s : ResourceSpecifier.t) : Prop :=
  RuleContext.Pools ctx !! ResourceSpecifier.Relation s = None.

(** ** Chains of fallbacks *)

Section Chains.

Variable rules : RulePtr -> Rule.t.

(** The rule reached from [r] by following [OnFail] [n] times. *)
Fixpoint chain_at (n : nat) (r : RulePtr) : option RulePtr :=
  match n with
  | O => Some r
  | S n' =>
      match Rule.OnFail (rules r) with
      | None => None
      | Some f => chain_at n' f
      end
  end.

(** The chain from [r] reaches a rule without fallback within [n]
    steps. *)
Fixpoint chain_ends (n : nat) (r : RulePtr) : bool :=
  match Rule.OnFail (rules r) with
  | None => true
  | Some f =>
      match n with
      | O => false
      | S n' => chain_ends n' f
      end
  end.

(** No rule occurs twice on the chain of [OnFail] references from
    [r]. *)
Definition acyclic (r : RulePtr) : Prop :=
  forall i j x, chain_at i r = Some x -> chain_at j r = Some x -> i = j.

(** The rules on the chain from [r] live at addresses below [N]. *)
Definition chain_below (N : nat) (r : RulePtr) : Prop :=
  forall i x, chain_at i r = Some x -> (x < N)%nat.

(** The rule is due, its loop has a round to run, and [canRun] returns
    false without error in that first round. *)
Definition first_round_fails (ru : Runner.t) (tick : Z) (ctx : RuleContext.t) (h : Heap)
    (r : RulePtr) : Prop :=
  throttled rules ru r tick = false
  /\ (exists rounds, rounds_of (rules r) ctx h = Some rounds /\ 0 < rounds)
  /\ canRun (rules r) ctx h = (false, None).

End Chains.

(** The resources of runner_test.go, with the addresses they live at. *)
Definition ironOre : nat * Resource.t := (1%nat, Resource.mk "" (Name.mk "" "iron_ore")).
Definition iron : nat * Resource.t := (2%nat, Resource.mk "" (Name.mk "" "iron")).
Definition workers : nat * Resource.t := (3%nat, Resource.mk "" (Name.mk "" "workers")).

Definition res (r : nat * Resource.t) : ResourcePtr := Some (fst r).

(** A pool set holding one pool of iron ore, at address 10, and a heap
    giving that pool a quantity and a capacity. *)
Definition ore_set : PoolSet := Some {[ res ironOre := 10%nat ]}.
Definition ore_heap (quantity capacity : Z) : Heap :=
  {[ 10%nat := Pool.mk (res ironOre) quantity capacity ]}.

(** The catalog of the parser tests. *)
Definition test_parser : RuleParser.t := RuleParser.NewRuleParser [ironOre; iron; workers].

Definition nl : string := String (ascii_of_nat 10) EmptyString.

(** The rule text of the third parser test. *)
Definition text_preconditioned : string :=
  "rule test" +:+ nl +:+
  " if global iron_ore > 6" +:+ nl +:+
  " in global iron_ore 3" +:+ nl +:+
  " out self iron 1" +:+ nl +:+
  "end".

(** A rule that names itself as its fallback, and two rules that name each
    other. *)
Definition text_self_onfail : string :=
  "rule a" +:+ nl +:+
  " if iron > 0" +:+ nl +:+
  " onfail a" +:+ nl +:+
  "end".

Definition text_cycle : string :=
  "rule a" +:+ nl +:+
  " if iron > 0" +:+ nl +:+
  " onfail b" +:+ nl +:+
  "end" +:+ nl +:+
  "rule b" +:+ nl +:+
  " if iron > 0" +:+ nl +:+
  " onfail a" +:+ nl +:+
  "end".

Definition rule_self_onfail : Rule.t :=
  Rule.mk "a" 1
    [ResourceCondition.mk (ResourceSpecifier.mk RelationSelf (res iron) 0) OpGreaterThan]
    [] [] [] false 0 None (Some 0%nat).

Definition rule_cycle (name : string) (onfail : RulePtr) : Rule.t :=
  Rule.mk name 1
    [ResourceCondition.mk (ResourceSpecifier.mk RelationSelf (res iron) 0) OpGreaterThan]
    [] [] [] false 0 None (Some onfail).

(** A context with the single relation self, holding a pool of iron ore
    at address 10 and a pool of iron at address 11, both of capacity
    1000. *)
Definition self_set : PoolSet := Some {[ res ironOre := 10%nat; res iron := 11%nat ]}.
Definition self_ctx : RuleContext.t := RuleContext.mk {[ RelationSelf := self_set ]}.
Definition self_heap (ore fe : Z) : Heap :=
  {[ 10%nat := Pool.mk (res ironOre) ore 1000; 11%nat := Pool.mk (res iron) fe 1000 ]}.

(** A rule that asks twice for 3 iron ore and gives 1 iron. *)
Definition rule_twice : Rule.t :=
  Rule.mk "twice" 1 []
    [ResourceSpecifier.mk RelationSelf (res ironOre) 3;
     ResourceSpecifier.mk RelationSelf (res ironOre) 3]
    [ResourceSpecifier.mk RelationSelf (res iron) 1]
    [] false 0 None None.

(** Two rules in memory: at address 0 a rule whose output goes to the
    relation location, at every other address a rule whose output goes to
    self. *)
Definition rule_out_location : Rule.t :=
  Rule.mk "away" 1 [] [] [ResourceSpecifier.mk RelationLocation (res iron) 1] []
    false 0 None None.

Definition rule_out_self : Rule.t :=
  Rule.mk "home" 1 [] [] [ResourceSpecifier.mk RelationSelf (res iron) 1] []
    false 0 None None.

Definition rules_away_home : RulePtr -> Rule.t :=
  fun a => if a is O then rule_out_location else rule_out_self.

(** A rule whose only precondition names the relation location. *)
Definition rule_if_location : Rule.t :=
  Rule.mk "lost" 1
    [ResourceCondition.mk (ResourceSpecifier.mk RelationLocation (res iron) 0) OpEquals]
    [] [] [] false 0 None None.

Definition rules_lost_home : RulePtr -> Rule.t :=
  fun a => if a is O then rule_if_location else rule_out_self.

(** The rules of the parser tests on [repeat] and [onfail]. *)
Definition text_repeat12 : string :=
  "rule test" +:+ nl +:+
  " in iron_ore 3" +:+ nl +:+
  " out iron 1" +:+ nl +:+
  " repeat 12" +:+ nl +:+
  "end".

Definition rule_repeat12 : Rule.t :=
  Rule.mk "test" 1 []
    [ResourceSpecifier.mk RelationSelf (res ironOre) 3]
    [ResourceSpecifier.mk RelationSelf (res iron) 1]
    [] false 12 None None.

Definition text_onfail : string :=
  "rule test" +:+ nl +:+
  " in iron_ore 3" +:+ nl +:+
  " out iron 3" +:+ nl +:+
  " onfail test2" +:+ nl +:+
  "end" +:+ nl +:+
  "rule test2" +:+ nl +:+
  " in iron_ore 1" +:+ nl +:+
  " out iron 1" +:+ nl +:+
  "end".

Definition rules_onfail : list Rule.t :=
  [ Rule.mk "test" 1 []
      [ResourceSpecifier.mk RelationSelf (res ironOre) 3]
      [ResourceSpecifier.mk RelationSelf (res iron) 3]
      [] false 0 None (Some 1%nat);
    Rule.mk "test2" 1 []
      [ResourceSpecifier.mk RelationSelf (res ironOre) 1]
      [ResourceSpecifier.mk RelationSelf (res iron) 1]
      [] false 0 None None ].

Definition text_every0 : string :=
  "rule test" +:+ nl +:+
  " every 0" +:+ nl +:+
  " set iron 1" +:+ nl +:+
  "end".

Definition text_repeat_using : string :=
  "rule test" +:+ nl +:+
  " repeat using location workers" +:+ nl +:+
  "end".

(** ** The resource parser *)

(** [strings.TrimSpace] on the ASCII white space (tab, line feed,
    vertical tab, form feed, carriage return, space); the two white space
    characters beyond ASCII are kept. *)
Definition is_go_space (c : ascii) : bool :=
  let n := nat_of_ascii c in
  ((9 <=? n)%nat && (n <=? 13)%nat) || (n =? 32)%nat.

Fixpoint trim_space_left (s : string) : string :=
  match s with
  | String c s' => if is_go_space c then trim_space_left s' else s
  | EmptyString => EmptyString
  end.

Definition TrimSpace (s : string) : string :=
  String.rev (trim_space_left (String.rev (trim_space_left s))).

Module ResourceParser.

(** The errors [Parse] returns, by format string. *)
Inductive error : Type :=
| ErrUnexpectedToken (line : Z)
| ErrUnknownDirective (line : Z) (name : string)
| ErrScanner (e : loon.scan_error).

Definition with_Singular (r : Resource.t) (v : string) : Resource.t :=
  Resource.mk (Resource.ID r) (Name.mk (Name.Plural (Resource.Name r)) v).

Definition with_Plural (r : Resource.t) (v : string) : Resource.t :=
  Resource.mk (Resource.ID r) (Name.mk v (Name.Singular (Resource.Name r))).

(** The loop over [obj.Directives] (lines 301-310). *)
Fixpoint directives (res : Resource.t) (ds : list loon.Directive.t)
    : error + Resource.t :=
  match ds with
  | [] => inr res
  | dir :: ds' =>
      if String.eqb (loon.Directive.Name dir) "singular"
      then directives (with_Singular res (loon.Directive.ArgText dir)) ds'
      else if String.eqb (loon.Directive.Name dir) "plural"
      then directives (with_Plural res (loon.Directive.ArgText dir)) ds'
      else inl (ErrUnknownDirective (loon.Directive.Line dir) (loon.Directive.Name dir))
  end.

(** The loop over the objects (lines 287-314); [resources] grows at its
    end. *)
Fixpoint objects (objs : list loon.Object.t) (resources : list Resource.t)
    : error + list Resource.t :=
  match objs with
  | [] => inr resources
  | obj :: objs' =>
      if negb (String.eqb (loon.Object.Type_ obj) "resource")
      then inl (ErrUnexpectedToken (loon.Object.Line obj))
      else
        let name := TrimSpace (loon.Object.Name obj) in
        match directives (Resource.mk name (Name.mk name name))
                (loon.Object.Directives obj) with
        | inl e => inl e
        | inr res => objects objs' (resources ++ [res])
        end
  end.

(** [ResourceParser.Parse], on what the scanner delivers.  The result
    lists the structs the returned pointers point to, in source order. *)
Definition Parse (scanned : list loon.Object.t * option loon.scan_error)
    : error + list Resource.t :=
  match objects (fst scanned) [] with
  | inl e => inl e
  | inr resources =>
      match snd scanned with
      | Some e => inl (ErrScanner e)
      | None => inr resources
      end
  end.

End ResourceParser.

(** ** Agents and the global scope (types.go) *)

(** [NewPoolSet]: an empty map that is not nil. *)
Definition NewPoolSet : PoolSet := Some ∅.

Module Agent.

(** [Relations] maps a relation to a [*Agent], an address or nil; the
    map itself may be nil. *)
Record t := mk {
  Name : Name.t;
  Pools : PoolSet;
  Rules : list RulePtr;
  Relations : option (gmap Relation (option nat))
}.

Definition with_Pools (a : t) (p : PoolSet) : t := mk (Name a) p (Rules a) (Relations a).
Definition with_Rules (a : t) (rs : list RulePtr) : t :=
  mk (Name a) (Pools a) rs (Relations a).

End Agent.

(** [NewAgent] *)
Definition NewAgent (name : string) : Agent.t :=
  Agent.mk (Name.mk "" name) NewPoolSet [] (Some ∅).

(** [PrependRules]: the new rules are copied in front of the agent's. *)
Definition PrependRules (a : Agent.t) (rules : list RulePtr) : Agent.t :=
  Agent.with_Rules a (([] ++ rules) ++ Agent.Rules a).

(** [AppendRules] *)
Definition AppendRules (a : Agent.t) (rules : list RulePtr) : Agent.t :=
  Agent.with_Rules a (Agent.Rules a ++ rules).

(** [Agent.SetCapacity] and [Agent.AddPool] hand over to the agent's pool
    set; [None] is the panic of the pool set's method. *)
Definition Agent_SetCapacity (fresh : PoolPtr) (a : Agent.t) (r : ResourcePtr) (c : Z)
    (h : Heap) : option (Agent.t * Heap) :=
  match PoolSet.SetCapacity fresh (Agent.Pools a) r c h with
  | None => None
  | Some (p, h') => Some (Agent.with_Pools a p, h')
  end.

Definition Agent_AddPool (fresh : PoolPtr) (a : Agent.t) (r : ResourcePtr)
    (capacity quantity : Z) (h : Heap) : option (Agent.t * Heap) :=
  match PoolSet.AddPool fresh (Agent.Pools a) r capacity quantity h with
  | None => None
  | Some (p, h') => Some (Agent.with_Pools a p, h')
  end.

(** [AddRelation]; assigning to a nil map panics ([None]). *)
Definition AddRelation (a : Agent.t) (r : Relation) (c : option nat) : option Agent.t :=
  match Agent.Relations a with
  | None => None
  | Some m => Some (Agent.mk (Agent.Name a) (Agent.Pools a) (Agent.Rules a) (Some (<[r := c]> m)))
  end.

Section Agents.

(** The agents in memory. *)
Variable agents : nat -> Agent.t.

(** One turn of the loop of [Agent.RuleContext] (lines 181-183); [None]
    is the panic on a related agent that is nil. *)
Definition RuleContext_step (r : Relation) (ra : option nat)
    (rc : option (gmap Relation PoolSet)) : option (gmap Relation PoolSet) :=
  match rc, ra with
  | Some pools, Some c => Some (<[r := Agent.Pools (agents c)]> pools)
  | _, _ => None
  end.

(** [Agent.RuleContext]: the agent's own pools under self, then the
    pools of every related agent under its relation. *)
Definition Agent_RuleContext (a : Agent.t) : option RuleContext.t :=
  match
    map_fold RuleContext_step (Some {[ RelationSelf := Agent.Pools a ]})
      (default ∅ (Agent.Relations a))
  with
  | None => None
  | Some pools => Some (RuleContext.mk pools)
  end.

End Agents.

Module Global.
Record t := mk { Pools : PoolSet; Rules : list RulePtr }.
End Global.

(** [NewGlobal] *)
Definition NewGlobal (rules : list RulePtr) : Global.t := Global.mk NewPoolSet rules.

(** [Global.SetCapacity] *)
Definition Global_SetCapacity (fresh : PoolPtr) (g : Global.t) (r : ResourcePtr) (c : Z)
    (h : Heap) : option (Global.t * Heap) :=
  match PoolSet.SetCapacity fresh (Global.Pools g) r c h with
  | None => None
  | Some (p, h') => Some (Global.mk p (Global.Rules g), h')
  end.

(** ** What the further properties speak about *)

(** The comparison an operator stands for. *)
Definition op_holds (op : Op) (q target : Z) : Prop :=
  (op = OpEquals /\ q = target)
  \/ (op = OpGreaterThan /\ target < q)
  \/ (op = OpGreaterThanOrEqual /\ target <= q)
  \/ (op = OpLessThan /\ q < target)
  \/ (op = OpLessThanOrEqual /\ q <= target).

(** A precondition holds: its relation is in the context and the
    quantity found there compares as asked. *)
Definition condition_holds (ctx : RuleContext.t) (h : Heap) (c : ResourceCondition.t) : Prop :=
  exists poolset,
    RuleContext.Pools ctx !! ResourceCondition.Relation c = Some poolset
    /\ op_holds (ResourceCondition.Op c)
         (PoolSet.Quantity poolset (ResourceCondition.Resource c) h)
         (ResourceCondition.Quantity c).

(** An input is affordable: its relation is in the context and holds at
    least the quantity asked for. *)
Definition input_affordable (ctx : RuleContext.t) (h : Heap) (i : ResourceSpecifier.t) : Prop :=
  is_Some (RuleContext.Pools ctx !! ResourceSpecifier.Relation i)
  /\ ResourceSpecifier.Quantity i <= input_available ctx h i.

(** The pools the inputs, outputs and sets of a rule address. *)
Definition rule_pools (ctx : RuleContext.t) (rule : Rule.t) : list PoolPtr :=
  omap (input_pool ctx) (Rule.Inputs rule ++ Rule.Outputs rule ++ Rule.Sets rule).

(** From [h] to [h'] no pool has changed its capacity or its resource,
    and the pools outside [L] have not changed at all. *)
Definition only_quantities (L : PoolPtr -> Prop) (h h' : Heap) : Prop :=
  forall l,
    Pool.Capacity (load h' l) = Pool.Capacity (load h l)
    /\ Pool.Resource (load h' l) = Pool.Resource (load h l)
    /\ (~ L l -> load h' l = load h l).

(** The pools addressed by the rules on the chain of fallbacks of [r]. *)
Definition chain_pools (rules : RulePtr -> Rule.t) (ctx : RuleContext.t) (r : RulePtr)
    (l : PoolPtr) : Prop :=
  exists i x, chain_at rules i r = Some x /\ l ∈ rule_pools ctx (rules x).

(** The pools addressed by the rules of a batch and of their chains. *)
Definition batch_pools (rules : RulePtr -> Rule.t) (ctx : RuleContext.t)
    (rs : list RulePtr) (l : PoolPtr) : Prop :=
  exists r, r ∈ rs /\ chain_pools rules ctx r l.

(** A rule with the largest fixed repeat an [int] can hold. *)
Definition rule_never : Rule.t :=
  Rule.mk "never" 1 [] [] [ResourceSpecifier.mk RelationSelf (res iron) 1] [] false
    GoInt.max_int None None.

(** The resources a rule refers to. *)
Definition rule_resources (r : Rule.t) : list ResourcePtr :=
  (ResourceCondition.Resource <$> Rule.Preconditions r)
  ++ (ResourceSpecifier.Resource <$> Rule.Inputs r)
  ++ (ResourceSpecifier.Resource <$> Rule.Outputs r)
  ++ (ResourceSpecifier.Resource <$> Rule.Sets r)
  ++ match Rule.RepeatFrom r with
     | Some src => [ResourceSource.Resource src]
     | None => []
     end.

(** The resource is one the catalog of the parser holds. *)
Definition in_catalog (p : RuleParser.t) (r : ResourcePtr) : Prop :=
  exists name, RuleParser.rm p !! name = Some r.

(** The directives [RuleParser.Parse] knows. *)
Definition rule_directives : list string :=
  ["in"; "out"; "set"; "if"; "every"; "repeat"; "onfail"].


(** What one directive leaves of a rulespec: the name and the fallback
    pointer of the rule, resources taken from the catalog, and a fallback
    name that is the old one or the argument of an onfail directive. *)
Definition directive_keeps (p : RuleParser.t) (spec spec' : RuleParser.rulespec)
    (dir : loon.Directive.t) : Prop :=
  Rule.Name (RuleParser.Rule_ spec') = Rule.Name (RuleParser.Rule_ spec)
  /\ Rule.OnFail (RuleParser.Rule_ spec') = Rule.OnFail (RuleParser.Rule_ spec)
  /\ (Forall (in_catalog p) (rule_resources (RuleParser.Rule_ spec)) ->
      Forall (in_catalog p) (rule_resources (RuleParser.Rule_ spec')))
  /\ loon.Directive.Name dir ∈ rule_directives
  /\ (RuleParser.onFailRuleName spec' = RuleParser.onFailRuleName spec
      \/ (loon.Directive.Name dir = "onfail"
          /\ loon.Directive.Args dir = [RuleParser.onFailRuleName spec'])).

(** Every entry of the index of names gives the position of the last
    rulespec read so far that bears the name. *)
Definition index_points (specs : list RuleParser.rulespec) (idx : gmap string nat) : Prop :=
  forall n j, idx !! n = Some j ->
    exists s, specs !! j = Some s
      /\ Rule.Name (RuleParser.Rule_ s) = n
      /\ forall k s', specs !! k = Some s' -> Rule.Name (RuleParser.Rule_ s') = n ->
           (k <= j)%nat.

(** The rulespec the first pass makes of an object. *)
Definition object_spec (p : RuleParser.t) (obj : loon.Object.t) (s : RuleParser.rulespec)
    : Prop :=
  loon.Object.Type_ obj = "rule"
  /\ Forall (fun d => loon.Directive.Name d ∈ rule_directives) (loon.Object.Directives obj)
  /\ Rule.Name (RuleParser.Rule_ s) = loon.Object.Name obj
  /\ Rule.OnFail (RuleParser.Rule_ s) = None
  /\ Forall (in_catalog p) (rule_resources (RuleParser.Rule_ s))
  /\ (RuleParser.onFailRuleName s = ""
      \/ exists d, d ∈ loon.Object.Directives obj
           /\ loon.Directive.Name d = "onfail"
           /\ loon.Directive.Args d = [RuleParser.onFailRuleName s]).

(** The rule the second pass makes of a rulespec. *)
Definition spec_rule (idx : gmap string nat) (s : RuleParser.rulespec) (r : Rule.t) : Prop :=
  (RuleParser.onFailRuleName s = "" /\ r = RuleParser.Rule_ s)
  \/ (RuleParser.onFailRuleName s <> ""
      /\ exists j, idx !! RuleParser.onFailRuleName s = Some j
           /\ r = RuleParser.with_OnFail (RuleParser.Rule_ s) (Some j)).

(** The text of the last directive called [name], or [dflt] when there
    is none. *)
Definition last_text (name : string) (ds : list loon.Directive.t) (dflt : string) : string :=
  default dflt
    (last (loon.Directive.ArgText <$> filter (fun d => loon.Directive.Name d = name) ds)).

(** What [Agent.RuleContext] puts under a relation: the pools of the
    related agent, or the agent's own pools under self when no agent is
    related as self. *)
Definition context_entry (agents : nat -> Agent.t) (a : Agent.t)
    (rels : gmap Relation (option nat)) (r : Relation) : option PoolSet :=
  match rels !! r with
  | Some (Some c) => Some (Agent.Pools (agents c))
  | Some None => None
  | None => if decide (r = RelationSelf) then Some (Agent.Pools a) else None
  end.

(** The resource a block of the file stands for. *)
Definition block_resource (obj : loon.Object.t) (res : Resource.t) : Prop :=
  loon.Object.Type_ obj = "resource"
  /\ Forall (fun d => loon.Directive.Name d = "singular"
                      \/ loon.Directive.Name d = "plural") (loon.Object.Directives obj)
  /\ Resource.ID res = TrimSpace (loon.Object.Name obj)
  /\ Name.Singular (Resource.Name res)
       = last_text "singular" (loon.Object.Directives obj) (TrimSpace (loon.Object.Name obj))
  /\ Name.Plural (Resource.Name res)
       = last_text "plural" (loon.Object.Directives obj) (TrimSpace (loon.Object.Name obj)).

(** A resource file with two blocks, the first naming its resource
    twice over. *)
Definition text_resources : string :=
  "resource iron_ore " +:+ nl +:+
  " singular lump of ore" +:+ nl +:+
  " plural ore" +:+ nl +:+
  " singular ore" +:+ nl +:+
  "end" +:+ nl +:+
  "resource iron" +:+ nl +:+
  "end" +:+ nl.

(** Two agents: a town that holds the ore, and a smith located in it. *)
Definition agent_town : Agent.t :=
  Agent.mk (Name.mk "" "town") ore_set [] (Some ∅).
Definition agent_smith : Agent.t :=
  Agent.mk (Name.mk "" "smith") NewPoolSet [] (Some {[ RelationLocation := Some 0%nat ]}).
Definition agents_home (n : nat) : Agent.t := agent_town.

(** A block the resource parser takes: a resource block with no
    directive but singular and plural. *)
Definition resource_block (obj : loon.Object.t) : Prop :=
  loon.Object.Type_ obj = "resource"
  /\ Forall (fun d => loon.Directive.Name d = "singular" \/ loon.Directive.Name d = "plural")
       (loon.Object.Directives obj).

(** * Properties *)

(** ** Machine integers *)

Lemma wrap_in_range z : GoInt.in_range (GoInt.wrap z).
Proof.
  unfold GoInt.in_range, GoInt.wrap, GoInt.min_int, GoInt.max_int.
  pose proof (Z.mod_pos_bound (z + 2 ^ 63) (2 ^ 64)). lia.
Qed.

Lemma wrap_small z : GoInt.in_range z -> GoInt.wrap z = z.
Proof.
  unfold GoInt.in_range, GoInt.wrap, GoInt.min_int, GoInt.max_int. intros Hz.
  rewrite Z.mod_small; lia.
Qed.

Lemma add_exact a b : GoInt.in_range (a + b) -> GoInt.add a b = a + b.
Proof. apply wrap_small. Qed.

Lemma sub_exact a b : GoInt.in_range (a - b) -> GoInt.sub a b = a - b.
Proof. apply wrap_small. Qed.

(** ** The heap *)

Lemma load_store_eq l p (h : Heap) : load (store l p h) l = p.
Proof. unfold load, store. by rewrite lookup_insert_eq. Qed.

Lemma load_store_ne l l' p (h : Heap) : l <> l' -> load (store l p h) l' = load h l'.
Proof. intros Hne. unfold load, store. by rewrite lookup_insert_ne. Qed.

Lemma lookup_store_ne l l' p (h : Heap) : l <> l' -> store l p h !! l' = h !! l'.
Proof. intros Hne. unfold store. by rewrite lookup_insert_ne. Qed.

(** ** Pool sets *)

Lemma find_None p r :
  PoolSet.find p r = None <-> p = None \/ r = None \/ PoolSet.index p r = None.
Proof.
  unfold PoolSet.find, PoolSet.index.
  destruct p as [m|], r as [a|]; simpl; intuition congruence.
Qed.

Lemma find_Some_index p r l : PoolSet.find p r = Some l -> PoolSet.index p r = Some l.
Proof. unfold PoolSet.find, PoolSet.index. destruct p, r; simpl; congruence. Qed.

(** C4.  [Remove] is atomic.  Either it returns 0 and the pool found for
    the resource has its quantity decreased by exactly [q] (Go's [-=],
    which is the mathematical difference whenever that fits an [int], in
    particular for every [q >= 0] taken from an [int] quantity), nothing
    else being touched; or nothing is touched at all and [q] is returned
    in full, which happens exactly when the pool set or the resource is
    nil, the resource has no pool, or the quantity is below [q]. *)
Theorem Remove_atomic (p : PoolSet) (r : ResourcePtr) (q : Z) (h : Heap) :
  let h' := fst (PoolSet.Remove p r q h) in
  let ret := snd (PoolSet.Remove p r q h) in
  (exists l,
      PoolSet.find p r = Some l
      /\ q <= PoolSet.Quantity p r h
      /\ ret = 0
      /\ PoolSet.Quantity p r h' = GoInt.sub (PoolSet.Quantity p r h) q
      /\ (GoInt.in_range (PoolSet.Quantity p r h - q) ->
          PoolSet.Quantity p r h' = PoolSet.Quantity p r h - q)
      /\ PoolSet.Capacity p r h' = PoolSet.Capacity p r h
      /\ Pool.Resource (load h' l) = Pool.Resource (load h l)
      /\ forall l', l' <> l -> h' !! l' = h !! l')
  \/ ((p = None \/ r = None \/ PoolSet.index p r = None \/ PoolSet.Quantity p r h < q)
      /\ ret = q /\ h' = h).
Proof.
  simpl. unfold PoolSet.Remove, PoolSet.Quantity, PoolSet.Capacity.
  destruct (PoolSet.find p r) as [l|] eqn:Hf.
  - destruct (Pool.Quantity (load h l) <? q) eqn:Hlt.
    + right. apply Z.ltb_lt in Hlt. simpl. auto 6.
    + left. apply Z.ltb_ge in Hlt. exists l. simpl.
      rewrite load_store_eq. simpl.
      repeat split; auto.
      * intros Hr. by apply sub_exact.
      * intros l' Hne. by apply lookup_store_ne.
  - right. simpl. apply find_None in Hf. intuition.
Qed.

(** ** Add, Set and the bounds of a quantity *)

Lemma clamp_load l pool q' (h : Heap) l' :
  load (fst (PoolSet.clamp l pool q' h)) l' =
    if decide (l = l')
    then Pool.with_Quantity pool (if Pool.Capacity pool <? q' then Pool.Capacity pool else q')
    else load h l'.
Proof.
  unfold PoolSet.clamp.
  destruct (Pool.Capacity pool <? q'); simpl; case_decide; subst;
    rewrite ?load_store_eq; auto using load_store_ne.
Qed.

Lemma call_load p c (h : Heap) l :
  load (call p c h) l =
    if decide (PoolSet.find p (call_target c) = Some l)
    then Pool.with_Quantity (load h l)
           (if Pool.Capacity (load h l) <? call_written c (load h l)
            then Pool.Capacity (load h l) else call_written c (load h l))
    else load h l.
Proof.
  destruct c as [r q|r q]; simpl; unfold PoolSet.Add, PoolSet.Set_;
    (destruct (PoolSet.find p r) as [l0|] eqn:Hf; [|by case_decide]);
    rewrite clamp_load; repeat case_decide; simplify_eq; done.
Qed.

Lemma call_Capacity p c (h : Heap) l :
  Pool.Capacity (load (call p c h) l) = Pool.Capacity (load h l).
Proof. rewrite call_load. by case_decide. Qed.

Lemma calls_Capacity p cs (h : Heap) l :
  Pool.Capacity (load (calls p cs h) l) = Pool.Capacity (load h l).
Proof.
  revert h. induction cs as [|c cs IH]; intros h; simpl; [done|].
  by rewrite IH, call_Capacity.
Qed.

Lemma call_upper p c (h : Heap) l :
  Pool.Quantity (load h l) <= Pool.Capacity (load h l)
  \/ PoolSet.find p (call_target c) = Some l ->
  Pool.Quantity (load (call p c h) l) <= Pool.Capacity (load (call p c h) l).
Proof.
  intros H. rewrite call_load. case_decide; simpl.
  - match goal with |- context [?a <? ?b] => destruct (Z.ltb_spec a b) end; lia.
  - by destruct H.
Qed.

Lemma calls_upper p cs (h : Heap) l :
  Pool.Quantity (load h l) <= Pool.Capacity (load h l) ->
  Pool.Quantity (load (calls p cs h) l) <= Pool.Capacity (load (calls p cs h) l).
Proof.
  revert h. induction cs as [|c cs IH]; intros h H; simpl; [done|].
  apply IH, call_upper. by left.
Qed.

Lemma call_lower p c (h : Heap) l :
  0 <= Pool.Quantity (load h l) <= Pool.Capacity (load h l) ->
  call_growing (Pool.Capacity (load h l)) c ->
  0 <= Pool.Quantity (load (call p c h) l).
Proof.
  intros [H0 H1] [Hq Hc]. rewrite call_load. case_decide; [|done]. simpl.
  assert (0 <= call_written c (load h l)) as Hq0.
  { destruct c as [r q|r q]; simpl in *; [|done].
    rewrite add_exact; [lia|].
    unfold GoInt.in_range, GoInt.min_int, GoInt.max_int in *. lia. }
  match goal with |- context [?a <? ?b] => destruct (Z.ltb_spec a b) end; lia.
Qed.

(** C2, as the code has it.  Whatever integers are passed, a pool's
    quantity is at most its capacity after any sequence of [Add] and [Set]
    calls, as soon as that held before the calls or one of the calls
    addressed the pool.  The lower bound is conditional: it is preserved
    from a pool with [0 <= quantity <= capacity] by calls that pass
    quantities [q >= 0] with [capacity + q] inside the [int] range. *)
Theorem Add_Set_bounds (p : PoolSet) (l : PoolPtr) (h : Heap) :
  (forall cs,
      Pool.Quantity (load h l) <= Pool.Capacity (load h l) ->
      Pool.Quantity (load (calls p cs h) l) <= Pool.Capacity (load (calls p cs h) l))
  /\ (forall cs1 c cs2,
      PoolSet.find p (call_target c) = Some l ->
      Pool.Quantity (load (calls p (cs1 ++ c :: cs2) h) l)
        <= Pool.Capacity (load (calls p (cs1 ++ c :: cs2) h) l))
  /\ (forall cs,
      0 <= Pool.Quantity (load h l) <= Pool.Capacity (load h l) ->
      Forall (call_growing (Pool.Capacity (load h l))) cs ->
      0 <= Pool.Quantity (load (calls p cs h) l) <= Pool.Capacity (load (calls p cs h) l)).
Proof.
  split; [|split].
  - intros cs. apply calls_upper.
  - intros cs1 c cs2 Hf.
    assert (forall cs h0, calls p (cs ++ c :: cs2) h0 = calls p cs2 (call p c (calls p cs h0)))
      as Happ.
    { induction cs as [|c0 cs IH]; intros h0; simpl; [done|]. apply IH. }
    rewrite Happ. apply calls_upper, call_upper. by right.
  - intros cs. revert h.
    induction cs as [|c cs IH]; intros h H HF; simpl; [done|].
    inversion HF as [|? ? Hc HF']; subst.
    apply IH.
    + split; [by apply call_lower|]. apply call_upper. left. lia.
    + by rewrite call_Capacity.
Qed.

Lemma Add_Set_bounds_witness :
  let h' := calls ore_set [CallAdd (res ironOre) 7; CallSet (res ironOre) 3] (ore_heap 5 10) in
  0 <= Pool.Quantity (load h' 10%nat) <= Pool.Capacity (load h' 10%nat).
Proof.
  apply (Add_Set_bounds ore_set 10%nat (ore_heap 5 10)).
  - vm_compute. split; discriminate.
  - repeat constructor; vm_compute; discriminate.
Defined.

(** C2 as stated fails: a pool holding 0 of 10 is left with -5 by
    [Add(iron_ore, -5)]. *)
Lemma Add_negative_below_zero :
  let h := ore_heap 0 10 in
  let h' := calls ore_set [CallAdd (res ironOre) (-5)] h in
  (0 <= Pool.Quantity (load h 10%nat) <= Pool.Capacity (load h 10%nat))
  /\ Pool.Quantity (load h' 10%nat) = -5
  /\ ~ (0 <= Pool.Quantity (load h' 10%nat) <= Pool.Capacity (load h' 10%nat)).
Proof.
  vm_compute. split; [split; discriminate|]. split; [reflexivity|].
  intros [H _]. apply H. reflexivity.
Qed.

(** ** Add followed by Remove *)

(** C9 as stated fails: a pool holding -1 of 10 takes [Add(iron_ore, 5)]
    without clamping, and the following [Remove(iron_ore, 5)] finds only 4
    and removes nothing. *)
Lemma Add_Remove_negative_start :
  let h := ore_heap (-1) 10 in
  let h1 := fst (PoolSet.Add ore_set (res ironOre) 5 h) in
  let h2 := fst (PoolSet.Remove ore_set (res ironOre) 5 h1) in
  Add_clamped ore_set (res ironOre) 5 h = false
  /\ PoolSet.Quantity ore_set (res ironOre) h = -1
  /\ PoolSet.Quantity ore_set (res ironOre) h2 = 4
  /\ PoolSet.Quantity ore_set (res ironOre) h2 <> PoolSet.Quantity ore_set (res ironOre) h.
Proof. vm_compute. repeat split; discriminate. Qed.

(** C9, as the code has it.  From a quantity that is not negative, an
    [Add] that neither clamps nor overflows followed by a [Remove] of the
    same amount brings the quantity back, and both calls report that
    nothing was left over when the resource has a pool. *)
Theorem Add_Remove_roundtrip (p : PoolSet) (r : ResourcePtr) (q : Z) (h : Heap) :
  0 <= PoolSet.Quantity p r h <= GoInt.max_int ->
  GoInt.in_range (PoolSet.Quantity p r h + q) ->
  Add_clamped p r q h = false ->
  let h1 := fst (PoolSet.Add p r q h) in
  let h2 := fst (PoolSet.Remove p r q h1) in
  PoolSet.Quantity p r h2 = PoolSet.Quantity p r h
  /\ (forall l, PoolSet.find p r = Some l ->
        PoolSet.Quantity p r h1 = PoolSet.Quantity p r h + q
        /\ snd (PoolSet.Add p r q h) = 0 /\ snd (PoolSet.Remove p r q h1) = 0
        /\ load h2 l = load h l).
Proof.
  unfold Add_clamped, PoolSet.Quantity, PoolSet.Add, PoolSet.Remove, PoolSet.clamp.
  destruct (PoolSet.find p r) as [l|] eqn:Hf; simpl.
  - intros Hq Hr Hc. rewrite Hc. simpl. rewrite load_store_eq. simpl.
    rewrite add_exact by done.
    destruct (Z.ltb_spec (Pool.Quantity (load h l) + q) q); [lia|]. simpl.
    rewrite load_store_eq. simpl.
    assert (GoInt.sub (Pool.Quantity (load h l) + q) q = Pool.Quantity (load h l)) as ->.
    { rewrite sub_exact; [lia|].
      unfold GoInt.in_range, GoInt.min_int, GoInt.max_int in *. lia. }
    split; [done|].
    intros l' [= <-]. repeat split.
    rewrite load_store_eq. by destruct (load h l).
  - intros _ _ _. split; [done|]. discriminate.
Qed.

Lemma Add_Remove_roundtrip_witness :
  let h := ore_heap 3 10 in
  let h1 := fst (PoolSet.Add ore_set (res ironOre) 5 h) in
  let h2 := fst (PoolSet.Remove ore_set (res ironOre) 5 h1) in
  PoolSet.Quantity ore_set (res ironOre) h2 = PoolSet.Quantity ore_set (res ironOre) h.
Proof.
  refine (proj1 (Add_Remove_roundtrip ore_set (res ironOre) 5 (ore_heap 3 10) _ _ _)).
  - vm_compute. split; discriminate.
  - vm_compute. split; discriminate.
  - reflexivity.
Defined.

(** ** The round loop *)

Section RoundLoop.

Variable fallback : RulePtr -> Runner.t -> Heap -> outcome.
Variables (rule : Rule.t) (ctx : RuleContext.t).

Lemma rounds_error n b ru h flag e :
  canRun rule ctx h = (flag, Some e) ->
  RunRule_rounds fallback rule ctx (S n) b ru h = Returned ru h (Some e).
Proof. intros H. simpl. rewrite H. by destruct flag. Qed.

Lemma rounds_fallback n ru h f :
  canRun rule ctx h = (false, None) ->
  Rule.OnFail rule = Some f ->
  RunRule_rounds fallback rule ctx (S n) false ru h = fallback f ru h.
Proof. intros H Hf. simpl. by rewrite H, Hf. Qed.

Lemma rounds_stop n b ru h :
  canRun rule ctx h = (false, None) ->
  b = true \/ Rule.OnFail rule = None ->
  RunRule_rounds fallback rule ctx (S n) b ru h = Returned ru h None.
Proof.
  intros H Hb. simpl. rewrite H.
  destruct Hb as [->| ->]; [done|]. by destruct b.
Qed.

Lemma rounds_abort n b ru h h' :
  canRun rule ctx h = (true, None) ->
  RunRule_effects rule ctx h = (h', false) ->
  RunRule_rounds fallback rule ctx (S n) b ru h = Returned ru h' None.
Proof. intros H He. simpl. by rewrite H, He. Qed.

Lemma rounds_next n b ru h h' :
  canRun rule ctx h = (true, None) ->
  RunRule_effects rule ctx h = (h', true) ->
  RunRule_rounds fallback rule ctx (S n) b ru h =
    RunRule_rounds fallback rule ctx n true ru h'.
Proof. intros H He. simpl. by rewrite H, He. Qed.

(** [k] successful rounds take the loop from [k + n] rounds to go down
    to [n]. *)
Lemma rounds_run k n b ru h hk :
  run_rounds rule ctx k h = Some hk ->
  RunRule_rounds fallback rule ctx (k + n) b ru h =
    RunRule_rounds fallback rule ctx n (if k is O then b else true) ru hk.
Proof.
  revert b h. induction k as [|k IH]; intros b h; simpl.
  - by intros [= ->].
  - destruct (canRun rule ctx h) as [[] []]; try done.
    destruct (RunRule_effects rule ctx h) as [h' []]; try done.
    intros Hk. rewrite (IH true h' Hk). by destruct k.
Qed.

(** How the loop can return: from its own body, with the runner
    untouched, or with what the fallback returned, called on the heap
    the loop started from. *)
Lemma rounds_returned n b ru h ru' h' e :
  RunRule_rounds fallback rule ctx n b ru h = Returned ru' h' e ->
  (ru' = ru /\ (e = None \/ exists h0 flag, canRun rule ctx h0 = (flag, e)))
  \/ (b = false /\ canRun rule ctx h = (false, None)
      /\ exists f, Rule.OnFail rule = Some f /\ fallback f ru h = Returned ru' h' e).
Proof.
  revert b h. induction n as [|n IH]; intros b h; simpl.
  - intros [= <- <- <-]. auto.
  - destruct (canRun rule ctx h) as [[] [err|]] eqn:Hc.
    + intros [= <- <- <-]. left. split; [done|]. right. eauto.
    + destruct (RunRule_effects rule ctx h) as [h1 []].
      * intros H. apply IH in H as [H|[? _]]; [by left|done].
      * intros [= <- <- <-]. auto.
    + intros [= <- <- <-]. left. split; [done|]. right. eauto.
    + destruct b; [intros [= <- <- <-]; auto|].
      destruct (Rule.OnFail rule) as [f|] eqn:Hf; [|intros [= <- <- <-]; auto].
      intros H. right. eauto.
Qed.

Lemma rounds_out_of_fuel n b ru h :
  RunRule_rounds fallback rule ctx n b ru h = OutOfFuel ->
  b = false /\ canRun rule ctx h = (false, None)
  /\ exists f, Rule.OnFail rule = Some f /\ fallback f ru h = OutOfFuel.
Proof.
  revert b h. induction n as [|n IH]; intros b h; simpl; [done|].
  destruct (canRun rule ctx h) as [[] [err|]] eqn:Hc; try done.
  - destruct (RunRule_effects rule ctx h) as [h1 []]; [|done].
    intros H. by apply IH in H as [? _].
  - destruct b; [done|].
    destruct (Rule.OnFail rule) as [f|] eqn:Hf; [|done]. eauto.
Qed.

End RoundLoop.

(** Once a round has succeeded the fallback is out of reach. *)
Lemma rounds_once_ext fb1 fb2 rule ctx n ru h :
  RunRule_rounds fb1 rule ctx n true ru h = RunRule_rounds fb2 rule ctx n true ru h.
Proof.
  revert h. induction n as [|n IH]; intros h; simpl; [done|].
  destruct (canRun rule ctx h) as [[] [err|]]; try done.
  destruct (RunRule_effects rule ctx h) as [h1 []]; [|done]. apply IH.
Qed.

(** The loop only consults the fallback on the runner and heap it
    started with. *)
Lemma rounds_ext fb1 fb2 rule ctx n b ru h :
  (forall f, fb1 f ru h = fb2 f ru h) ->
  RunRule_rounds fb1 rule ctx n b ru h = RunRule_rounds fb2 rule ctx n b ru h.
Proof.
  intros Hfb. destruct n as [|n]; simpl; [done|].
  destruct (canRun rule ctx h) as [[] [err|]]; try done.
  - destruct (RunRule_effects rule ctx h) as [h1 []]; [|done]. apply rounds_once_ext.
  - destruct b; [done|]. destruct (Rule.OnFail rule); [|done]. apply Hfb.
Qed.

Lemma rounds_mono fb1 fb2 rule ctx n b ru h ru' h' e :
  (forall f ru1 h1 e1, fb1 f ru h = Returned ru1 h1 e1 -> fb2 f ru h = Returned ru1 h1 e1) ->
  RunRule_rounds fb1 rule ctx n b ru h = Returned ru' h' e ->
  RunRule_rounds fb2 rule ctx n b ru h = Returned ru' h' e.
Proof.
  intros Hfb. destruct n as [|n]; simpl; [done|].
  destruct (canRun rule ctx h) as [[] [err|]]; try done.
  - destruct (RunRule_effects rule ctx h) as [h1 []]; [|done].
    by rewrite (rounds_once_ext fb1 fb2).
  - destruct b; [done|]. destruct (Rule.OnFail rule); [|done]. apply Hfb.
Qed.

(** ** RunRule and Run *)

Section EngineFacts.

Variable rules : RulePtr -> Rule.t.

Lemma deferred_Returned rule tick o ru h e :
  deferred rule tick o = Returned ru h e ->
  exists ru0, o = Returned ru0 h e
    /\ ru = Runner.mk (<[rule := RuleState.mk tick]> (Runner.ruleStates ru0)).
Proof. destruct o as [ru0 h0 e0|]; simpl; [|done]. intros [= <- <- <-]. eauto. Qed.

Lemma RunRule_fuel_unfold fuel ru rule tick ctx h :
  RunRule rules (S fuel) ru rule tick ctx h =
    if throttled rules ru rule tick then Returned ru h None
    else deferred rule tick
           match rounds_of (rules rule) ctx h with
           | None => Returned ru h None
           | Some rounds =>
               RunRule_rounds (fun f ru1 h1 => RunRule rules fuel ru1 f tick ctx h1)
                 (rules rule) ctx (Z.to_nat rounds) false ru h
           end.
Proof. reflexivity. Qed.

(** More fuel does not change what a call returns. *)
Lemma RunRule_fuel_S fuel ru rule tick ctx h ru' h' e :
  RunRule rules fuel ru rule tick ctx h = Returned ru' h' e ->
  RunRule rules (S fuel) ru rule tick ctx h = Returned ru' h' e.
Proof.
  revert ru rule h ru' h' e.
  induction fuel as [|fuel IH]; intros ru rule h ru' h' e; [done|].
  change (RunRule rules (S (S fuel)) ru rule tick ctx h) with
    (if throttled rules ru rule tick then Returned ru h None
     else deferred rule tick
            match rounds_of (rules rule) ctx h with
            | None => Returned ru h None
            | Some rounds =>
                RunRule_rounds (fun f ru1 h1 => RunRule rules (S fuel) ru1 f tick ctx h1)
                  (rules rule) ctx (Z.to_nat rounds) false ru h
            end).
  simpl. destruct (throttled rules ru rule tick); [done|].
  destruct (rounds_of (rules rule) ctx h) as [rounds|]; [|done].
  intros H. apply deferred_Returned in H as (ru0 & H & ->).
  eapply rounds_mono in H; [by rewrite H|].
  intros f ru1 h1 e1. apply IH.
Qed.

Lemma RunRule_fuel_mono fuel k ru rule tick ctx h ru' h' e :
  RunRule rules fuel ru rule tick ctx h = Returned ru' h' e ->
  RunRule rules (fuel + k) ru rule tick ctx h = Returned ru' h' e.
Proof.
  intros H. induction k as [|k IH].
  - by rewrite Nat.add_0_r.
  - rewrite Nat.add_succ_r. by apply RunRule_fuel_S.
Qed.

Lemma Run_fuel_mono fuel k ru rs tick ctx h ru' h' e :
  Run rules fuel ru rs tick ctx h = Returned ru' h' e ->
  Run rules (fuel + k) ru rs tick ctx h = Returned ru' h' e.
Proof.
  revert ru h. induction rs as [|r rs IH]; intros ru h; simpl; [done|].
  destruct (Rule.Period (rules r) =? 0); [apply IH|].
  destruct (RunRule rules fuel ru r tick ctx h) as [ru1 h1 e1|] eqn:Hr; [|done].
  rewrite (RunRule_fuel_mono _ k _ _ _ _ _ _ _ _ Hr).
  destruct e1; [done|]. apply IH.
Qed.

End EngineFacts.

Section Throttle.

Variable rules : RulePtr -> Rule.t.

Lemma throttled_true ru rule tick :
  throttled rules ru rule tick = true <->
  tick < GoInt.add (RuleState.LastRun (ruleState ru rule)) (Rule.Period (rules rule)).
Proof. unfold throttled. apply Z.ltb_lt. Qed.

Lemma RunRule_not_due fuel ru rule tick ctx h :
  throttled rules ru rule tick = true ->
  RunRule rules (S fuel) ru rule tick ctx h = Returned ru h None.
Proof. intros H. simpl. by rewrite H. Qed.

Lemma ruleState_insert ru rule st rule' :
  ruleState (Runner.mk (<[rule := st]> (Runner.ruleStates ru))) rule' =
    if decide (rule = rule') then st else ruleState ru rule'.
Proof.
  unfold ruleState. simpl. case_decide.
  - subst. by rewrite lookup_insert_eq.
  - by rewrite lookup_insert_ne.
Qed.

(** A call that gets past the throttle test leaves [tick] as the rule's
    last run. *)
Lemma RunRule_due_LastRun fuel ru rule tick ctx h ru' h' e :
  throttled rules ru rule tick = false ->
  RunRule rules fuel ru rule tick ctx h = Returned ru' h' e ->
  RuleState.LastRun (ruleState ru' rule) = tick.
Proof.
  destruct fuel as [|fuel]; [done|]. simpl. intros ->.
  intros H. apply deferred_Returned in H as (ru0 & _ & ->).
  rewrite ruleState_insert. by case_decide.
Qed.

(** A rule that is not due at [tick] keeps its state through any call
    made at [tick], whatever rule is called. *)
Lemma RunRule_keeps_throttled fuel a b ru tick ctx h ru' h' e :
  throttled rules ru a tick = true ->
  RunRule rules fuel ru b tick ctx h = Returned ru' h' e ->
  ruleState ru' a = ruleState ru a.
Proof.
  intros Ha. revert b ru h ru' h' e Ha.
  induction fuel as [|fuel IH]; intros b ru h ru' h' e Ha; [done|]. simpl.
  destruct (throttled rules ru b tick) eqn:Hb; [by intros [= <- <- <-]|].
  assert (b <> a) as Hne by (intros ->; congruence).
  intros H. apply deferred_Returned in H as (ru0 & H & ->).
  rewrite ruleState_insert. case_decide; [done|].
  destruct (rounds_of (rules b) ctx h) as [rounds|]; [|by injection H as <-].
  apply rounds_returned in H as [[-> _]|(_ & _ & f & _ & H)]; [done|].
  by apply IH in H.
Qed.

Lemma throttled_ruleState ru ru' rule tick :
  ruleState ru' rule = ruleState ru rule ->
  throttled rules ru' rule tick = throttled rules ru rule tick.
Proof. unfold throttled. by intros ->. Qed.

Lemma Run_keeps_throttled fuel a rs ru tick ctx h ru' h' e :
  throttled rules ru a tick = true ->
  Run rules fuel ru rs tick ctx h = Returned ru' h' e ->
  ruleState ru' a = ruleState ru a.
Proof.
  revert ru h. induction rs as [|r rs IH]; intros ru h Ha; simpl.
  - by intros [= <- <- <-].
  - destruct (Rule.Period (rules r) =? 0); [by apply IH|].
    destruct (RunRule rules fuel ru r tick ctx h) as [ru1 h1 e1|] eqn:Hr; [|done].
    pose proof (RunRule_keeps_throttled _ _ _ _ _ _ _ _ _ _ Ha Hr) as Hk.
    destruct e1; [by intros [= <- <- <-]|].
    intros H. apply IH in H; [congruence|].
    by rewrite (throttled_ruleState ru).
Qed.

(** While a rule is not due, what it says apart from its period has no
    influence on any call: the rule does not fire, neither when called
    nor as a fallback. *)
Lemma RunRule_body_irrelevant (rules' : RulePtr -> Rule.t) a fuel ru b tick ctx h :
  (forall x, x <> a -> rules' x = rules x) ->
  Rule.Period (rules' a) = Rule.Period (rules a) ->
  throttled rules ru a tick = true ->
  RunRule rules' fuel ru b tick ctx h = RunRule rules fuel ru b tick ctx h.
Proof.
  intros Hsame Hperiod Ha. revert b h.
  induction fuel as [|fuel IH]; intros b h; [done|].
  rewrite !RunRule_fuel_unfold.
  assert (throttled rules' ru b tick = throttled rules ru b tick) as ->.
  { unfold throttled. destruct (decide (b = a)) as [->|Hne]; [by rewrite Hperiod|].
    by rewrite Hsame. }
  destruct (throttled rules ru b tick) eqn:Hb; [done|].
  assert (b <> a) as Hne by (intros ->; congruence).
  rewrite (Hsame b Hne). f_equal.
  destruct (rounds_of (rules b) ctx h); [|done].
  apply rounds_ext. intros f. apply IH.
Qed.

(** C5.  A rule that is not due ([lastRun + period > tick], in Go's
    [int64] arithmetic) makes [RunRule] return at once: runner, pools
    and [lastRun] are as before and no error is returned.  A call that
    was due at tick [T] leaves [lastRun = T] when it returns; from then
    on, at every tick [t] below [T + period], in whatever state of the
    pools, a call for the rule does nothing, no call for any rule or
    batch of rules at such a tick changes the rule's [lastRun], and what
    such a call does is independent of everything the rule says apart
    from its period: the rule does not fire, not even as a fallback. *)
Theorem RunRule_throttle (ru : Runner.t) (rule : RulePtr) (tick : Z) :
  (tick < GoInt.add (RuleState.LastRun (ruleState ru rule)) (Rule.Period (rules rule)) ->
   forall fuel ctx h, RunRule rules (S fuel) ru rule tick ctx h = Returned ru h None)
  /\ (GoInt.add (RuleState.LastRun (ruleState ru rule)) (Rule.Period (rules rule)) <= tick ->
      forall fuel ctx h ru1 h1 e1,
        RunRule rules fuel ru rule tick ctx h = Returned ru1 h1 e1 ->
        RuleState.LastRun (ruleState ru1 rule) = tick
        /\ forall ru2 t,
             RuleState.LastRun (ruleState ru2 rule) = tick ->
             t < GoInt.add tick (Rule.Period (rules rule))
             \/ (GoInt.in_range (tick + Rule.Period (rules rule))
                 /\ t < tick + Rule.Period (rules rule)) ->
             (forall fuel' ctx' h2,
                 RunRule rules (S fuel') ru2 rule t ctx' h2 = Returned ru2 h2 None)
             /\ (forall fuel' other ctx' h2 ru3 h3 e3,
                   RunRule rules fuel' ru2 other t ctx' h2 = Returned ru3 h3 e3 ->
                   RuleState.LastRun (ruleState ru3 rule) = tick)
             /\ (forall fuel' batch ctx' h2 ru3 h3 e3,
                   Run rules fuel' ru2 batch t ctx' h2 = Returned ru3 h3 e3 ->
                   RuleState.LastRun (ruleState ru3 rule) = tick)
             /\ (forall (rules' : RulePtr -> Rule.t) fuel' other ctx' h2,
                   (forall x, x <> rule -> rules' x = rules x) ->
                   Rule.Period (rules' rule) = Rule.Period (rules rule) ->
                   RunRule rules' fuel' ru2 other t ctx' h2
                     = RunRule rules fuel' ru2 other t ctx' h2)).
Proof.
  split.
  - intros H fuel ctx h. by apply RunRule_not_due, throttled_true.
  - intros Hdue fuel ctx h ru1 h1 e1 Hrun.
    assert (throttled rules ru rule tick = false) as Hnt.
    { unfold throttled. apply Z.ltb_ge. lia. }
    pose proof (RunRule_due_LastRun _ _ _ _ _ _ _ _ _ Hnt Hrun) as HT.
    split; [done|]. intros ru2 t H2 Ht.
    assert (throttled rules ru2 rule t = true) as Hth.
    { apply throttled_true. rewrite H2.
      destruct Ht as [Ht|[Hr Ht]]; [done|]. by rewrite add_exact. }
    repeat split.
    + intros. by apply RunRule_not_due.
    + intros fuel' other ctx' h2 ru3 h3 e3 H3.
      by rewrite (RunRule_keeps_throttled _ _ _ _ _ _ _ _ _ _ Hth H3).
    + intros fuel' batch ctx' h2 ru3 h3 e3 H3.
      by rewrite (Run_keeps_throttled _ _ _ _ _ _ _ _ _ _ Hth H3).
    + intros rules' fuel' other ctx' h2 Hsame Hperiod.
      by apply RunRule_body_irrelevant with (a := rule).
Qed.

End Throttle.

Section Rounds.

Variable rules : RulePtr -> Rule.t.

Lemma RunRule_due fuel ru rule tick ctx h :
  throttled rules ru rule tick = false ->
  RunRule rules (S fuel) ru rule tick ctx h =
    deferred rule tick
      match rounds_of (rules rule) ctx h with
      | None => Returned ru h None
      | Some rounds =>
          RunRule_rounds (fun f ru' h' => RunRule rules fuel ru' f tick ctx h')
            (rules rule) ctx (Z.to_nat rounds) false ru h
      end.
Proof. intros H. simpl. by rewrite H. Qed.

(** The loop after [k] successful rounds, with rounds left, when
    [canRun] then returns false. *)
Lemma RunRule_stops_after fuel ru rule tick ctx h rounds k hk :
  throttled rules ru rule tick = false ->
  rounds_of (rules rule) ctx h = Some rounds ->
  (k < Z.to_nat rounds)%nat ->
  run_rounds (rules rule) ctx k h = Some hk ->
  canRun (rules rule) ctx hk = (false, None) ->
  (0 < k)%nat \/ Rule.OnFail (rules rule) = None ->
  RunRule rules (S fuel) ru rule tick ctx h = Returned (ran ru rule tick) hk None.
Proof.
  intros Hd Hr Hk Hrun Hc Hor. rewrite RunRule_due, Hr by done.
  replace (Z.to_nat rounds) with (k + S (Z.to_nat rounds - S k))%nat by lia.
  rewrite (rounds_run _ _ _ _ _ _ _ _ _ Hrun).
  rewrite rounds_stop; [done|done|].
  destruct Hor as [Hk0|Hn]; [|by right]. left. destruct k; [lia|done].
Qed.

(** The loop when every one of its rounds succeeds. *)
Lemma RunRule_all_rounds fuel ru rule tick ctx h rounds hn :
  throttled rules ru rule tick = false ->
  rounds_of (rules rule) ctx h = Some rounds ->
  run_rounds (rules rule) ctx (Z.to_nat rounds) h = Some hn ->
  RunRule rules (S fuel) ru rule tick ctx h = Returned (ran ru rule tick) hn None.
Proof.
  intros Hd Hr Hrun. rewrite RunRule_due, Hr by done.
  replace (Z.to_nat rounds) with (Z.to_nat rounds + 0)%nat at 1 by lia.
  by rewrite (rounds_run _ _ _ _ _ _ _ _ _ Hrun).
Qed.

(** C6.  Take a rule that is due and has rounds to run.  When [canRun]
    returns false without error in the first round and the rule has a
    fallback, the call is the call of [RunRule] on the fallback with the
    same tick and context, from the same runner and pools, followed by
    the deferred update of the rule's own [lastRun]: heap and error are
    the fallback's, and no round of the rule is run.  When [canRun]
    returns false after [k] successful rounds with [k > 0], or in the
    first round of a rule without fallback, the call returns nil and the
    pools are those left by the [k] rounds. *)
Theorem RunRule_fallback (fuel : nat) (ru : Runner.t) (rule : RulePtr) (tick : Z)
    (ctx : RuleContext.t) (h : Heap) (rounds : Z) :
  throttled rules ru rule tick = false ->
  rounds_of (rules rule) ctx h = Some rounds ->
  (forall f,
      0 < rounds ->
      canRun (rules rule) ctx h = (false, None) ->
      Rule.OnFail (rules rule) = Some f ->
      RunRule rules (S fuel) ru rule tick ctx h =
        match RunRule rules fuel ru f tick ctx h with
        | Returned ru' h' err => Returned (ran ru' rule tick) h' err
        | OutOfFuel => OutOfFuel
        end)
  /\ (forall k hk,
      (k < Z.to_nat rounds)%nat ->
      run_rounds (rules rule) ctx k h = Some hk ->
      canRun (rules rule) ctx hk = (false, None) ->
      (0 < k)%nat \/ Rule.OnFail (rules rule) = None ->
      RunRule rules (S fuel) ru rule tick ctx h = Returned (ran ru rule tick) hk None).
Proof.
  intros Hd Hr. split.
  - intros f Hpos Hc Hf. rewrite RunRule_due, Hr by done.
    destruct (Z.to_nat rounds) as [|n] eqn:Hn; [lia|].
    rewrite (rounds_fallback _ _ _ _ _ _ f) by done.
    by destruct (RunRule rules fuel ru f tick ctx h).
  - intros k hk. by apply RunRule_stops_after.
Qed.

(** C7.  For a rule that is due: a dynamic repeat source whose relation
    is not in the context makes the call return nil with the pools
    untouched; otherwise the number of rounds of the loop is the quantity
    the pool set of that relation holds under the source resource, 0 when
    it holds no pool for it (for a resource that is not nil this is what
    [Quantity] returns), whatever the fixed repeat says, and the fixed
    repeat plus one when there is no source; a call in which every round
    succeeds performs exactly that many rounds, 13 for a fixed repeat of
    12. *)
Theorem RunRule_round_count (fuel : nat) (ru : Runner.t) (rule : RulePtr) (tick : Z)
    (ctx : RuleContext.t) (h : Heap) :
  throttled rules ru rule tick = false ->
  (forall src,
      Rule.RepeatFrom (rules rule) = Some src ->
      RuleContext.Pools ctx !! ResourceSource.Relation src = None ->
      RunRule rules (S fuel) ru rule tick ctx h = Returned (ran ru rule tick) h None)
  /\ (forall src poolset,
      Rule.RepeatFrom (rules rule) = Some src ->
      RuleContext.Pools ctx !! ResourceSource.Relation src = Some poolset ->
      rounds_of (rules rule) ctx h = Some (held poolset (ResourceSource.Resource src) h)
      /\ (ResourceSource.Resource src <> None ->
          held poolset (ResourceSource.Resource src) h
            = PoolSet.Quantity poolset (ResourceSource.Resource src) h))
  /\ (Rule.RepeatFrom (rules rule) = None ->
      rounds_of (rules rule) ctx h = Some (GoInt.add (Rule.Repeat (rules rule)) 1))
  /\ (forall rounds hn,
      rounds_of (rules rule) ctx h = Some rounds ->
      run_rounds (rules rule) ctx (Z.to_nat rounds) h = Some hn ->
      RunRule rules (S fuel) ru rule tick ctx h = Returned (ran ru rule tick) hn None)
  /\ (forall h13,
      Rule.RepeatFrom (rules rule) = None ->
      Rule.Repeat (rules rule) = 12 ->
      run_rounds (rules rule) ctx 13 h = Some h13 ->
      RunRule rules (S fuel) ru rule tick ctx h = Returned (ran ru rule tick) h13 None).
Proof.
  intros Hd. split; [|split; [|split; [|split]]].
  - intros src Hs Hrel. rewrite RunRule_due by done.
    unfold rounds_of. by rewrite Hs, Hrel.
  - intros src poolset Hs Hrel. split.
    + unfold rounds_of, held. rewrite Hs, Hrel.
      by destruct (PoolSet.index poolset (ResourceSource.Resource src)).
    + intros Hres. unfold held, PoolSet.Quantity, PoolSet.find, PoolSet.index.
      destruct poolset as [m|]; [|done].
      by destruct (ResourceSource.Resource src).
  - intros Hs. unfold rounds_of. by rewrite Hs.
  - intros rounds hn. by apply RunRule_all_rounds.
  - intros h13 Hs H12 Hrun. apply (RunRule_all_rounds _ _ _ _ _ _ 13); [done| |done].
    unfold rounds_of. by rewrite Hs, H12.
Qed.

End Rounds.

(** ** Termination *)

Section Termination.

Variable rules : RulePtr -> Rule.t.

Lemma chain_ends_returns n r ru tick ctx h :
  chain_ends rules n r = true ->
  exists ru' h' e, RunRule rules (S n) ru r tick ctx h = Returned ru' h' e.
Proof.
  revert r ru h. induction n as [|n IH]; intros r ru h Hend.
  - simpl in Hend. simpl. destruct (throttled rules ru r tick); [eauto|].
    destruct (rounds_of (rules r) ctx h) as [rounds|]; [|simpl; eauto].
    destruct (RunRule_rounds (fun _ _ _ => OutOfFuel) (rules r) ctx (Z.to_nat rounds)
                false ru h) as [ru1 h1 e1|] eqn:Hr; [simpl; eauto|].
    apply rounds_out_of_fuel in Hr as (_ & _ & f & Hf & _).
    rewrite Hf in Hend. done.
  - rewrite RunRule_fuel_unfold. destruct (throttled rules ru r tick); [eauto|].
    destruct (rounds_of (rules r) ctx h) as [rounds|]; [|simpl; eauto].
    destruct (RunRule_rounds (fun f ru' h' => RunRule rules (S n) ru' f tick ctx h')
                (rules r) ctx (Z.to_nat rounds) false ru h) as [ru1 h1 e1|] eqn:Hr;
      [simpl; eauto|].
    apply rounds_out_of_fuel in Hr as (_ & _ & f & Hf & Hr).
    simpl in Hend. rewrite Hf in Hend.
    destruct (IH f ru h Hend) as (ru' & h' & e & H). congruence.
Qed.

Lemma chain_at_S n r f :
  Rule.OnFail (rules r) = Some f -> chain_at rules (S n) r = chain_at rules n f.
Proof. intros H. simpl. by rewrite H. Qed.

Lemma chain_ends_false n r :
  chain_ends rules n r = false ->
  forall i, (i <= S n)%nat -> is_Some (chain_at rules i r).
Proof.
  revert r. induction n as [|n IH]; intros r; simpl;
    destruct (Rule.OnFail (rules r)) as [f|] eqn:Hf; try done.
  - intros _ [|[|i]] Hi; simpl; rewrite ?Hf; eauto. lia.
  - intros Hend [|i] Hi; [by eexists|].
    rewrite (chain_at_S _ _ f) by done. apply IH; [done|lia].
Qed.

(** Among finitely many rules a chain without repetition ends. *)
Lemma acyclic_chain_ends N r :
  acyclic rules r -> chain_below rules N r -> chain_ends rules N r = true.
Proof.
  intros Hac Hbelow. destruct (chain_ends rules N r) eqn:Hend; [done|exfalso].
  pose proof (chain_ends_false _ _ Hend) as Hsome.
  destruct (nat_pigeonhole (fun i => default O (chain_at rules i r)) (S N) N)
    as (i1 & i2 & Hi & Heq); [lia| |].
  - intros i Hi. destruct (Hsome i) as [x Hx]; [lia|].
    rewrite Hx. simpl. by eapply Hbelow.
  - destruct (Hsome i1) as [x1 H1]; [lia|]. destruct (Hsome i2) as [x2 H2]; [lia|].
    rewrite H1, H2 in Heq. simpl in Heq. subst x2.
    pose proof (Hac _ _ _ H1 H2). lia.
Qed.

(** A set of rules closed under [OnFail], all of which fail their first
    round in the present state, is never left. *)
Lemma closed_set_diverges (P : RulePtr -> Prop) ru tick ctx h :
  (forall x, P x ->
     first_round_fails rules ru tick ctx h x
     /\ exists f, Rule.OnFail (rules x) = Some f /\ P f) ->
  forall fuel r, P r -> RunRule rules fuel ru r tick ctx h = OutOfFuel.
Proof.
  intros Hclosed. induction fuel as [|fuel IH]; intros r Hr; [done|].
  destruct (Hclosed r Hr) as ((Hd & (rounds & Hrounds & Hpos) & Hc) & f & Hf & HPf).
  rewrite RunRule_due, Hrounds by done.
  destruct (Z.to_nat rounds) as [|n] eqn:Hn; [lia|].
  rewrite (rounds_fallback _ _ _ _ _ _ f) by done.
  by rewrite IH.
Qed.

End Termination.

(** The rules on a chain through a table read from a list are the rule
    the chain starts at and fallbacks named in the list: finitely many. *)
Lemma table_chain_elem rs i r x :
  chain_at (RuleParser.table rs) i r = Some x ->
  x = r \/ x ∈ omap Rule.OnFail rs.
Proof.
  revert r. induction i as [|i IH]; intros r; simpl; [intros [= ->]; by left|].
  destruct (Rule.OnFail (RuleParser.table rs r)) as [f|] eqn:Hf; [|done].
  intros Hx. right. apply IH in Hx as [->|Hx]; [|done].
  unfold RuleParser.table in Hf. destruct (rs !! r) as [rule|] eqn:Hr; [|done].
  apply list_elem_of_omap. exists rule. split; [|done].
  by eapply list_elem_of_lookup_2.
Qed.

Lemma table_chain_below rs r :
  chain_below (RuleParser.table rs) (S (r `max` max_list (omap Rule.OnFail rs))) r.
Proof.
  intros i x Hx. apply table_chain_elem in Hx as [->|Hx]; [lia|].
  apply max_list_elem_of_le in Hx. lia.
Qed.

(** C10.  [RunRule] returns for every rule whose chain of [OnFail]
    references has no repetition, on every runner, tick, context and
    heap: in every table of rules read from a list, and in any table as
    soon as the rules on the chain are finitely many.  Without that it need not: the parser
    accepts a rule that names itself as fallback and rules that name each
    other, and from a state in which every rule of a set closed under
    [OnFail] is due and fails [canRun] in its first round, no depth of
    calls is enough for [RunRule] to return, because [lastRun] is written
    only when a call returns. *)
Theorem RunRule_terminates_iff_acyclic :
  (forall rs r,
      acyclic (RuleParser.table rs) r ->
      forall ru tick ctx h, exists fuel ru' h' e,
        forall k, RunRule (RuleParser.table rs) (fuel + k) ru r tick ctx h
                  = Returned ru' h' e)
  /\ (forall rules N r,
        acyclic rules r -> chain_below rules N r ->
        forall ru tick ctx h, exists ru' h' e,
          forall k, RunRule rules (S N + k) ru r tick ctx h = Returned ru' h' e)
  /\ RuleParser.ParseText test_parser text_self_onfail = inr [rule_self_onfail]
  /\ RuleParser.ParseText test_parser text_cycle
       = inr [rule_cycle "a" 1%nat; rule_cycle "b" 0%nat]
  /\ (forall rules (P : RulePtr -> Prop) ru tick ctx h,
        (forall x, P x ->
           first_round_fails rules ru tick ctx h x
           /\ exists f, Rule.OnFail (rules x) = Some f /\ P f) ->
        forall r, P r -> forall fuel, RunRule rules fuel ru r tick ctx h = OutOfFuel)
  /\ (forall rules r ru tick ctx h,
        Rule.OnFail (rules r) = Some r ->
        first_round_fails rules ru tick ctx h r ->
        forall fuel, RunRule rules fuel ru r tick ctx h = OutOfFuel)
  /\ (forall fuel,
        RunRule (RuleParser.table [rule_self_onfail]) fuel NewRunner 0%nat 1
          self_ctx (self_heap 0 0) = OutOfFuel).
Proof.
  assert (forall rules r ru tick ctx h,
        Rule.OnFail (rules r) = Some r ->
        first_round_fails rules ru tick ctx h r ->
        forall fuel, RunRule rules fuel ru r tick ctx h = OutOfFuel) as Hself.
  { intros rules r ru tick ctx h Hf Hfail fuel.
    apply (closed_set_diverges rules (fun x => x = r)); [|done].
    intros x ->. eauto. }
  assert (forall rules N r,
        acyclic rules r -> chain_below rules N r ->
        forall ru tick ctx h, exists ru' h' e,
          forall k, RunRule rules (S N + k) ru r tick ctx h = Returned ru' h' e) as Hfin.
  { intros rules N r Hac Hbelow ru tick ctx h.
    destruct (chain_ends_returns rules N r ru tick ctx h) as (ru' & h' & e & H).
    { by apply acyclic_chain_ends. }
    exists ru', h', e. intros k. by apply RunRule_fuel_mono. }
  split; [|split; [|split; [|split; [|split; [|split]]]]].
  - intros rs r Hac ru tick ctx h.
    destruct (Hfin _ _ r Hac (table_chain_below rs r) ru tick ctx h) as (ru' & h' & e & H).
    eauto.
  - exact Hfin.
  - vm_compute. reflexivity.
  - vm_compute. reflexivity.
  - intros rules P ru tick ctx h Hclosed r Hr fuel.
    by apply (closed_set_diverges rules P).
  - exact Hself.
  - apply Hself; [reflexivity|].
    split; [vm_compute; reflexivity|].
    split; [exists 1; split; [vm_compute; reflexivity|lia]|].
    vm_compute. reflexivity.
Qed.

(** ** The parser on the specification's scenario *)

(** C8.  With a catalog that knows iron_ore and iron, the text
    [rule test / if global iron_ore > 6 / in global iron_ore 3 /
    out self iron 1 / end] parses to exactly one rule, named test, with
    the precondition (global, iron_ore, >, 6), the input
    (global, iron_ore, 3), the output (self, iron, 1), no sets, and
    period 1. *)
Theorem Parse_preconditioned (p : RuleParser.t) (ore fe : ResourcePtr) :
  RuleParser.rm p !! "iron_ore" = Some ore ->
  RuleParser.rm p !! "iron" = Some fe ->
  RuleParser.ParseText p text_preconditioned
    = inr [ Rule.mk "test" 1
              [ResourceCondition.mk (ResourceSpecifier.mk RelationGlobal ore 6) OpGreaterThan]
              [ResourceSpecifier.mk RelationGlobal ore 3]
              [ResourceSpecifier.mk RelationSelf fe 1]
              [] false 0 None None ].
Proof.
  intros Hore Hfe. unfold RuleParser.ParseText.
  replace (loon.scan text_preconditioned) with
    ([loon.Object.mk "rule" "test" 1
        [loon.Directive.mk "if" ["global"; "iron_ore"; ">"; "6"] "global iron_ore > 6" 2;
         loon.Directive.mk "in" ["global"; "iron_ore"; "3"] "global iron_ore 3" 3;
         loon.Directive.mk "out" ["self"; "iron"; "1"] "self iron 1" 4]],
     @None loon.scan_error)
    by (vm_compute; reflexivity).
  unfold RuleParser.Parse, fst, snd, RuleParser.objects, RuleParser.directives.
  lazy -[lookup insert RuleParser.resolve RuleParser.rm String.eq_dec String.countable gmap_lookup]. rewrite Hore.
  lazy -[lookup insert RuleParser.resolve RuleParser.rm String.eq_dec String.countable gmap_lookup]. rewrite Hfe.
  reflexivity.
Qed.

Lemma Parse_preconditioned_witness :
  exists r,
    RuleParser.ParseText test_parser text_preconditioned = inr [r]
    /\ Rule.Name r = "test" /\ Rule.Period r = 1
    /\ length (Rule.Preconditions r) = 1%nat
    /\ length (Rule.Inputs r) = 1%nat
    /\ length (Rule.Outputs r) = 1%nat.
Proof.
  eexists. split.
  - apply (Parse_preconditioned test_parser (res ironOre) (res iron)); reflexivity.
  - repeat split.
Defined.

(** ** canRun *)

Lemma compare_None op q target : compare op q target = None -> ~ known_op op.
Proof.
  unfold compare, known_op, OpEquals, OpGreaterThan, OpGreaterThanOrEqual, OpLessThan,
    OpLessThanOrEqual.
  repeat (match goal with |- context [?a =? ?b] => destruct (Z.eqb_spec a b) end; [done|]).
  lia.
Qed.

Lemma canRun_preconditions_error name ctx h cs flag e :
  canRun_preconditions name ctx h cs = (flag, Some e) ->
  flag = false
  /\ ((exists c, c ∈ cs /\ RuleContext.Pools ctx !! ResourceCondition.Relation c = None
         /\ e = ErrNoPreconditionPoolset name (ResourceCondition.Relation c))
      \/ (exists c, c ∈ cs /\ ~ known_op (ResourceCondition.Op c)
         /\ e = ErrUnknownOperation name (ResourceCondition.Op c))).
Proof.
  induction cs as [|c cs IH]; simpl; [done|].
  destruct (RuleContext.Pools ctx !! ResourceCondition.Relation c) as [ps|] eqn:Hrel.
  - destruct (compare _ _ _) as [[]|] eqn:Hcmp.
    + intros Hrest. destruct (IH Hrest) as (-> & [(c' & Hin & Hc')|(c' & Hin & Hc')]);
        (split; [done|]); [left|right]; exists c'; rewrite elem_of_cons; auto.
    + done.
    + intros [= <- <-]. split; [done|]. right. exists c.
      rewrite elem_of_cons. eauto using compare_None.
  - intros [= <- <-]. split; [done|]. left. exists c. rewrite elem_of_cons. auto.
Qed.

Lemma canRun_inputs_error name ctx h ins flag e :
  canRun_inputs name ctx h ins = (flag, Some e) ->
  flag = false
  /\ exists i, i ∈ ins /\ RuleContext.Pools ctx !! ResourceSpecifier.Relation i = None
       /\ e = ErrNoInputPoolset name (ResourceSpecifier.Relation i).
Proof.
  induction ins as [|i ins IH]; simpl; [done|].
  destruct (RuleContext.Pools ctx !! ResourceSpecifier.Relation i) as [ps|] eqn:Hrel.
  - destruct (_ <? _); [done|].
    intros Hrest. destruct (IH Hrest) as (-> & i' & Hin & Hi'). split; [done|].
    exists i'. rewrite elem_of_cons. auto.
  - intros [= <- <-]. split; [done|]. exists i. rewrite elem_of_cons. auto.
Qed.

(** The errors of [canRun] are the hard errors, and come with false. *)
Lemma canRun_error rule ctx h flag e :
  canRun rule ctx h = (flag, Some e) -> flag = false /\ hard_error rule ctx e.
Proof.
  unfold canRun, hard_error.
  destruct (canRun_preconditions _ ctx h _) as [[] [e'|]] eqn:Hp.
  - by apply canRun_preconditions_error in Hp as [? _].
  - intros H. apply canRun_inputs_error in H as [-> ?]. auto.
  - intros [= <- <-]. apply canRun_preconditions_error in Hp as [_ [?|?]]; auto.
  - done.
Qed.

(** A true answer of [canRun] means every input found its relation and
    enough of its resource. *)
Lemma canRun_inputs_true name ctx h ins :
  canRun_inputs name ctx h ins = (true, None) ->
  Forall (fun i =>
            is_Some (RuleContext.Pools ctx !! ResourceSpecifier.Relation i)
            /\ ResourceSpecifier.Quantity i <= input_available ctx h i) ins.
Proof.
  induction ins as [|i ins IH]; simpl; [by constructor|].
  destruct (RuleContext.Pools ctx !! ResourceSpecifier.Relation i) as [ps|] eqn:Hrel; [|done].
  destruct (Z.ltb_spec (PoolSet.Quantity ps (ResourceSpecifier.Resource i) h)
              (ResourceSpecifier.Quantity i)) as [Hlt|Hge]; [done|].
  intros Hrest. constructor; [|by apply IH].
  unfold input_available. rewrite Hrel. eauto.
Qed.

Lemma canRun_true rule ctx h :
  canRun rule ctx h = (true, None) ->
  Forall (fun i =>
            is_Some (RuleContext.Pools ctx !! ResourceSpecifier.Relation i)
            /\ ResourceSpecifier.Quantity i <= input_available ctx h i) (Rule.Inputs rule).
Proof.
  unfold canRun.
  destruct (canRun_preconditions _ ctx h _) as [[] [e'|]]; try done.
  apply canRun_inputs_true.
Qed.

(** ** The effect loops *)

(** What [Remove] reports: nothing left over, or everything, and then
    the heap is as it was and the quantity it found was too small. *)
Lemma Remove_result p r q (h : Heap) :
  snd (PoolSet.Remove p r q h) = 0
  \/ (PoolSet.Remove p r q h = (h, q)
      /\ (PoolSet.find p r = None \/ PoolSet.Quantity p r h < q)).
Proof.
  unfold PoolSet.Remove, PoolSet.Quantity.
  destruct (PoolSet.find p r) as [l|]; [|auto].
  destruct (Z.ltb_spec (Pool.Quantity (load h l)) q); auto.
Qed.

Lemma removals_app ctx pre post h :
  removals ctx (pre ++ post) h = removals ctx post (removals ctx pre h).
Proof. apply fold_left_app. Qed.

(** The input loop that runs to its end has made every removal, none of
    which reported an excess. *)
Lemma inputs_done ctx ins h h' :
  RunRule_inputs ctx ins h = (h', true) ->
  h' = removals ctx ins h
  /\ forall pre i post, ins = pre ++ i :: post ->
       is_Some (RuleContext.Pools ctx !! ResourceSpecifier.Relation i)
       /\ input_excess ctx (removals ctx pre h) i <= 0.
Proof.
  revert h. induction ins as [|i ins IH]; intros h; simpl.
  - intros [= <-]. split; [done|]. by intros [|??] ??.
  - destruct (RuleContext.Pools ctx !! ResourceSpecifier.Relation i) as [ps|] eqn:Hrel; [|done].
    destruct (PoolSet.Remove ps _ _ h) as [h1 excess] eqn:Hrem.
    destruct (Z.ltb_spec 0 excess) as [Hpos|Hle]; [done|].
    intros Hrest. apply IH in Hrest as [-> Hall].
    assert (remove_input ctx h i = h1) as Hh1.
    { unfold remove_input. by rewrite Hrel, Hrem. }
    split; [unfold removals; simpl; by rewrite Hh1|].
    intros [|i0 pre] i' post Heq; simplify_eq/=.
    + rewrite Hrel. split; [eauto|]. unfold input_excess. rewrite Hrel, Hrem. done.
    + by eapply Hall.
Qed.

(** The input loop that returns early has made the removals before the
    input it stopped at, and only those. *)
Lemma inputs_aborted ctx ins h h' :
  RunRule_inputs ctx ins h = (h', false) ->
  exists pre i post,
    ins = pre ++ i :: post
    /\ RunRule_inputs ctx pre h = (h', true)
    /\ h' = removals ctx pre h
    /\ (relation_absent ctx i
        \/ exists ps, RuleContext.Pools ctx !! ResourceSpecifier.Relation i = Some ps
             /\ 0 < ResourceSpecifier.Quantity i
             /\ PoolSet.Remove ps (ResourceSpecifier.Resource i)
                  (ResourceSpecifier.Quantity i) h' = (h', ResourceSpecifier.Quantity i)
             /\ (PoolSet.find ps (ResourceSpecifier.Resource i) = None
                 \/ PoolSet.Quantity ps (ResourceSpecifier.Resource i) h'
                      < ResourceSpecifier.Quantity i)).
Proof.
  revert h. induction ins as [|i ins IH]; intros h; simpl; [done|].
  destruct (RuleContext.Pools ctx !! ResourceSpecifier.Relation i) as [ps|] eqn:Hrel.
  - destruct (PoolSet.Remove ps _ _ h) as [h1 excess] eqn:Hrem.
    destruct (Z.ltb_spec 0 excess) as [Hpos|Hle].
    + intros [= <-].
      destruct (Remove_result ps (ResourceSpecifier.Resource i)
                  (ResourceSpecifier.Quantity i) h) as [H0|[Hq Hwhy]];
        rewrite Hrem in *; simpl in *; [lia|].
      injection Hq as -> ->. exists [], i, ins.
      split; [done|]. split; [done|]. split; [done|]. right. exists ps. auto.
    + intros Hrest. apply IH in Hrest as (pre & i' & post & -> & Hpre & -> & Hwhy).
      assert (remove_input ctx h i = h1) as Hh1.
      { unfold remove_input. by rewrite Hrel, Hrem. }
      exists (i :: pre), i', post. simpl. rewrite Hrel, Hrem.
      destruct (Z.ltb_spec 0 excess) as [Hpos|_]; [lia|].
      unfold removals in *. simpl. rewrite Hh1. auto.
  - intros [= <-]. exists [], i, ins.
    split; [done|]. split; [done|]. split; [done|]. by left.
Qed.

Lemma remove_input_load ctx (h : Heap) i l' :
  input_pool ctx i <> Some l' -> load (remove_input ctx h i) l' = load h l'.
Proof.
  unfold input_pool, remove_input, PoolSet.Remove.
  destruct (RuleContext.Pools ctx !! ResourceSpecifier.Relation i) as [ps|]; [|done].
  destruct (PoolSet.find ps (ResourceSpecifier.Resource i)) as [l|]; [|done].
  intros Hne. destruct (_ <? _); [done|]. simpl.
  apply load_store_ne. congruence.
Qed.

Lemma input_available_load ctx (h h' : Heap) j :
  (forall l', input_pool ctx j = Some l' -> load h' l' = load h l') ->
  input_available ctx h' j = input_available ctx h j.
Proof.
  unfold input_pool, input_available, PoolSet.Quantity.
  destruct (RuleContext.Pools ctx !! ResourceSpecifier.Relation j) as [ps|]; [|done].
  destruct (PoolSet.find ps (ResourceSpecifier.Resource j)) as [l|]; [|done].
  intros Hload. by rewrite Hload.
Qed.

(** Inputs that address pairwise distinct pools are all removed once
    [canRun] has found enough for each of them. *)
Lemma inputs_distinct ctx ins (h : Heap) :
  Forall (fun i =>
            is_Some (RuleContext.Pools ctx !! ResourceSpecifier.Relation i)
            /\ ResourceSpecifier.Quantity i <= input_available ctx h i) ins ->
  NoDup (omap (input_pool ctx) ins) ->
  RunRule_inputs ctx ins h = (removals ctx ins h, true).
Proof.
  revert h. induction ins as [|i ins IH]; intros h Hall Hnd; [done|].
  apply Forall_cons in Hall as [[[ps Hrel] Hq] Hall].
  assert (snd (PoolSet.Remove ps (ResourceSpecifier.Resource i)
                 (ResourceSpecifier.Quantity i) h) <= 0) as Hex.
  { destruct (Remove_result ps (ResourceSpecifier.Resource i)
                (ResourceSpecifier.Quantity i) h) as [->|[-> Hwhy]]; [done|]. simpl.
    unfold input_available, PoolSet.Quantity in *. rewrite Hrel in Hq.
    destruct Hwhy as [Hnone|Hlt]; [|lia]. by rewrite Hnone in Hq. }
  assert (remove_input ctx h i
          = fst (PoolSet.Remove ps (ResourceSpecifier.Resource i)
                   (ResourceSpecifier.Quantity i) h)) as Hh1.
  { unfold remove_input. by rewrite Hrel. }
  simpl. rewrite Hrel.
  destruct (PoolSet.Remove ps _ _ h) as [h1 excess] eqn:Hrem. simpl in *.
  destruct (Z.ltb_spec 0 excess) as [Hpos|_]; [lia|].
  unfold removals. simpl. rewrite Hh1. apply IH.
  - rewrite Forall_forall in Hall. apply Forall_forall. intros j Hj.
    destruct (Hall j Hj) as [Hrelj Hqj]. split; [done|].
    rewrite <- Hh1. rewrite (input_available_load ctx h _ j); [done|].
    intros l' Hl'. apply remove_input_load.
    simpl in Hnd. destruct (input_pool ctx i) as [l|] eqn:Hi; [|done].
    apply NoDup_cons in Hnd as [Hnotin _]. intros [= ->].
    apply Hnotin, list_elem_of_omap. eauto.
  - simpl in Hnd. destruct (input_pool ctx i); [|done].
    by apply NoDup_cons in Hnd as [_ ?].
Qed.

(** C3, as the code has it.  In a round in which [canRun] succeeded the
    inputs are removed one after the other, and every removal succeeds
    when the inputs address pairwise distinct pools.  In general either
    every removal succeeds; or the first removal that reports an excess
    ends the call with nil: no output and no set of that round is
    applied, and the pools are left as the removals for the inputs before
    it made them.  The failing input then finds less than [canRun] saw,
    which the earlier removals of the same round have taken. *)
Theorem RunRule_round_inputs
    (fallback : RulePtr -> Runner.t -> Heap -> outcome) (rule : Rule.t)
    (ctx : RuleContext.t) (n : nat) (runOnce : bool) (ru : Runner.t) (h h1 : Heap)
    (ok : bool) :
  canRun rule ctx h = (true, None) ->
  RunRule_inputs ctx (Rule.Inputs rule) h = (h1, ok) ->
  (NoDup (omap (input_pool ctx) (Rule.Inputs rule)) -> ok = true)
  /\ if ok then
       h1 = removals ctx (Rule.Inputs rule) h
       /\ forall pre i post, Rule.Inputs rule = pre ++ i :: post ->
            input_excess ctx (removals ctx pre h) i <= 0
     else
       exists pre i post,
         Rule.Inputs rule = pre ++ i :: post
         /\ h1 = removals ctx pre h
         /\ (forall pre' j post', pre = pre' ++ j :: post' ->
               input_excess ctx (removals ctx pre' h) j <= 0)
         /\ 0 < input_excess ctx h1 i
         /\ input_available ctx h1 i < ResourceSpecifier.Quantity i
              <= input_available ctx h i
         /\ RunRule_effects rule ctx h = (h1, false)
         /\ RunRule_rounds fallback rule ctx (S n) runOnce ru h = Returned ru h1 None.
Proof.
  intros Hcan Hin. split.
  { intros Hnd. pose proof (canRun_true _ _ _ Hcan) as Hok.
    rewrite (inputs_distinct _ _ _ Hok Hnd) in Hin. congruence. }
  destruct ok.
  - apply inputs_done in Hin as [-> Hall]. split; [done|].
    intros pre i post Heq. by eapply Hall.
  - assert (RunRule_effects rule ctx h = (h1, false)) as Heff.
    { unfold RunRule_effects. by rewrite Hin. }
    pose proof (canRun_true _ _ _ Hcan) as Hok.
    apply inputs_aborted in Hin as (pre & i & post & Heq & Hpre & -> & Hwhy).
    exists pre, i, post.
    assert (is_Some (RuleContext.Pools ctx !! ResourceSpecifier.Relation i)
            /\ ResourceSpecifier.Quantity i <= input_available ctx h i) as [Hrel Hav].
    { rewrite Forall_forall in Hok. apply Hok. rewrite Heq.
      rewrite elem_of_app, elem_of_cons. auto. }
    destruct Hwhy as [Habs|(ps & Hps & Hpos & Hrem & Hless)].
    { unfold relation_absent in Habs. rewrite Habs in Hrel. by destruct Hrel. }
    assert (input_available ctx (removals ctx pre h) i < ResourceSpecifier.Quantity i)
      as Hlt.
    { unfold input_available in *. rewrite Hps in *.
      destruct Hless as [Hnone|Hlt]; [|done].
      unfold PoolSet.Quantity in *. rewrite Hnone in *. lia. }
    split; [done|]. split; [done|]. split.
    { intros pre' j post' Heq'. by eapply (inputs_done _ _ _ _ Hpre). }
    split. { unfold input_excess. rewrite Hps, Hrem. done. }
    split; [done|]. split; [done|]. by apply rounds_abort.
Qed.

Lemma RunRule_round_inputs_witness :
  exists pre i post,
    Rule.Inputs rule_twice = pre ++ i :: post
    /\ self_heap 2 0 = removals self_ctx pre (self_heap 5 0)
    /\ RunRule_rounds (fun _ ru h => Returned ru h None) rule_twice self_ctx 1 false
         NewRunner (self_heap 5 0) = Returned NewRunner (self_heap 2 0) None.
Proof.
  destruct (RunRule_round_inputs (fun _ ru h => Returned ru h None) rule_twice
              self_ctx 0 false NewRunner (self_heap 5 0) (self_heap 2 0) false)
    as (_ & pre & i & post & H1 & H2 & _ & _ & _ & _ & H3).
  - reflexivity.
  - vm_compute. reflexivity.
  - exists pre, i, post. auto.
Defined.

(** C3 as stated fails: with 5 iron ore, a rule with two inputs of 3 iron
    ore passes [canRun], removes 3 for the first input, fails on the
    second, and returns nil with 2 iron ore left and no iron made. *)
Lemma RunRule_partial_inputs :
  let h := self_heap 5 0 in
  canRun rule_twice self_ctx h = (true, None)
  /\ RunRule_inputs self_ctx (Rule.Inputs rule_twice) h = (self_heap 2 0, false)
  /\ RunRule (fun _ => rule_twice) 1 NewRunner 0%nat 1 self_ctx h
       = Returned (ran NewRunner 0%nat 1) (self_heap 2 0) None
  /\ PoolSet.Quantity self_set (res ironOre) h = 5
  /\ PoolSet.Quantity self_set (res ironOre) (self_heap 2 0) = 2
  /\ self_heap 2 0 <> h.
Proof.
  repeat split; try (vm_compute; reflexivity).
  intros H. apply (f_equal (PoolSet.Quantity self_set (res ironOre))) in H.
  vm_compute in H. discriminate.
Qed.

Lemma outputs_absent ctx outs h :
  (exists o, o ∈ outs /\ relation_absent ctx o) ->
  snd (RunRule_outputs ctx outs h) = false.
Proof.
  revert h. induction outs as [|o outs IH]; intros h (x & Hin & Habs).
  - by apply elem_of_nil in Hin.
  - simpl. destruct (RuleContext.Pools ctx !! ResourceSpecifier.Relation o) eqn:Hrel; [|done].
    apply IH. apply elem_of_cons in Hin as [->|Hin]; [|eauto].
    unfold relation_absent in Habs. congruence.
Qed.

Lemma sets_absent ctx sets h :
  (exists s, s ∈ sets /\ relation_absent ctx s) ->
  snd (RunRule_sets ctx sets h) = false.
Proof.
  revert h. induction sets as [|s sets IH]; intros h (x & Hin & Habs).
  - by apply elem_of_nil in Hin.
  - simpl. destruct (RuleContext.Pools ctx !! ResourceSpecifier.Relation s) eqn:Hrel; [|done].
    apply IH. apply elem_of_cons in Hin as [->|Hin]; [|eauto].
    unfold relation_absent in Habs. congruence.
Qed.

(** A round whose outputs or sets name a relation the context lacks does
    not run to its end. *)
Lemma effects_absent rule ctx h :
  (exists s, (s ∈ Rule.Outputs rule \/ s ∈ Rule.Sets rule) /\ relation_absent ctx s) ->
  snd (RunRule_effects rule ctx h) = false.
Proof.
  intros (s & Hin & Habs). unfold RunRule_effects.
  destruct (RunRule_inputs ctx (Rule.Inputs rule) h) as [h1 []]; [|done].
  destruct (RunRule_outputs ctx (Rule.Outputs rule) h1) as [h2 ok2] eqn:Hout.
  destruct Hin as [Hin|Hin].
  - assert (ok2 = false) as ->; [|done].
    change ok2 with (snd (h2, ok2)). rewrite <- Hout. apply outputs_absent. eauto.
  - destruct ok2; [|done]. apply sets_absent. eauto.
Qed.

Section Batch.

Variable rules : RulePtr -> Rule.t.

(** An error returned by [RunRule] is a hard error of the rule or of a
    rule on its chain of fallbacks. *)
Lemma RunRule_error fuel ru r tick ctx h ru' h' e :
  RunRule rules fuel ru r tick ctx h = Returned ru' h' (Some e) ->
  exists i r', chain_at rules i r = Some r' /\ hard_error (rules r') ctx e.
Proof.
  revert ru r h ru' h'. induction fuel as [|fuel IH]; intros ru r h ru' h'; [done|].
  rewrite RunRule_fuel_unfold. destruct (throttled rules ru r tick); [done|].
  intros H. apply deferred_Returned in H as (ru0 & H & _).
  destruct (rounds_of (rules r) ctx h) as [rounds|]; [|done].
  apply rounds_returned in H as [[_ [?|(h0 & flag & Hc)]]|(_ & _ & f & Hf & H)]; [done| |].
  - apply canRun_error in Hc as [_ Hc]. by exists O, r.
  - apply IH in H as (i & r' & Hi & He). exists (S i), r'. simpl. by rewrite Hf.
Qed.

Lemma Run_app fuel ru pre post tick ctx h ru1 h1 :
  Run rules fuel ru pre tick ctx h = Returned ru1 h1 None ->
  Run rules fuel ru (pre ++ post) tick ctx h = Run rules fuel ru1 post tick ctx h1.
Proof.
  revert ru h. induction pre as [|r pre IH]; intros ru h; simpl.
  - by intros [= <- <-].
  - destruct (Rule.Period (rules r) =? 0); [apply IH|].
    destruct (RunRule rules fuel ru r tick ctx h) as [ru2 h2 [e|]|]; try done. apply IH.
Qed.

Lemma Run_cons_due fuel ru r post tick ctx h :
  Rule.Period (rules r) <> 0 ->
  Run rules fuel ru (r :: post) tick ctx h =
    match RunRule rules fuel ru r tick ctx h with
    | Returned ru' h' None => Run rules fuel ru' post tick ctx h'
    | o => o
    end.
Proof. intros Hp. simpl. by destruct (Z.eqb_spec (Rule.Period (rules r)) 0). Qed.

Lemma Run_error_split fuel ru rs tick ctx h ru2 h2 e :
  Run rules fuel ru rs tick ctx h = Returned ru2 h2 (Some e) ->
  exists pre r post ru1 h1,
    rs = pre ++ r :: post
    /\ Run rules fuel ru pre tick ctx h = Returned ru1 h1 None
    /\ Rule.Period (rules r) <> 0
    /\ RunRule rules fuel ru1 r tick ctx h1 = Returned ru2 h2 (Some e).
Proof.
  revert ru h. induction rs as [|r rs IH]; intros ru h; simpl; [done|].
  destruct (Z.eqb_spec (Rule.Period (rules r)) 0) as [Hz|Hnz].
  - intros H. apply IH in H as (pre & r' & post & ru1 & h1 & -> & Hpre & Hp & Hr).
    exists (r :: pre), r', post, ru1, h1. simpl. rewrite Hz. simpl. auto.
  - destruct (RunRule rules fuel ru r tick ctx h) as [ru3 h3 [e3|]|] eqn:Hr; [| |done].
    + intros [= <- <- <-]. by exists [], r, rs, ru, h.
    + intros H. apply IH in H as (pre & r' & post & ru1 & h1 & -> & Hpre & Hp & Hr').
      exists (r :: pre), r', post, ru1, h1. simpl.
      destruct (Z.eqb_spec (Rule.Period (rules r)) 0); [done|]. rewrite Hr. auto.
Qed.

(** C1, as the code has it.  [Run] stops at the first rule whose
    [RunRule] returns an error and returns that error, the rules after
    it being left alone; an error of [Run] is always such a first error,
    and it is a hard error of [canRun]: a precondition or an input whose
    relation the context lacks, or an unknown operator.  An output or a
    set whose relation the context lacks is not an error: the round
    stops, [RunRule] gives nil for it, and [Run] goes on with the next
    rule. *)
Theorem Run_fail_fast (fuel : nat) (tick : Z) (ctx : RuleContext.t) :
  (forall ru h pre r post ru1 h1 ru2 h2 e,
      Run rules fuel ru pre tick ctx h = Returned ru1 h1 None ->
      Rule.Period (rules r) <> 0 ->
      RunRule rules fuel ru1 r tick ctx h1 = Returned ru2 h2 (Some e) ->
      Run rules fuel ru (pre ++ r :: post) tick ctx h = Returned ru2 h2 (Some e))
  /\ (forall ru h rs ru2 h2 e,
      Run rules fuel ru rs tick ctx h = Returned ru2 h2 (Some e) ->
      exists pre r post ru1 h1,
        rs = pre ++ r :: post
        /\ Run rules fuel ru pre tick ctx h = Returned ru1 h1 None
        /\ Rule.Period (rules r) <> 0
        /\ RunRule rules fuel ru1 r tick ctx h1 = Returned ru2 h2 (Some e)
        /\ exists i r', chain_at rules i r = Some r' /\ hard_error (rules r') ctx e)
  /\ (forall fallback rule n runOnce ru h,
      canRun rule ctx h = (true, None) ->
      (exists s, (s ∈ Rule.Outputs rule \/ s ∈ Rule.Sets rule) /\ relation_absent ctx s) ->
      exists h', RunRule_rounds fallback rule ctx (S n) runOnce ru h = Returned ru h' None)
  /\ (forall ru h r post ru1 h1,
      Rule.Period (rules r) <> 0 ->
      RunRule rules fuel ru r tick ctx h = Returned ru1 h1 None ->
      Run rules fuel ru (r :: post) tick ctx h = Run rules fuel ru1 post tick ctx h1).
Proof.
  repeat split.
  - intros ru h pre r post ru1 h1 ru2 h2 e Hpre Hp Hr.
    rewrite (Run_app _ _ _ _ _ _ _ _ _ Hpre), Run_cons_due by done. by rewrite Hr.
  - intros ru h rs ru2 h2 e H.
    apply Run_error_split in H as (pre & r & post & ru1 & h1 & ? & ? & ? & Hr).
    exists pre, r, post, ru1, h1. repeat split; try done. by eapply RunRule_error.
  - intros fallback rule n runOnce ru h Hcan Habs.
    pose proof (effects_absent rule ctx h Habs) as Heff.
    destruct (RunRule_effects rule ctx h) as [h' ok] eqn:He. simpl in Heff. subst ok.
    exists h'. by apply rounds_abort.
  - intros ru h r post ru1 h1 Hp Hr. rewrite Run_cons_due by done. by rewrite Hr.
Qed.

End Batch.

Lemma Run_fail_fast_witness :
  Run rules_lost_home 1 NewRunner [0%nat; 1%nat] 1 self_ctx (self_heap 0 0)
    = Returned (ran NewRunner 0%nat 1) (self_heap 0 0)
        (Some (ErrNoPreconditionPoolset "lost" RelationLocation)).
Proof.
  apply (proj1 (Run_fail_fast rules_lost_home 1 1 self_ctx) NewRunner (self_heap 0 0)
           [] 0%nat [1%nat] NewRunner (self_heap 0 0)).
  - reflexivity.
  - discriminate.
  - vm_compute. reflexivity.
Defined.

(** C1 as stated fails: an output to the relation location, which the
    context lacks, makes [RunRule] return nil, and [Run] then runs the
    next rule of the batch, which adds 1 iron. *)
Lemma Run_output_relation_absent :
  let h := self_heap 0 0 in
  canRun rule_out_location self_ctx h = (true, None)
  /\ relation_absent self_ctx (ResourceSpecifier.mk RelationLocation (res iron) 1)
  /\ RunRule rules_away_home 1 NewRunner 0%nat 1 self_ctx h
       = Returned (ran NewRunner 0%nat 1) h None
  /\ Run rules_away_home 1 NewRunner [0%nat; 1%nat] 1 self_ctx h
       = Returned (ran (ran NewRunner 0%nat 1) 1%nat 1) (self_heap 0 1) None.
Proof. repeat split; vm_compute; reflexivity. Qed.

(** ** The cases of the package's own tests *)

Example Parse_repeat12 :
  RuleParser.ParseText test_parser text_repeat12 = inr [rule_repeat12].
Proof. vm_compute. reflexivity. Qed.

Example Parse_onfail :
  RuleParser.ParseText test_parser text_onfail = inr rules_onfail.
Proof. vm_compute. reflexivity. Qed.

Example Parse_every0 :
  RuleParser.ParseText test_parser text_every0
    = inr [Rule.mk "test" 0 [] [] [] [ResourceSpecifier.mk RelationSelf (res iron) 1]
             false 0 None None].
Proof. vm_compute. reflexivity. Qed.

Example Parse_repeat_using :
  RuleParser.ParseText test_parser text_repeat_using
    = inr [Rule.mk "test" 1 [] [] [] [] false 0
             (Some (ResourceSource.mk RelationLocation (res workers))) None].
Proof. vm_compute. reflexivity. Qed.

Example scan_preconditioned :
  loon.scan text_preconditioned =
    ([loon.Object.mk "rule" "test" 1
        [loon.Directive.mk "if" ["global"; "iron_ore"; ">"; "6"] "global iron_ore > 6" 2;
         loon.Directive.mk "in" ["global"; "iron_ore"; "3"] "global iron_ore 3" 3;
         loon.Directive.mk "out" ["self"; "iron"; "1"] "self iron 1" 4]],
     None).
Proof. vm_compute. reflexivity. Qed.

(** A rule repeated from a resource runs as many rounds as the pool of
    that resource holds: 3 units of iron ore make 3 rounds of 1 iron
    each, and no round when the context has no pool for the resource. *)
Example RunRule_repeat_using :
  let rules := fun _ : RulePtr =>
    Rule.mk "test" 1 [] [] [ResourceSpecifier.mk RelationSelf (res iron) 1] [] false 7
      (Some (ResourceSource.mk RelationSelf (res ironOre))) None in
  let lonely := fun _ : RulePtr =>
    Rule.mk "test" 1 [] [] [ResourceSpecifier.mk RelationSelf (res iron) 1] [] false 7
      (Some (ResourceSource.mk RelationSelf (res workers))) None in
  RunRule rules 1 NewRunner 0%nat 1 self_ctx (self_heap 3 0)
    = Returned (ran NewRunner 0%nat 1) (self_heap 3 3) None
  /\ RunRule lonely 1 NewRunner 0%nat 1 self_ctx (self_heap 3 0)
    = Returned (ran NewRunner 0%nat 1) (self_heap 3 0) None.
Proof. split; vm_compute; reflexivity. Qed.

(** The benchmark's rule, which takes 1 iron ore and gives it back, run at
    increasing ticks: the quantity stays and [lastRun] advances. *)
Example Run_net_zero :
  let rules := fun _ : RulePtr =>
    Rule.mk "test" 1 []
      [ResourceSpecifier.mk RelationSelf (res ironOre) 1]
      [ResourceSpecifier.mk RelationSelf (res ironOre) 1] [] false 0 None None in
  let step (st : Runner.t * Heap) tick :=
    match Run rules 1 (fst st) [0%nat] tick self_ctx (snd st) with
    | Returned ru' h' None => (ru', h')
    | _ => st
    end in
  let final := fold_left step [1; 2; 3; 4; 5] (NewRunner, self_heap 1000 0) in
  ruleState (fst final) 0%nat = RuleState.mk 5
  /\ PoolSet.Quantity self_set (res ironOre) (snd final) = 1000.
Proof. vm_compute. split; reflexivity. Qed.

(** ** Instances of the theorems *)

Lemma RunRule_throttle_witness :
  let rules := fun _ : RulePtr => rule_out_self in
  RunRule rules 1 (ran NewRunner 0%nat 5) 0%nat 5 self_ctx (self_heap 0 1)
    = Returned (ran NewRunner 0%nat 5) (self_heap 0 1) None
  /\ RuleState.LastRun (ruleState (ran NewRunner 0%nat 5) 0%nat) = 5.
Proof.
  split.
  - apply (proj1 (RunRule_throttle (fun _ => rule_out_self) (ran NewRunner 0%nat 5) 0%nat 5)).
    vm_compute. reflexivity.
  - refine (proj1 (proj2 (RunRule_throttle (fun _ => rule_out_self) NewRunner 0%nat 5) _
                     1%nat self_ctx (self_heap 0 0) (ran NewRunner 0%nat 5) (self_heap 0 1)
                     None _)).
    + vm_compute. discriminate.
    + vm_compute. reflexivity.
Defined.

Lemma RunRule_fallback_witness :
  RunRule (RuleParser.table rules_onfail) 2 NewRunner 0%nat 1 self_ctx (self_heap 1 0)
    = Returned (ran (ran NewRunner 1%nat 1) 0%nat 1) (self_heap 0 1) None.
Proof.
  rewrite (proj1 (RunRule_fallback (RuleParser.table rules_onfail) 1 NewRunner 0%nat 1
                    self_ctx (self_heap 1 0) 1 eq_refl eq_refl) 1%nat);
    [|lia|reflexivity|reflexivity].
  vm_compute. reflexivity.
Defined.

Lemma RunRule_round_count_witness :
  RunRule (fun _ => rule_repeat12) 1 NewRunner 0%nat 1 self_ctx (self_heap 100 0)
    = Returned (ran NewRunner 0%nat 1) (self_heap 61 13) None.
Proof.
  apply (RunRule_round_count (fun _ => rule_repeat12) 0 NewRunner 0%nat 1 self_ctx
           (self_heap 100 0) eq_refl).
  - reflexivity.
  - reflexivity.
  - vm_compute. reflexivity.
Defined.

Lemma RunRule_terminates_iff_acyclic_witness :
  exists ru' h' e,
    RunRule (RuleParser.table rules_onfail) 3 NewRunner 0%nat 1 self_ctx (self_heap 1 0)
      = Returned ru' h' e.
Proof.
  destruct (proj1 (proj2 RunRule_terminates_iff_acyclic)
              (RuleParser.table rules_onfail) 2%nat 0%nat)
    with (ru := NewRunner) (tick := 1) (ctx := self_ctx) (h := self_heap 1 0)
    as (ru' & h' & e & H).
  - intros [|[|i]] [|[|j]] x; simpl; intros; simplify_eq; done.
  - intros [|[|i]] x; simpl; intros; simplify_eq; lia.
  - exists ru', h', e. apply (H 0%nat).
Defined.

(** * Further properties of the package *)

(** ** Pool sets *)

(** [Add] accounts for every unit.  Without a pool for the resource it
    changes nothing and hands [q] back.  With one, the pool ends at the
    smaller of its capacity and the sum, nothing else is touched, and as
    long as the sums fit an [int] the new quantity and the returned excess
    add up to the old quantity plus [q], the excess never being
    negative. *)
Theorem Add_accounts (p : PoolSet) (r : ResourcePtr) (q : Z) (h : Heap) :
  let h' := fst (PoolSet.Add p r q h) in
  let excess := snd (PoolSet.Add p r q h) in
  (PoolSet.find p r = None -> h' = h /\ excess = q)
  /\ (forall l, PoolSet.find p r = Some l ->
        let old := load h l in
        Pool.Quantity (load h' l)
          = Z.min (GoInt.add (Pool.Quantity old) q) (Pool.Capacity old)
        /\ Pool.Capacity (load h' l) = Pool.Capacity old
        /\ Pool.Resource (load h' l) = Pool.Resource old
        /\ (forall l', l' <> l -> h' !! l' = h !! l')
        /\ (GoInt.in_range (Pool.Quantity old + q) ->
            GoInt.in_range (Pool.Quantity old + q - Pool.Capacity old) ->
            0 <= excess
            /\ Pool.Quantity (load h' l) + excess = Pool.Quantity old + q)).
Proof.
  simpl. unfold PoolSet.Add, PoolSet.clamp. split.
  - by intros ->.
  - intros l ->.
    destruct (Z.ltb_spec (Pool.Capacity (load h l))
                (GoInt.add (Pool.Quantity (load h l)) q)) as [Hlt|Hge]; simpl;
      rewrite load_store_eq; simpl.
    + split; [lia|]. split; [done|]. split; [done|].
      split; [intros l' Hne; by apply lookup_store_ne|].
      intros Hr1 Hr2. rewrite add_exact in * by done. rewrite sub_exact by done. lia.
    + split; [lia|]. split; [done|]. split; [done|].
      split; [intros l' Hne; by apply lookup_store_ne|].
      intros Hr1 Hr2. rewrite add_exact in * by done. lia.
Qed.

Lemma Add_accounts_witness :
  Pool.Quantity (load (fst (PoolSet.Add ore_set (res ironOre) 7 (ore_heap 5 10))) 10%nat)
    + snd (PoolSet.Add ore_set (res ironOre) 7 (ore_heap 5 10)) = 5 + 7.
Proof.
  refine (proj2 (proj2 (proj2 (proj2 (proj2
            (proj2 (Add_accounts ore_set (res ironOre) 7 (ore_heap 5 10)) 10%nat eq_refl))))
            _ _)).
  - vm_compute. split; discriminate.
  - vm_compute. split; discriminate.
Defined.

(** [Set] forgets what the pool held: the pool ends at the smaller of [q]
    and its capacity whatever it held before, so a [Set] after any [Add],
    [Set] or [Remove] on the same pool set leaves the pools of the
    resource as the [Set] alone does, and setting twice is setting
    once. *)
Theorem Set_overrides (p : PoolSet) (r : ResourcePtr) (q : Z) (h : Heap) :
  (forall l, PoolSet.find p r = Some l ->
      Pool.Quantity (load (fst (PoolSet.Set_ p r q h)) l)
        = Z.min q (Pool.Capacity (load h l))
      /\ Pool.Capacity (load (fst (PoolSet.Set_ p r q h)) l) = Pool.Capacity (load h l)
      /\ forall l', l' <> l -> fst (PoolSet.Set_ p r q h) !! l' = h !! l')
  /\ (PoolSet.find p r = None -> PoolSet.Set_ p r q h = (h, q))
  /\ (forall q0,
        PoolSet.Set_ p r q (fst (PoolSet.Add p r q0 h)) = PoolSet.Set_ p r q h
        /\ PoolSet.Set_ p r q (fst (PoolSet.Set_ p r q0 h)) = PoolSet.Set_ p r q h
        /\ PoolSet.Set_ p r q (fst (PoolSet.Remove p r q0 h)) = PoolSet.Set_ p r q h).
Proof.
  unfold PoolSet.Set_, PoolSet.Add, PoolSet.Remove, PoolSet.clamp.
  destruct (PoolSet.find p r) as [l|] eqn:Hf.
  - split; [|split; [done|]].
    + intros l0 [= <-].
      destruct (Z.ltb_spec (Pool.Capacity (load h l)) q); simpl;
        rewrite load_store_eq; simpl;
        (split; [lia|]); (split; [done|]); intros l' Hne; by apply lookup_store_ne.
    + intros q0.
      assert (forall pool' : Pool.t,
                Pool.Capacity pool' = Pool.Capacity (load h l) ->
                Pool.Resource pool' = Pool.Resource (load h l) ->
                (if Pool.Capacity pool' <? q
                 then (store l (Pool.with_Quantity pool' (Pool.Capacity pool')) (store l pool' h),
                       GoInt.sub q (Pool.Capacity pool'))
                 else (store l (Pool.with_Quantity pool' q) (store l pool' h), 0))
                = (if Pool.Capacity (load h l) <? q
                   then (store l (Pool.with_Quantity (load h l) (Pool.Capacity (load h l))) h,
                         GoInt.sub q (Pool.Capacity (load h l)))
                   else (store l (Pool.with_Quantity (load h l) q) h, 0))) as Hover.
      { intros pool' Hc Hr. unfold store, Pool.with_Quantity.
        rewrite !insert_insert_eq, Hc, Hr. done. }
      split; [|split].
      * destruct (_ <? GoInt.add _ _); simpl; rewrite load_store_eq; by apply Hover.
      * destruct (_ <? q0); simpl; rewrite load_store_eq; by apply Hover.
      * destruct (_ <? q0); simpl; [done|]. rewrite load_store_eq. by apply Hover.
  - split; [done|]. split; [done|]. done.
Qed.

Lemma Set_overrides_witness :
  Pool.Quantity (load (fst (PoolSet.Set_ ore_set (res ironOre) 70 (ore_heap 5 10))) 10%nat)
    = Z.min 70 (Pool.Capacity (load (ore_heap 5 10) 10%nat)).
Proof.
  exact (proj1 (proj1 (Set_overrides ore_set (res ironOre) 70 (ore_heap 5 10))
                  10%nat eq_refl)).
Defined.

(** A [Remove] that succeeds is undone by an [Add] of the same amount
    when the pool was within its capacity: both return 0 and the pool is
    as it was before.  (The amounts are those that fit an [int].) *)
Theorem Remove_Add_roundtrip (p : PoolSet) (r : ResourcePtr) (q : Z) (h : Heap) (l : PoolPtr) :
  PoolSet.find p r = Some l ->
  q <= Pool.Quantity (load h l) <= Pool.Capacity (load h l) ->
  GoInt.in_range (Pool.Quantity (load h l)) ->
  GoInt.in_range (Pool.Quantity (load h l) - q) ->
  let h1 := fst (PoolSet.Remove p r q h) in
  let h2 := fst (PoolSet.Add p r q h1) in
  snd (PoolSet.Remove p r q h) = 0
  /\ Pool.Quantity (load h1 l) = Pool.Quantity (load h l) - q
  /\ snd (PoolSet.Add p r q h1) = 0
  /\ load h2 l = load h l
  /\ forall l', l' <> l -> h2 !! l' = h !! l'.
Proof.
  intros Hf [Hq Hc] Hr1 Hr2. simpl.
  unfold PoolSet.Remove, PoolSet.Add, PoolSet.clamp. rewrite Hf.
  destruct (Z.ltb_spec (Pool.Quantity (load h l)) q) as [Hlt|_]; [lia|]. simpl.
  rewrite load_store_eq. simpl.
  rewrite (sub_exact _ _ Hr2).
  assert (GoInt.add (Pool.Quantity (load h l) - q) q = Pool.Quantity (load h l)) as ->.
  { rewrite add_exact; [lia|]. by replace (Pool.Quantity (load h l) - q + q)
      with (Pool.Quantity (load h l)) by lia. }
  destruct (Z.ltb_spec (Pool.Capacity (load h l)) (Pool.Quantity (load h l))) as [Hlt|_];
    [lia|]. simpl.
  rewrite load_store_eq.
  split; [done|]. split; [done|]. split; [done|]. split.
  - by destruct (load h l).
  - intros l' Hne. by rewrite !lookup_store_ne.
Qed.

Lemma Remove_Add_roundtrip_witness :
  let h1 := fst (PoolSet.Remove ore_set (res ironOre) 3 (ore_heap 5 10)) in
  load (fst (PoolSet.Add ore_set (res ironOre) 3 h1)) 10%nat = load (ore_heap 5 10) 10%nat.
Proof.
  refine (proj1 (proj2 (proj2 (proj2
            (Remove_Add_roundtrip ore_set (res ironOre) 3 (ore_heap 5 10) 10%nat
               eq_refl _ _ _))))).
  - vm_compute. split; discriminate.
  - vm_compute. split; discriminate.
  - vm_compute. split; discriminate.
Defined.

(** [SetCapacity] never touches a quantity.  On a resource that has a
    pool it only writes the capacity, so a quantity above the new capacity
    stays until the next [Add] or [Set]; on a resource without pool it
    stores a new pool holding 0; either way [Capacity] then reads [c] for
    a resource that is not nil, and the quantity of every resource reads
    as before.  Under the nil resource the pool is stored but [Capacity]
    still reads 0.  A nil map takes no new pool: the call panics. *)
Theorem SetCapacity_lazy (fresh : PoolPtr) (p : PoolSet) (r : ResourcePtr) (c : Z)
    (h : Heap) :
  (p = None -> PoolSet.SetCapacity fresh p r c h = None)
  /\ (forall m, p = Some m ->
        (forall r', m !! r' <> Some fresh) ->
        exists p' h',
          PoolSet.SetCapacity fresh p r c h = Some (p', h')
          /\ (r <> None -> PoolSet.Capacity p' r h' = c)
          /\ (r = None -> PoolSet.Capacity p' r h' = 0)
          /\ (forall r', PoolSet.Quantity p' r' h' = PoolSet.Quantity p r' h)
          /\ (forall l, m !! r = Some l -> p' = p /\ forall l', l' <> l -> h' !! l' = h !! l')).
Proof.
  split; [by intros ->|].
  intros m -> Hfresh. unfold PoolSet.SetCapacity, PoolSet.index.
  destruct (m !! r) as [l|] eqn:Hl.
  - eexists _, _. split; [done|].
    split; [|split; [|split]].
    + intros Hr. unfold PoolSet.Capacity, PoolSet.find. destruct r as [a|]; [|done].
      rewrite Hl. by rewrite load_store_eq.
    + by intros ->.
    + intros r'. unfold PoolSet.Quantity, PoolSet.find.
      destruct r' as [a'|]; [|done]. destruct (m !! Some a') as [l'|]; [|done].
      destruct (decide (l = l')) as [<-|Hne];
        [by rewrite load_store_eq|by rewrite load_store_ne].
    + intros l0 [= <-]. split; [done|]. intros l' Hne. by apply lookup_store_ne.
  - eexists _, _. split; [done|].
    split; [|split; [|split]].
    + intros Hr. unfold PoolSet.Capacity, PoolSet.find. destruct r as [a|]; [|done].
      rewrite lookup_insert_eq. by rewrite load_store_eq.
    + by intros ->.
    + intros r'. unfold PoolSet.Quantity, PoolSet.find.
      destruct r' as [a'|]; [|done].
      destruct (decide (r = Some a')) as [->|Hne].
      * rewrite lookup_insert_eq, Hl. by rewrite load_store_eq.
      * rewrite lookup_insert_ne by done.
        destruct (m !! Some a') as [l'|] eqn:Hl'; [|done].
        rewrite load_store_ne; [done|]. intros ->. by eapply Hfresh.
    + done.
Qed.

Lemma SetCapacity_lazy_witness :
  exists p' h',
    PoolSet.SetCapacity 99%nat ore_set (res ironOre) 3 (ore_heap 5 10) = Some (p', h')
    /\ PoolSet.Capacity p' (res ironOre) h' = 3
    /\ PoolSet.Quantity p' (res ironOre) h' = 5.
Proof.
  destruct (proj2 (SetCapacity_lazy 99%nat ore_set (res ironOre) 3 (ore_heap 5 10))
              {[ res ironOre := 10%nat ]} eq_refl)
    as (p' & h' & H1 & H2 & _ & H3 & _).
  - intros r' Hr'. apply lookup_singleton_Some in Hr' as [_ Hr']. discriminate.
  - exists p', h'. split; [done|]. split; [by apply H2|]. by rewrite H3.
Defined.

(** [AddPool] stores what it is given: it panics exactly on a nil
    resource or a nil map, and otherwise [Quantity] and [Capacity] read
    the given values back, also a quantity above the capacity, while every
    other resource keeps its pool. *)
Theorem AddPool_reads_back (fresh : PoolPtr) (p : PoolSet) (r : ResourcePtr)
    (capacity quantity : Z) (h : Heap) :
  (PoolSet.AddPool fresh p r capacity quantity h = None <-> r = None \/ p = None)
  /\ (forall p' h',
        PoolSet.AddPool fresh p r capacity quantity h = Some (p', h') ->
        PoolSet.Quantity p' r h' = quantity
        /\ PoolSet.Capacity p' r h' = capacity
        /\ (forall r', r' <> r -> PoolSet.index p' r' = PoolSet.index p r')
        /\ (forall l', l' <> fresh -> h' !! l' = h !! l')).
Proof.
  unfold PoolSet.AddPool. destruct r as [a|], p as [m|]; simpl;
    (split; [split; [try done; by auto|intros [?|?]; done]|]); try done.
  intros p' h' [= <- <-].
  unfold PoolSet.Quantity, PoolSet.Capacity, PoolSet.find, PoolSet.index.
  rewrite lookup_insert_eq, load_store_eq. simpl.
  split; [done|]. split; [done|]. split.
  - intros r' Hne. by rewrite lookup_insert_ne.
  - intros l' Hne. by apply lookup_store_ne.
Qed.

Lemma AddPool_reads_back_witness :
  PoolSet.Quantity (Some (<[res iron := 11%nat]> {[ res ironOre := 10%nat ]})) (res iron)
    (store 11%nat (Pool.mk (res iron) 8 4) (ore_heap 5 10)) = 8.
Proof.
  exact (proj1 (proj2 (AddPool_reads_back 11%nat ore_set (res iron) 4 8 (ore_heap 5 10))
                  _ _ eq_refl)).
Defined.

(** ** canRun *)

Lemma compare_true op q target : compare op q target = Some true <-> op_holds op q target.
Proof.
  unfold compare, op_holds, OpEquals, OpGreaterThan, OpGreaterThanOrEqual, OpLessThan,
    OpLessThanOrEqual.
  destruct (Z.eqb_spec op 0) as [->|?];
    [|destruct (Z.eqb_spec op 1) as [->|?];
      [|destruct (Z.eqb_spec op 2) as [->|?];
        [|destruct (Z.eqb_spec op 3) as [->|?];
          [|destruct (Z.eqb_spec op 4) as [->|?]]]]].
  - destruct (Z.eqb_spec q target); split; try (intros [=]); intros; try lia; auto 10.
  - destruct (Z.ltb_spec target q); split; try (intros [=]); intros; try lia; auto 10.
  - destruct (Z.leb_spec target q); split; try (intros [=]); intros; try lia; auto 10.
  - destruct (Z.ltb_spec q target); split; try (intros [=]); intros; try lia; auto 10.
  - destruct (Z.leb_spec q target); split; try (intros [=]); intros; try lia; auto 10.
  - split; [done|]. lia.
Qed.

Lemma canRun_preconditions_true name ctx h cs :
  canRun_preconditions name ctx h cs = (true, None) <-> Forall (condition_holds ctx h) cs.
Proof.
  induction cs as [|c cs IH]; simpl; [split; [by constructor|done]|].
  rewrite Forall_cons, <- IH. unfold condition_holds.
  destruct (RuleContext.Pools ctx !! ResourceCondition.Relation c) as [ps|] eqn:Hrel.
  - destruct (compare _ _ _) as [[]|] eqn:Hcmp.
    + apply compare_true in Hcmp. split; [|by intros [_ ?]]. intros H. split; [|done]. eauto.
    + split; [done|]. intros [(ps' & [= <-] & Hop) _].
      apply compare_true in Hop. congruence.
    + split; [done|]. intros [(ps' & [= <-] & Hop) _].
      apply compare_true in Hop. congruence.
  - split; [done|]. by intros [(ps' & ? & _) _].
Qed.

Lemma canRun_inputs_true_iff name ctx h ins :
  canRun_inputs name ctx h ins = (true, None) <-> Forall (input_affordable ctx h) ins.
Proof.
  induction ins as [|i ins IH]; simpl; [split; [by constructor|done]|].
  rewrite Forall_cons, <- IH. unfold input_affordable, input_available.
  destruct (RuleContext.Pools ctx !! ResourceSpecifier.Relation i) as [ps|] eqn:Hrel.
  - destruct (Z.ltb_spec (PoolSet.Quantity ps (ResourceSpecifier.Resource i) h)
                (ResourceSpecifier.Quantity i)) as [Hlt|Hge].
    + split; [done|]. intros [[_ ?] _]. lia.
    + split; [|by intros [_ ?]]. intros H. split; [|done]. eauto.
  - split; [done|]. intros [[[? ?] _] _]. done.
Qed.

(** [canRun] says yes exactly when every precondition holds and every
    input is affordable, and it never says yes together with an error. *)
Theorem canRun_true_iff (rule : Rule.t) (ctx : RuleContext.t) (h : Heap) :
  (canRun rule ctx h = (true, None) <->
     Forall (condition_holds ctx h) (Rule.Preconditions rule)
     /\ Forall (input_affordable ctx h) (Rule.Inputs rule))
  /\ (fst (canRun rule ctx h) = true -> snd (canRun rule ctx h) = None).
Proof.
  unfold canRun. split.
  - rewrite <- canRun_preconditions_true, <- canRun_inputs_true_iff.
    destruct (canRun_preconditions (Rule.Name rule) ctx h (Rule.Preconditions rule))
      as [[] [e|]] eqn:Hp;
      (split; [intros Hyes|intros [Hpre Hin]]); try done; try congruence.
  - destruct (canRun_preconditions _ ctx h _) as [[] [e|]] eqn:Hp; simpl; try done.
    + by apply canRun_preconditions_error in Hp as [? _].
    + destruct (canRun_inputs _ ctx h _) as [[] [e|]] eqn:Hi; simpl; try done.
      by apply canRun_inputs_error in Hi as [? _].
Qed.

Lemma canRun_true_iff_witness : canRun rule_twice self_ctx (self_heap 5 0) = (true, None).
Proof.
  apply (proj1 (canRun_true_iff rule_twice self_ctx (self_heap 5 0))). split.
  - constructor.
  - repeat constructor; try (by eexists); vm_compute; discriminate.
Defined.

(** ** Run *)

Section RunFacts.

Variable rules : RulePtr -> Rule.t.

(** [Run] passes over the rules of period 0: a batch gives what it gives
    with those rules taken out, whether they are due or not. *)
Theorem Run_skips_period_zero (fuel : nat) (ru : Runner.t) (rs : list RulePtr) (tick : Z)
    (ctx : RuleContext.t) (h : Heap) :
  Run rules fuel ru rs tick ctx h
    = Run rules fuel ru (filter (fun r => Rule.Period (rules r) <> 0) rs) tick ctx h.
Proof.
  revert ru h. induction rs as [|r rs IH]; intros ru h; [done|].
  rewrite filter_cons. simpl.
  destruct (Z.eqb_spec (Rule.Period (rules r)) 0) as [Hz|Hnz].
  - rewrite decide_False by (intros Hne; by apply Hne). apply IH.
  - rewrite decide_True by done. simpl.
    destruct (Z.eqb_spec (Rule.Period (rules r)) 0); [done|].
    destruct (RunRule rules fuel ru r tick ctx h) as [ru' h' [e|]|]; done || apply IH.
Qed.

(** Batches compose: running two lists of rules as one batch is running
    the first and, when it returns nil, the second from the runner and
    pools the first left; an error of the first is the error of the
    whole and the second list is not looked at. *)
Theorem Run_batches_compose (fuel : nat) (ru : Runner.t) (pre post : list RulePtr)
    (tick : Z) (ctx : RuleContext.t) (h : Heap) :
  Run rules fuel ru (pre ++ post) tick ctx h
    = match Run rules fuel ru pre tick ctx h with
      | Returned ru1 h1 None => Run rules fuel ru1 post tick ctx h1
      | o => o
      end.
Proof.
  revert ru h. induction pre as [|r pre IH]; intros ru h; simpl; [done|].
  destruct (Rule.Period (rules r) =? 0); [apply IH|].
  destruct (RunRule rules fuel ru r tick ctx h) as [ru' h' [e|]|]; done || apply IH.
Qed.

End RunFacts.

(** ** What a run touches *)

Lemma only_quantities_refl L h : only_quantities L h h.
Proof. by intros l. Qed.

Lemma only_quantities_trans L h1 h2 h3 :
  only_quantities L h1 h2 -> only_quantities L h2 h3 -> only_quantities L h1 h3.
Proof.
  intros H12 H23 l. destruct (H12 l) as (Hc & Hr & Hl), (H23 l) as (Hc' & Hr' & Hl').
  split; [congruence|]. split; [congruence|]. intros Hn. rewrite Hl', Hl; done.
Qed.

Lemma only_quantities_store (L : PoolPtr -> Prop) (h : Heap) l q :
  L l -> only_quantities L h (store l (Pool.with_Quantity (load h l) q) h).
Proof.
  intros HL l'. destruct (decide (l = l')) as [<-|Hne].
  - rewrite load_store_eq. by split; [|split].
  - rewrite load_store_ne by done. by split; [|split].
Qed.

Lemma Remove_only_quantities (L : PoolPtr -> Prop) ps r q (h : Heap) :
  (forall l, PoolSet.find ps r = Some l -> L l) ->
  only_quantities L h (fst (PoolSet.Remove ps r q h)).
Proof.
  intros HL. unfold PoolSet.Remove.
  destruct (PoolSet.find ps r) as [l|]; [|apply only_quantities_refl].
  destruct (_ <? _); [apply only_quantities_refl|]. apply only_quantities_store. eauto.
Qed.

Lemma clamp_only_quantities (L : PoolPtr -> Prop) l q' (h : Heap) :
  L l -> only_quantities L h (fst (PoolSet.clamp l (load h l) q' h)).
Proof.
  intros HL. unfold PoolSet.clamp. destruct (_ <? _); by apply only_quantities_store.
Qed.

Lemma Add_only_quantities (L : PoolPtr -> Prop) ps r q (h : Heap) :
  (forall l, PoolSet.find ps r = Some l -> L l) ->
  only_quantities L h (fst (PoolSet.Add ps r q h)).
Proof.
  intros HL. unfold PoolSet.Add.
  destruct (PoolSet.find ps r) as [l|]; [|apply only_quantities_refl].
  apply clamp_only_quantities. eauto.
Qed.

Lemma Set_only_quantities (L : PoolPtr -> Prop) ps r q (h : Heap) :
  (forall l, PoolSet.find ps r = Some l -> L l) ->
  only_quantities L h (fst (PoolSet.Set_ ps r q h)).
Proof.
  intros HL. unfold PoolSet.Set_.
  destruct (PoolSet.find ps r) as [l|]; [|apply only_quantities_refl].
  apply clamp_only_quantities. eauto.
Qed.

Section Touches.

Variable ctx : RuleContext.t.
Variable L : PoolPtr -> Prop.

Lemma input_pool_cons (s : ResourceSpecifier.t) (ss : list ResourceSpecifier.t)
    (ps : PoolSet) (l : PoolPtr) :
  RuleContext.Pools ctx !! ResourceSpecifier.Relation s = Some ps ->
  PoolSet.find ps (ResourceSpecifier.Resource s) = Some l ->
  l ∈ omap (input_pool ctx) (s :: ss).
Proof.
  intros Hrel Hf. apply list_elem_of_omap. exists s. split; [by left|].
  unfold input_pool. by rewrite Hrel.
Qed.

Lemma inputs_only_quantities ins h :
  (forall l, l ∈ omap (input_pool ctx) ins -> L l) ->
  only_quantities L h (fst (RunRule_inputs ctx ins h)).
Proof.
  revert h. induction ins as [|i ins IH]; intros h HL; simpl;
    [apply only_quantities_refl|].
  destruct (RuleContext.Pools ctx !! ResourceSpecifier.Relation i) as [ps|] eqn:Hrel;
    [|apply only_quantities_refl].
  assert (only_quantities L h
            (fst (PoolSet.Remove ps (ResourceSpecifier.Resource i)
                    (ResourceSpecifier.Quantity i) h))) as Hstep.
  { apply Remove_only_quantities. intros l Hl. apply HL.
    by apply (input_pool_cons i ins ps l). }
  destruct (PoolSet.Remove ps _ _ h) as [h1 excess]. simpl in Hstep.
  destruct (0 <? excess); [done|].
  eapply only_quantities_trans; [exact Hstep|]. apply IH.
  intros l Hl. apply HL. simpl. destruct (input_pool ctx i); [by right|done].
Qed.

Lemma outputs_only_quantities outs h :
  (forall l, l ∈ omap (input_pool ctx) outs -> L l) ->
  only_quantities L h (fst (RunRule_outputs ctx outs h)).
Proof.
  revert h. induction outs as [|o outs IH]; intros h HL; simpl;
    [apply only_quantities_refl|].
  destruct (RuleContext.Pools ctx !! ResourceSpecifier.Relation o) as [ps|] eqn:Hrel;
    [|apply only_quantities_refl].
  eapply only_quantities_trans; [|apply IH].
  - apply Add_only_quantities. intros l Hl. apply HL.
    by apply (input_pool_cons o outs ps l).
  - intros l Hl. apply HL. simpl. destruct (input_pool ctx o); [by right|done].
Qed.

Lemma sets_only_quantities sets h :
  (forall l, l ∈ omap (input_pool ctx) sets -> L l) ->
  only_quantities L h (fst (RunRule_sets ctx sets h)).
Proof.
  revert h. induction sets as [|s sets IH]; intros h HL; simpl;
    [apply only_quantities_refl|].
  destruct (RuleContext.Pools ctx !! ResourceSpecifier.Relation s) as [ps|] eqn:Hrel;
    [|apply only_quantities_refl].
  eapply only_quantities_trans; [|apply IH].
  - apply Set_only_quantities. intros l Hl. apply HL.
    by apply (input_pool_cons s sets ps l).
  - intros l Hl. apply HL. simpl. destruct (input_pool ctx s); [by right|done].
Qed.

Lemma effects_only_quantities rule h :
  (forall l, l ∈ rule_pools ctx rule -> L l) ->
  only_quantities L h (fst (RunRule_effects rule ctx h)).
Proof.
  intros HL. unfold RunRule_effects, rule_pools in *.
  assert (forall ss l, l ∈ omap (input_pool ctx) ss ->
            ss = Rule.Inputs rule \/ ss = Rule.Outputs rule \/ ss = Rule.Sets rule ->
            L l) as Hpart.
  { intros ss l Hl Hss. apply HL. rewrite !omap_app, !elem_of_app.
    destruct Hss as [->|[->| ->]]; auto. }
  pose proof (inputs_only_quantities (Rule.Inputs rule) h) as H1.
  destruct (RunRule_inputs ctx (Rule.Inputs rule) h) as [h1 []]; simpl in *;
    [|apply H1; eauto].
  pose proof (outputs_only_quantities (Rule.Outputs rule) h1) as H2.
  destruct (RunRule_outputs ctx (Rule.Outputs rule) h1) as [h2 []]; simpl in *.
  - eapply only_quantities_trans; [apply H1; eauto|].
    eapply only_quantities_trans; [apply H2; eauto|].
    apply sets_only_quantities. eauto.
  - eapply only_quantities_trans; [apply H1; eauto|]. apply H2. eauto.
Qed.

Lemma rounds_only_quantities fb rule n b ru h ru' h' e :
  (forall l, l ∈ rule_pools ctx rule -> L l) ->
  (forall f ru1 h1 e1,
      Rule.OnFail rule = Some f ->
      fb f ru h = Returned ru1 h1 e1 -> only_quantities L h h1) ->
  RunRule_rounds fb rule ctx n b ru h = Returned ru' h' e ->
  only_quantities L h h'.
Proof.
  intros HL Hfb.
  assert (forall n h, RunRule_rounds fb rule ctx n true ru h = Returned ru' h' e ->
                      only_quantities L h h') as Honce.
  { clear Hfb h. induction n0 as [|n0 IH]; intros h; simpl.
    - intros [= <- <- <-]. apply only_quantities_refl.
    - destruct (canRun rule ctx h) as [[] [err|]];
        try (intros [= <- <- <-]; apply only_quantities_refl).
      pose proof (effects_only_quantities rule h HL) as Heff.
      destruct (RunRule_effects rule ctx h) as [h1 []]; simpl in Heff.
      + intros Hrest. eapply only_quantities_trans; [exact Heff|]. by apply IH.
      + by intros [= <- <- <-]. }
  destruct n as [|n]; simpl.
  - intros [= <- <- <-]. apply only_quantities_refl.
  - destruct (canRun rule ctx h) as [[] [err|]];
      try (intros [= <- <- <-]; apply only_quantities_refl).
    + pose proof (effects_only_quantities rule h HL) as Heff.
      destruct (RunRule_effects rule ctx h) as [h1 []]; simpl in Heff.
      * intros Hrest. eapply only_quantities_trans; [exact Heff|]. by eapply Honce.
      * by intros [= <- <- <-].
    + destruct b; [intros [= <- <- <-]; apply only_quantities_refl|].
      destruct (Rule.OnFail rule) as [f|] eqn:Hf;
        [|intros [= <- <- <-]; apply only_quantities_refl].
      by apply Hfb.
Qed.

End Touches.

Lemma only_quantities_mono (L1 L2 : PoolPtr -> Prop) h h' :
  (forall l, L1 l -> L2 l) -> only_quantities L1 h h' -> only_quantities L2 h h'.
Proof.
  intros Hsub H l. destruct (H l) as (Hc & Hr & Hl).
  split; [done|]. split; [done|]. intros Hn. apply Hl. intros H1. by apply Hn, Hsub.
Qed.

Section RunTouches.

Variable rules : RulePtr -> Rule.t.

Lemma chain_pools_fallback ctx r f l :
  Rule.OnFail (rules r) = Some f -> chain_pools rules ctx f l -> chain_pools rules ctx r l.
Proof.
  intros Hf (i & x & Hi & Hl). exists (S i), x. split; [|done]. simpl. by rewrite Hf.
Qed.

Lemma RunRule_only_quantities fuel ru r tick ctx h ru' h' e :
  RunRule rules fuel ru r tick ctx h = Returned ru' h' e ->
  only_quantities (chain_pools rules ctx r) h h'.
Proof.
  revert ru r h ru' h' e. induction fuel as [|fuel IH]; intros ru r h ru' h' e; [done|].
  rewrite RunRule_fuel_unfold.
  destruct (throttled rules ru r tick);
    [intros [= <- <- <-]; apply only_quantities_refl|].
  intros H. apply deferred_Returned in H as (ru0 & H & _).
  destruct (rounds_of (rules r) ctx h) as [rounds|];
    [|injection H as <- <- <-; apply only_quantities_refl].
  eapply rounds_only_quantities; [| |exact H].
  - intros l Hl. by exists O, r.
  - intros f ru1 h1 e1 Hf Hfb. simpl in Hfb.
    apply (only_quantities_mono (chain_pools rules ctx f)).
    + intros l. by apply chain_pools_fallback.
    + by apply (IH _ _ _ _ _ _ Hfb).
Qed.

Lemma Run_only_quantities fuel ru rs tick ctx h ru' h' e :
  Run rules fuel ru rs tick ctx h = Returned ru' h' e ->
  only_quantities (batch_pools rules ctx rs) h h'.
Proof.
  revert ru h. induction rs as [|r rs IH]; intros ru h; simpl.
  - intros [= <- <- <-]. apply only_quantities_refl.
  - assert (forall l, batch_pools rules ctx rs l -> batch_pools rules ctx (r :: rs) l)
      as Htail.
    { intros l (x & Hx & Hl). exists x. split; [by right|done]. }
    destruct (Rule.Period (rules r) =? 0).
    { intros H. eapply only_quantities_mono; [exact Htail|]. by eapply IH. }
    destruct (RunRule rules fuel ru r tick ctx h) as [ru1 h1 e1|] eqn:Hr; [|done].
    assert (only_quantities (batch_pools rules ctx (r :: rs)) h h1) as Hhead.
    { eapply only_quantities_mono; [|by eapply RunRule_only_quantities].
      intros l Hl. exists r. split; [by left|done]. }
    destruct e1; [by intros [= <- <- <-]|].
    intros H. eapply only_quantities_trans; [exact Hhead|].
    eapply only_quantities_mono; [exact Htail|]. by eapply IH.
Qed.

(** A call of [RunRule] changes nothing in the pools but quantities, and
    only those of the pools that the inputs, outputs and sets of the rule
    and of the rules on its chain of fallbacks address in the context:
    every capacity and every other pool is as before, also when the call
    returns an error.  The same holds for [Run] and the rules of the
    batch. *)
Theorem Run_touches_only_addressed (fuel : nat) (ru : Runner.t) (tick : Z)
    (ctx : RuleContext.t) (h : Heap) (ru' : Runner.t) (h' : Heap) (e : option error) :
  (forall r,
      RunRule rules fuel ru r tick ctx h = Returned ru' h' e ->
      forall l,
        Pool.Capacity (load h' l) = Pool.Capacity (load h l)
        /\ Pool.Resource (load h' l) = Pool.Resource (load h l)
        /\ (~ chain_pools rules ctx r l -> load h' l = load h l))
  /\ (forall rs,
      Run rules fuel ru rs tick ctx h = Returned ru' h' e ->
      forall l,
        Pool.Capacity (load h' l) = Pool.Capacity (load h l)
        /\ Pool.Resource (load h' l) = Pool.Resource (load h l)
        /\ (~ batch_pools rules ctx rs l -> load h' l = load h l)).
Proof.
  split.
  - intros r H. by apply (RunRule_only_quantities _ _ _ _ _ _ _ _ _ H).
  - intros rs H. by apply (Run_only_quantities _ _ _ _ _ _ _ _ _ H).
Qed.

End RunTouches.

Lemma Run_touches_only_addressed_witness :
  Pool.Capacity (load (self_heap 61 13) 10%nat) = Pool.Capacity (load (self_heap 100 0) 10%nat).
Proof.
  refine (proj1 (proj1 (Run_touches_only_addressed (fun _ => rule_repeat12) 1 NewRunner 1
                          self_ctx (self_heap 100 0) (ran NewRunner 0%nat 1)
                          (self_heap 61 13) None) 0%nat _ 10%nat)).
  vm_compute. reflexivity.
Defined.

(** ** The runner's memory *)

Section LastRun.

Variable rules : RulePtr -> Rule.t.

(** A call of [RunRule] writes [lastRun] only for rules on the chain of
    fallbacks of the rule it is called for, and what it writes is the
    tick of the call: every other rule keeps its state, and so does every
    rule when the call is throttled. *)
Theorem RunRule_lastRun_local (fuel : nat) (ru : Runner.t) (r : RulePtr) (tick : Z)
    (ctx : RuleContext.t) (h : Heap) (ru' : Runner.t) (h' : Heap) (e : option error) :
  RunRule rules fuel ru r tick ctx h = Returned ru' h' e ->
  (throttled rules ru r tick = true -> ru' = ru)
  /\ forall a,
       ruleState ru' a = ruleState ru a
       \/ (ruleState ru' a = RuleState.mk tick /\ exists i, chain_at rules i r = Some a).
Proof.
  intros H. split.
  { intros Hth. destruct fuel as [|fuel]; [done|].
    rewrite RunRule_not_due in H by done. by injection H as <- _ _. }
  revert ru r h ru' h' e H.
  induction fuel as [|fuel IH]; intros ru r h ru' h' e; [done|].
  rewrite RunRule_fuel_unfold.
  destruct (throttled rules ru r tick); [intros [= <- <- <-] a; by left|].
  intros H a. apply deferred_Returned in H as (ru0 & H & ->).
  rewrite ruleState_insert. case_decide as Ha.
  { subst a. right. split; [done|]. by exists O. }
  destruct (rounds_of (rules r) ctx h) as [rounds|]; [|injection H as <- _ _; by left].
  apply rounds_returned in H as [[-> _]|(_ & _ & f & Hf & H)]; [by left|].
  destruct (IH _ _ _ _ _ _ H a) as [Hsame|[Hnew [i Hi]]]; [by left|].
  right. split; [done|]. exists (S i). simpl. by rewrite Hf.
Qed.

(** A rule whose number of rounds is not positive does nothing when it is
    due: no round, no call of its fallback, no error, only [lastRun] is
    written.  That is the case of a fixed repeat below 0, and of the
    largest [int], whose successor wraps around. *)
Theorem RunRule_no_rounds (fuel : nat) (ru : Runner.t) (rule : RulePtr) (tick : Z)
    (ctx : RuleContext.t) (h : Heap) :
  throttled rules ru rule tick = false ->
  (forall rounds,
      rounds_of (rules rule) ctx h = Some rounds -> rounds <= 0 ->
      RunRule rules (S fuel) ru rule tick ctx h = Returned (ran ru rule tick) h None)
  /\ (Rule.RepeatFrom (rules rule) = None ->
      GoInt.in_range (Rule.Repeat (rules rule)) ->
      Rule.Repeat (rules rule) < 0 \/ Rule.Repeat (rules rule) = GoInt.max_int ->
      RunRule rules (S fuel) ru rule tick ctx h = Returned (ran ru rule tick) h None).
Proof.
  intros Hd.
  assert (forall rounds,
      rounds_of (rules rule) ctx h = Some rounds -> rounds <= 0 ->
      RunRule rules (S fuel) ru rule tick ctx h = Returned (ran ru rule tick) h None)
    as Hnone.
  { intros rounds Hr Hle. rewrite RunRule_due, Hr by done.
    replace (Z.to_nat rounds) with O by lia. done. }
  split; [exact Hnone|].
  intros Hs Hr Hrep. apply (Hnone (GoInt.add (Rule.Repeat (rules rule)) 1)).
  - unfold rounds_of. by rewrite Hs.
  - destruct Hrep as [Hneg| ->].
    + rewrite add_exact; [lia|].
      unfold GoInt.in_range, GoInt.min_int, GoInt.max_int in *. lia.
    + vm_compute. discriminate.
Qed.

End LastRun.

Lemma RunRule_lastRun_local_witness :
  ruleState (ran (ran NewRunner 1%nat 1) 0%nat 1) 1%nat = ruleState NewRunner 1%nat
  \/ (ruleState (ran (ran NewRunner 1%nat 1) 0%nat 1) 1%nat = RuleState.mk 1
      /\ exists i, chain_at (RuleParser.table rules_onfail) i 0%nat = Some 1%nat).
Proof.
  refine (proj2 (RunRule_lastRun_local (RuleParser.table rules_onfail) 2 NewRunner 0%nat 1
                   self_ctx (self_heap 1 0) _ (self_heap 0 1) None _) 1%nat).
  vm_compute. reflexivity.
Defined.

Lemma RunRule_no_rounds_witness :
  RunRule (fun _ => rule_never) 1 NewRunner 0%nat 1 self_ctx (self_heap 0 0)
    = Returned (ran NewRunner 0%nat 1) (self_heap 0 0) None.
Proof.
  refine (proj2 (RunRule_no_rounds (fun _ => rule_never) 0 NewRunner 0%nat 1 self_ctx
                   (self_heap 0 0) eq_refl) eq_refl _ _).
  - vm_compute. split; discriminate.
  - by right.
Defined.

(** ** The rule parser *)

Section ParserFacts.

Variable p : RuleParser.t.

Ltac catalog_step :=
  unfold rule_resources in *; simpl in *;
  rewrite ?fmap_app, ?Forall_app in *; simpl in *;
  rewrite ?Forall_cons, ?Forall_nil in *;
  unfold in_catalog in *; intuition eauto.

Lemma specifier_keeps dir rel res qty rule rule' :
  RuleParser.specifier p dir rel res qty rule = inr rule' ->
  Rule.Name rule' = Rule.Name rule
  /\ Rule.OnFail rule' = Rule.OnFail rule
  /\ (Forall (in_catalog p) (rule_resources rule) ->
      Forall (in_catalog p) (rule_resources rule')).
Proof.
  unfold RuleParser.specifier.
  destruct (RuleParser.rm p !! strings_.ToLower res) as [r|] eqn:Hr; [|done].
  destruct (strconv.Atoi qty) as [quantity|]; [|done].
  destruct (String.eqb _ "in"); [|destruct (String.eqb _ "set")];
    intros [= <-]; (split; [done|]); (split; [done|]); catalog_step.
Qed.

Lemma condition_keeps dir rel res op qty rule rule' :
  RuleParser.condition p dir rel res op qty rule = inr rule' ->
  Rule.Name rule' = Rule.Name rule
  /\ Rule.OnFail rule' = Rule.OnFail rule
  /\ (Forall (in_catalog p) (rule_resources rule) ->
      Forall (in_catalog p) (rule_resources rule')).
Proof.
  unfold RuleParser.condition.
  destruct (RuleParser.rm p !! strings_.ToLower res) as [r|] eqn:Hr; [|done].
  destruct (RuleParser.operator op); [|done].
  destruct (strconv.Atoi qty) as [quantity|]; [|done].
  intros [= <-]. (split; [done|]); (split; [done|]). catalog_step.
Qed.

Lemma repeat_using_keeps objLine rel res rule rule' :
  RuleParser.repeat_using p objLine rel res rule = inr rule' ->
  Rule.Name rule' = Rule.Name rule
  /\ Rule.OnFail rule' = Rule.OnFail rule
  /\ (Forall (in_catalog p) (rule_resources rule) ->
      Forall (in_catalog p) (rule_resources rule')).
Proof.
  unfold RuleParser.repeat_using.
  destruct (RuleParser.rm p !! strings_.ToLower res) as [r|] eqn:Hr; [|done].
  intros [= <-]. (split; [done|]); (split; [done|]).
  destruct (Rule.RepeatFrom rule); catalog_step.
Qed.

Ltac known_directive H :=
  rewrite H; unfold rule_directives; rewrite !elem_of_cons; auto 10.

Ltac kept_rule lem :=
  match goal with
  | |- context [match ?c with inl _ => _ | inr _ => _ end] =>
      let Hs := fresh "Hs" in
      destruct c as [?|?] eqn:Hs; [done|];
      intros [= <-]; apply lem in Hs as (? & ? & ?); simpl
  end.

Lemma directive_keeps_ok objLine spec dir spec' :
  RuleParser.directive p objLine spec dir = inr spec' -> directive_keeps p spec spec' dir.
Proof.
  unfold RuleParser.directive, directive_keeps.
  destruct (String.eqb_spec (loon.Directive.Name dir) "in") as [Hn|_]; simpl.
  { destruct (loon.Directive.Args dir) as [|a1 [|a2 [|a3 [|a4 ?]]]]; try done;
      kept_rule specifier_keeps; repeat split; auto; known_directive Hn. }
  destruct (String.eqb_spec (loon.Directive.Name dir) "out") as [Hn|_]; simpl.
  { destruct (loon.Directive.Args dir) as [|a1 [|a2 [|a3 [|a4 ?]]]]; try done;
      kept_rule specifier_keeps; repeat split; auto; known_directive Hn. }
  destruct (String.eqb_spec (loon.Directive.Name dir) "set") as [Hn|_]; simpl.
  { destruct (loon.Directive.Args dir) as [|a1 [|a2 [|a3 [|a4 ?]]]]; try done;
      kept_rule specifier_keeps; repeat split; auto; known_directive Hn. }
  destruct (String.eqb_spec (loon.Directive.Name dir) "if") as [Hn|_].
  { destruct (loon.Directive.Args dir) as [|a1 [|a2 [|a3 [|a4 [|a5 ?]]]]]; try done;
      kept_rule condition_keeps; repeat split; auto; known_directive Hn. }
  destruct (String.eqb_spec (loon.Directive.Name dir) "every") as [Hn|_].
  { destruct (loon.Directive.Args dir) as [|a1 [|a2 ?]]; try done.
    destruct (strconv.Atoi a1); [|done]. intros [= <-]. simpl.
    repeat split; auto; known_directive Hn. }
  destruct (String.eqb_spec (loon.Directive.Name dir) "repeat") as [Hn|_].
  { destruct (loon.Directive.Args dir) as [|a1 [|a2 [|a3 [|a4 ?]]]]; try done.
    - destruct (strconv.Atoi a1); [|done]. intros [= <-]. simpl.
      repeat split; auto; known_directive Hn.
    - destruct (String.eqb a1 "using"); [|done].
      kept_rule repeat_using_keeps; repeat split; auto; known_directive Hn.
    - destruct (String.eqb a1 "using"); [|done].
      kept_rule repeat_using_keeps; repeat split; auto; known_directive Hn. }
  destruct (String.eqb_spec (loon.Directive.Name dir) "onfail") as [Hn|_]; [|done].
  destruct (loon.Directive.Args dir) as [|a1 [|a2 ?]] eqn:Hargs; try done.
  intros [= <-]. simpl. repeat split; auto; known_directive Hn.
Qed.

Lemma directives_keep objLine spec ds spec' :
  RuleParser.directives p objLine spec ds = inr spec' ->
  Rule.Name (RuleParser.Rule_ spec') = Rule.Name (RuleParser.Rule_ spec)
  /\ Rule.OnFail (RuleParser.Rule_ spec') = Rule.OnFail (RuleParser.Rule_ spec)
  /\ (Forall (in_catalog p) (rule_resources (RuleParser.Rule_ spec)) ->
      Forall (in_catalog p) (rule_resources (RuleParser.Rule_ spec')))
  /\ Forall (fun d => loon.Directive.Name d ∈ rule_directives) ds
  /\ (RuleParser.onFailRuleName spec' = RuleParser.onFailRuleName spec
      \/ exists d, d ∈ ds /\ loon.Directive.Name d = "onfail"
           /\ loon.Directive.Args d = [RuleParser.onFailRuleName spec']).
Proof.
  revert spec. induction ds as [|d ds IH]; intros spec; simpl.
  - intros [= <-]. repeat split; auto.
  - destruct (RuleParser.directive p objLine spec d) as [?|spec1] eqn:Hd; [done|].
    apply directive_keeps_ok in Hd as (Hn & Ho & Hc & Hk & Hf).
    intros Hrest. apply IH in Hrest as (Hn' & Ho' & Hc' & Hk' & Hf').
    split; [congruence|]. split; [congruence|]. split; [auto|].
    split; [by constructor|].
    destruct Hf' as [Hsame|(d' & Hin & Hd')].
    + destruct Hf as [Hsame0|[Hname Hargs]]; [left; congruence|].
      right. exists d. split; [by left|]. split; [done|]. congruence.
    + right. exists d'. split; [by right|done].
Qed.

Lemma objects_keep objs objs0 specs idx specs' idx' :
  Forall2 (object_spec p) objs0 specs ->
  index_points specs idx ->
  RuleParser.objects p objs specs idx = inr (specs', idx') ->
  Forall2 (object_spec p) (objs0 ++ objs) specs' /\ index_points specs' idx'.
Proof.
  revert objs0 specs idx. induction objs as [|obj objs IH]; intros objs0 specs idx H2 Hidx;
    simpl.
  - intros [= <- <-]. by rewrite app_nil_r.
  - destruct (String.eqb_spec (loon.Object.Type_ obj) "rule") as [Hty|_]; [|done]. simpl.
    destruct (RuleParser.directives p _ _ _) as [?|spec] eqn:Hds; [done|].
    apply directives_keep in Hds as (Hn & Ho & Hc & Hk & Hf). simpl in *.
    intros Hrest. apply (IH (objs0 ++ [obj])) in Hrest.
    + by rewrite <- app_assoc in Hrest.
    + apply Forall2_app; [done|]. constructor; [|constructor].
      split; [done|]. split; [done|]. split; [done|]. split; [done|].
      split; [apply Hc; by constructor|].
      destruct Hf as [->|Hd]; [by left|by right].
    + intros n j Hj.
      destruct (decide (Rule.Name (RuleParser.Rule_ spec) = n)) as [Heq|Hne].
      * rewrite Heq, lookup_insert_eq in Hj. injection Hj as <-.
        exists spec. split; [by rewrite lookup_app_r, Nat.sub_diag|].
        split; [done|]. intros k s' Hk' _.
        apply lookup_lt_Some in Hk'. rewrite length_app in Hk'. simpl in Hk'. lia.
      * rewrite lookup_insert_ne in Hj by done.
        destruct (Hidx n j Hj) as (s & Hs & Hname & Hlast).
        exists s. split; [by apply lookup_app_l_Some|]. split; [done|].
        intros k s' Hk' Hname'.
        destruct (decide (k < length specs)%nat) as [Hlt|Hge].
        -- rewrite lookup_app_l in Hk' by done. by eapply Hlast.
        -- rewrite lookup_app_r in Hk' by lia.
           destruct (k - length specs)%nat; [|done]. simpl in Hk'. congruence.
Qed.

Lemma resolve_rules idx specs rs :
  RuleParser.resolve idx specs = inr rs -> Forall2 (spec_rule idx) specs rs.
Proof.
  revert rs. induction specs as [|s specs IH]; intros rs; simpl.
  - intros [= <-]. constructor.
  - destruct (String.eqb_spec (RuleParser.onFailRuleName s) "") as [Hempty|Hname].
    + destruct (RuleParser.resolve idx specs) as [?|rs0]; [done|].
      intros [= <-]. constructor; [by left|by apply IH].
    + destruct (idx !! RuleParser.onFailRuleName s) as [j|] eqn:Hj; [|done].
      destruct (RuleParser.resolve idx specs) as [?|rs0]; [done|].
      intros [= <-]. constructor; [|by apply IH]. right. eauto.
Qed.

(** What a successful parse is made of. *)
Lemma Parse_passes scanned rs :
  RuleParser.Parse p scanned = inr rs ->
  snd scanned = None
  /\ exists specs idx,
       Forall2 (object_spec p) (fst scanned) specs
       /\ index_points specs idx
       /\ Forall2 (spec_rule idx) specs rs.
Proof.
  unfold RuleParser.Parse.
  destruct (RuleParser.objects p (fst scanned) [] ∅) as [?|[specs idx]] eqn:Hobj; [done|].
  destruct (snd scanned); [done|]. intros Hres. split; [done|].
  apply (objects_keep _ []) in Hobj as [H2 Hidx]; [|constructor|by intros n j].
  exists specs, idx. split; [done|]. split; [done|]. by apply resolve_rules.
Qed.

End ParserFacts.

Lemma Forall2_fmap_eq {A B C} (R : A -> B -> Prop) (f : A -> C) (g : B -> C) l k :
  (forall x y, R x y -> f x = g y) -> Forall2 R l k -> f <$> l = g <$> k.
Proof. intros Hfg H. induction H as [|x y l k Hxy _ IH]; simpl; [done|]. f_equal; auto. Qed.

Lemma spec_rule_same idx s r :
  spec_rule idx s r ->
  Rule.Name r = Rule.Name (RuleParser.Rule_ s)
  /\ rule_resources r = rule_resources (RuleParser.Rule_ s).
Proof. by intros [[_ ->]|(_ & j & _ & ->)]. Qed.

(** A successful parse has read a well-formed file to its end and gives
    one rule per block, in the order of the blocks and under their names:
    the scanner stopped without error, every block is a rule block, and
    every directive is one of the seven the parser knows. *)
Theorem Parse_in_source_order (p : RuleParser.t)
    (scanned : list loon.Object.t * option loon.scan_error) (rs : list Rule.t) :
  RuleParser.Parse p scanned = inr rs ->
  snd scanned = None
  /\ Rule.Name <$> rs = loon.Object.Name <$> fst scanned
  /\ Forall (fun obj =>
              loon.Object.Type_ obj = "rule"
              /\ Forall (fun d => loon.Directive.Name d ∈ rule_directives)
                   (loon.Object.Directives obj)) (fst scanned).
Proof.
  intros H. apply Parse_passes in H as (Herr & specs & idx & Hobjs & _ & Hrules).
  split; [done|]. split.
  - transitivity (Rule.Name <$> (RuleParser.Rule_ <$> specs)).
    + rewrite <- list_fmap_compose. symmetry.
      eapply Forall2_fmap_eq; [|exact Hrules].
      intros s r Hsr. simpl. symmetry. by apply (spec_rule_same idx).
    + rewrite <- list_fmap_compose. symmetry.
      eapply Forall2_fmap_eq; [|exact Hobjs].
      intros obj s (_ & _ & Hn & _). by simpl.
  - eapply Forall2_Forall_l; [exact Hobjs|].
    apply Forall_forall. intros s _ obj (Hty & Hds & _). done.
Qed.

Lemma Parse_in_source_order_witness :
  Rule.Name <$> rules_onfail = loon.Object.Name <$> fst (loon.scan text_onfail).
Proof.
  refine (proj1 (proj2 (Parse_in_source_order test_parser (loon.scan text_onfail)
                          rules_onfail _))).
  vm_compute. reflexivity.
Defined.

(** A fallback of a parsed rule never dangles.  When the rule at
    position [i] has a fallback pointer, the block at position [i] has an
    onfail directive naming a rule, and the pointer is the position of the
    last rule of the file that bears that name, whether it stands before
    or after the block. *)
Theorem Parse_onfail_resolved (p : RuleParser.t)
    (scanned : list loon.Object.t * option loon.scan_error) (rs : list Rule.t)
    (i : nat) (r : Rule.t) (j : RulePtr) :
  RuleParser.Parse p scanned = inr rs ->
  rs !! i = Some r ->
  Rule.OnFail r = Some j ->
  exists obj d r',
    fst scanned !! i = Some obj
    /\ d ∈ loon.Object.Directives obj
    /\ loon.Directive.Name d = "onfail"
    /\ loon.Directive.Args d = [Rule.Name r']
    /\ rs !! j = Some r'
    /\ forall k r'', rs !! k = Some r'' -> Rule.Name r'' = Rule.Name r' -> (k <= j)%nat.
Proof.
  intros H Hi Hj. apply Parse_passes in H as (_ & specs & idx & Hobjs & Hidx & Hrules).
  destruct (Forall2_lookup_r _ _ _ _ _ Hrules Hi) as (s & Hs & Hsr).
  destruct (Forall2_lookup_r _ _ _ _ _ Hobjs Hs) as (obj & Hobj & Hos).
  destruct Hos as (_ & _ & _ & Hnone & _ & Hfail).
  destruct Hsr as [[_ ->]|(Hname & j' & Hj' & ->)]; [congruence|].
  simpl in Hj. injection Hj as ->.
  destruct Hfail as [?|(d & Hd & Hdn & Hda)]; [done|].
  destruct (Hidx _ _ Hj') as (sj & Hsj & Hsjn & Hlast).
  destruct (Forall2_lookup_l _ _ _ _ _ Hrules Hsj) as (r' & Hr' & Hsr').
  apply spec_rule_same in Hsr' as [Hn' _].
  exists obj, d, r'. split; [done|]. split; [done|]. split; [done|].
  split; [congruence|]. split; [done|].
  intros k r'' Hk Hkn.
  destruct (Forall2_lookup_r _ _ _ _ _ Hrules Hk) as (sk & Hsk & Hskr).
  apply spec_rule_same in Hskr as [Hnk _].
  eapply Hlast; [exact Hsk|]. congruence.
Qed.

Lemma Parse_onfail_resolved_witness :
  exists obj d r',
    fst (loon.scan text_onfail) !! 0%nat = Some obj
    /\ d ∈ loon.Object.Directives obj
    /\ loon.Directive.Name d = "onfail"
    /\ loon.Directive.Args d = [Rule.Name r']
    /\ rules_onfail !! 1%nat = Some r'
    /\ forall k r'', rules_onfail !! k = Some r'' -> Rule.Name r'' = Rule.Name r' ->
         (k <= 1)%nat.
Proof.
  refine (Parse_onfail_resolved test_parser (loon.scan text_onfail) rules_onfail 0%nat
            _ 1%nat _ eq_refl eq_refl).
  vm_compute. reflexivity.
Defined.

(** Every resource a parsed rule refers to, in a precondition, an input,
    an output, a set or a repeat source, is a resource of the catalog; with
    a catalog made by [NewRuleParser] none of them is nil. *)
Theorem Parse_resources_from_catalog (p : RuleParser.t)
    (scanned : list loon.Object.t * option loon.scan_error) (rs : list Rule.t) :
  RuleParser.Parse p scanned = inr rs ->
  forall r res, r ∈ rs -> res ∈ rule_resources r ->
    in_catalog p res
    /\ forall resources, p = RuleParser.NewRuleParser resources -> res <> None.
Proof.
  intros H r res Hr Hres.
  apply Parse_passes in H as (_ & specs & idx & Hobjs & _ & Hrules).
  apply list_elem_of_lookup in Hr as [i Hi].
  destruct (Forall2_lookup_r _ _ _ _ _ Hrules Hi) as (s & Hs & Hsr).
  destruct (Forall2_lookup_r _ _ _ _ _ Hobjs Hs) as (obj & _ & Hos).
  destruct Hos as (_ & _ & _ & _ & Hcat & _).
  apply spec_rule_same in Hsr as [_ Hsame]. rewrite Hsame in Hres.
  rewrite Forall_forall in Hcat. pose proof (Hcat _ Hres) as [name Hname].
  split; [by exists name|].
  intros resources ->. simpl in Hname. clear -Hname.
  assert (forall l (m : gmap string (option nat)),
            RuleParser.catalog l m !! name = Some res ->
            m !! name = Some res \/ res <> None) as Hcatalog.
  { induction l as [|[a x] l IH]; intros m; simpl; [by left|].
    intros Hl. apply IH in Hl as [Hl|?]; [|by right].
    destruct (decide (strings_.ToLower (Name.Singular (Resource.Name x)) = name))
      as [<-|Hne].
    - rewrite lookup_insert_eq in Hl. right. congruence.
    - rewrite lookup_insert_ne in Hl by done. by left. }
  destruct (Hcatalog _ _ Hname) as [Hempty|?]; [|done].
  by rewrite lookup_empty in Hempty.
Qed.

Lemma Parse_resources_from_catalog_witness : in_catalog test_parser (res iron).
Proof.
  refine (proj1 (Parse_resources_from_catalog test_parser (loon.scan text_repeat12)
                   [rule_repeat12] _ rule_repeat12 (res iron) _ _)).
  - vm_compute. reflexivity.
  - by left.
  - right. by left.
Defined.

(** ** The catalog *)





(** ** The resource parser *)

Lemma last_text_cons name d ds dflt :
  last_text name (d :: ds) dflt
    = last_text name ds
        (if decide (loon.Directive.Name d = name) then loon.Directive.ArgText d else dflt).
Proof.
  unfold last_text. rewrite filter_cons. case_decide; [|done].
  rewrite fmap_cons, last_cons. by destruct (last _).
Qed.

Lemma resource_directives_text res ds res' :
  ResourceParser.directives res ds = inr res' ->
  Resource.ID res' = Resource.ID res
  /\ Name.Singular (Resource.Name res')
       = last_text "singular" ds (Name.Singular (Resource.Name res))
  /\ Name.Plural (Resource.Name res')
       = last_text "plural" ds (Name.Plural (Resource.Name res))
  /\ Forall (fun d => loon.Directive.Name d = "singular"
                      \/ loon.Directive.Name d = "plural") ds.
Proof.
  revert res. induction ds as [|d ds IH]; intros res; simpl.
  - intros [= <-]. by repeat split.
  - rewrite !last_text_cons.
    destruct (String.eqb_spec (loon.Directive.Name d) "singular") as [Hs|Hs].
    + intros H. apply IH in H as (Hid & Hsing & Hpl & Hall). simpl in *.
      rewrite decide_True by done. rewrite decide_False by (rewrite Hs; discriminate).
      split; [done|]. split; [done|]. split; [done|]. constructor; auto.
    + destruct (String.eqb_spec (loon.Directive.Name d) "plural") as [Hp|Hp]; [|done].
      intros H. apply IH in H as (Hid & Hsing & Hpl & Hall). simpl in *.
      rewrite decide_False by done. rewrite decide_True by done.
      split; [done|]. split; [done|]. split; [done|]. constructor; auto.
Qed.

Lemma resource_objects_keep objs objs0 acc rs :
  Forall2 block_resource objs0 acc ->
  ResourceParser.objects objs acc = inr rs ->
  Forall2 block_resource (objs0 ++ objs) rs.
Proof.
  revert objs0 acc. induction objs as [|obj objs IH]; intros objs0 acc Hacc; simpl.
  - intros [= <-]. by rewrite app_nil_r.
  - destruct (String.eqb_spec (loon.Object.Type_ obj) "resource") as [Hty|_]; [|done].
    simpl.
    destruct (ResourceParser.directives _ _) as [?|res] eqn:Hds; [done|].
    apply resource_directives_text in Hds as (Hid & Hs & Hp & Hall). simpl in *.
    intros Hrest. apply (IH (objs0 ++ [obj])) in Hrest.
    + by rewrite <- app_assoc in Hrest.
    + apply Forall2_app; [done|]. by repeat constructor.
Qed.



(** ** Agents *)

Section AgentFacts.

Variable agents : nat -> Agent.t.

(** The loop of [Agent.RuleContext], whatever the order in which the
    relations come: it panics exactly when a related agent is nil, and
    otherwise leaves under each relation what [context_entry] says. *)
Lemma RuleContext_fold (a : Agent.t) (rels : gmap Relation (option nat)) :
  match map_fold (RuleContext_step agents) (Some {[ RelationSelf := Agent.Pools a ]}) rels with
  | None => exists r : Relation, rels !! r = Some None
  | Some pools =>
      (forall r : Relation, rels !! r <> Some None)
      /\ forall r : Relation, pools !! r = context_entry agents a rels r
  end.
Proof.
  apply (map_fold_weak_ind
    (fun (acc : option (gmap Relation PoolSet)) (rels : gmap Relation (option nat)) =>
       match acc with
       | None => exists r : Relation, rels !! r = Some None
       | Some pools =>
           (forall r : Relation, rels !! r <> Some None)
           /\ forall r : Relation, pools !! r = context_entry agents a rels r
       end)); clear rels.
  - split; [intros r; by rewrite lookup_empty|].
    intros r. unfold context_entry. rewrite lookup_empty.
    destruct (decide (r = RelationSelf)) as [->|Hne].
    + by rewrite lookup_singleton_eq.
    + by rewrite lookup_singleton_ne.
  - intros r ra rels acc Hr IH. unfold RuleContext_step.
    destruct acc as [pools|].
    + destruct IH as [Hnil Hpools]. destruct ra as [c|].
      * split.
        -- intros r'. destruct (decide (r' = r)) as [->|Hne].
           ++ by rewrite lookup_insert_eq.
           ++ rewrite lookup_insert_ne by done. apply Hnil.
        -- intros r'. unfold context_entry. destruct (decide (r' = r)) as [->|Hne].
           ++ by rewrite !lookup_insert_eq.
           ++ rewrite !lookup_insert_ne by done. apply Hpools.
      * exists r. by rewrite lookup_insert_eq.
    + destruct IH as [r' Hr']. exists r'.
      rewrite lookup_insert_ne; [done|]. intros ->. by rewrite Hr in Hr'.
Qed.

(** [Agent.RuleContext] panics exactly when some relation of the agent
    leads to a nil agent.  Otherwise the context holds, under each relation
    of the agent, the pools of the related agent, and under self the
    agent's own pools unless an agent is related as self, whose pools then
    take their place; it holds nothing under any other relation. *)
Theorem Agent_RuleContext_lookup (a : Agent.t) :
  (Agent_RuleContext agents a = None
     <-> exists r : Relation, default ∅ (Agent.Relations a) !! r = Some None)
  /\ forall rc : RuleContext.t,
       Agent_RuleContext agents a = Some rc ->
       forall r : Relation,
         RuleContext.Pools rc !! r
           = context_entry agents a (default ∅ (Agent.Relations a)) r.
Proof.
  unfold Agent_RuleContext.
  pose proof (RuleContext_fold a (default ∅ (Agent.Relations a))) as Hfold.
  destruct (map_fold _ _ _) as [pools|].
  - destruct Hfold as [Hnil Hpools]. split.
    + split; [done|]. intros [r Hr]. by destruct (Hnil r).
    + intros rc [= <-] r. apply Hpools.
  - split; [done|]. intros rc [=].
Qed.

(** Relating an agent to another one puts the other's pools into the
    context under that relation and leaves the rest of the context as it
    was; relating it to a nil agent makes [Agent.RuleContext] panic. *)
Theorem AddRelation_RuleContext (a a' : Agent.t) (r : Relation) (c : option nat)
    (rc : RuleContext.t) :
  AddRelation a r c = Some a' ->
  Agent_RuleContext agents a = Some rc ->
  Agent_RuleContext agents a'
    = match c with
      | Some c' =>
          Some (RuleContext.mk (<[r := Agent.Pools (agents c')]> (RuleContext.Pools rc)))
      | None => None
      end.
Proof.
  unfold AddRelation, Agent_RuleContext.
  destruct (Agent.Relations a) as [m|] eqn:Hrel; [|done]. intros [= <-]. simpl.
  pose proof (RuleContext_fold a m) as Hold.
  pose proof (RuleContext_fold a (<[r := c]> m)) as Hnew.
  destruct (map_fold _ _ m) as [pools|]; [|done]. intros [= <-]. simpl.
  destruct Hold as [Hnil Hpools].
  destruct (map_fold _ _ (<[r := c]> m)) as [pools'|].
  - destruct Hnew as [Hnil' Hpools']. destruct c as [c'|].
    + f_equal. f_equal. apply map_eq. intros r'.
      rewrite Hpools'. unfold context_entry.
      destruct (decide (r' = r)) as [->|Hne].
      * by rewrite !lookup_insert_eq.
      * rewrite !lookup_insert_ne by done. rewrite Hpools. done.
    + destruct (Hnil' r). by rewrite lookup_insert_eq.
  - destruct Hnew as [r' Hr']. destruct c as [c'|]; [|done].
    destruct (decide (r' = r)) as [->|Hne].
    + by rewrite lookup_insert_eq in Hr'.
    + rewrite lookup_insert_ne in Hr' by done. by destruct (Hnil r').
Qed.

(** A pool added to an agent is what its rules see under self: with no
    agent related as self, the context's own pool set reads the given
    quantity and capacity back for the resource. *)
Theorem Agent_AddPool_in_context (fresh : PoolPtr) (a a' : Agent.t) (r : ResourcePtr)
    (capacity quantity : Z) (h h' : Heap) (rc : RuleContext.t) :
  Agent_AddPool fresh a r capacity quantity h = Some (a', h') ->
  default ∅ (Agent.Relations a) !! RelationSelf = None ->
  Agent_RuleContext agents a' = Some rc ->
  exists ps : PoolSet,
    RuleContext.Pools rc !! RelationSelf = Some ps
    /\ PoolSet.Quantity ps r h' = quantity
    /\ PoolSet.Capacity ps r h' = capacity.
Proof.
  unfold Agent_AddPool, PoolSet.AddPool, Agent_RuleContext.
  destruct r as [x|]; [|done]. destruct (Agent.Pools a) as [m|]; [|done]. simpl.
  intros [= <- <-] Hself. simpl.
  pose proof (RuleContext_fold
                (Agent.with_Pools a (Some (<[Some x := fresh]> m)))
                (default ∅ (Agent.Relations a))) as Hfold.
  simpl in Hfold.
  destruct (map_fold _ _ _) as [pools|]; [|done]. intros [= <-]. simpl.
  destruct Hfold as [_ Hpools]. eexists. split.
  - rewrite Hpools. unfold context_entry. rewrite Hself.
    by rewrite decide_True.
  - unfold PoolSet.Quantity, PoolSet.Capacity, PoolSet.find, PoolSet.index. simpl.
    by rewrite lookup_insert_eq, load_store_eq.
Qed.

End AgentFacts.

Lemma Agent_RuleContext_lookup_witness :
  RuleContext.Pools
    (RuleContext.mk (<[RelationLocation := ore_set]> {[ RelationSelf := NewPoolSet ]}))
    !! RelationLocation
  = context_entry agents_home agent_smith
      (default ∅ (Agent.Relations agent_smith)) RelationLocation.
Proof.
  apply (proj2 (Agent_RuleContext_lookup agents_home agent_smith)).
  vm_compute. reflexivity.
Defined.

Lemma AddRelation_RuleContext_witness :
  Agent_RuleContext agents_home agent_smith
  = Some (RuleContext.mk
            (<[RelationLocation := Agent.Pools (agents_home 0%nat)]>
               (RuleContext.Pools (RuleContext.mk {[ RelationSelf := NewPoolSet ]})))).
Proof.
  apply (AddRelation_RuleContext agents_home (NewAgent "smith") agent_smith
           RelationLocation (Some 0%nat)).
  - vm_compute. reflexivity.
  - vm_compute. reflexivity.
Defined.

Lemma Agent_AddPool_in_context_witness :
  exists ps : PoolSet,
    RuleContext.Pools
      (RuleContext.mk
         (<[RelationLocation := ore_set]>
            {[ RelationSelf := Some {[ res iron := 11%nat ]} ]}))
      !! RelationSelf = Some ps
    /\ PoolSet.Quantity ps (res iron) (store 11%nat (Pool.mk (res iron) 8 4) ∅) = 8
    /\ PoolSet.Capacity ps (res iron) (store 11%nat (Pool.mk (res iron) 8 4) ∅) = 4.
Proof.
  apply (Agent_AddPool_in_context agents_home 11%nat agent_smith
           (Agent.with_Pools agent_smith (Some {[ res iron := 11%nat ]}))
           (res iron) 4 8 ∅).
  - vm_compute. reflexivity.
  - vm_compute. reflexivity.
  - vm_compute. reflexivity.
Defined.

(** ** What the resource parser accepts *)

Lemma resource_directives_accept ds res :
  Forall (fun d => loon.Directive.Name d = "singular" \/ loon.Directive.Name d = "plural") ds ->
  exists res', ResourceParser.directives res ds = inr res'.
Proof.
  intros Hall. revert res. induction Hall as [|d ds [Hd|Hd] _ IH]; intros res; simpl.
  - by eexists.
  - rewrite Hd. simpl. apply IH.
  - rewrite Hd. simpl. apply IH.
Qed.

Lemma resource_objects_accept objs acc :
  Forall resource_block objs -> exists rs, ResourceParser.objects objs acc = inr rs.
Proof.
  intros Hall. revert acc. induction Hall as [|obj objs [Hty Hds] _ IH]; intros acc; simpl.
  - by eexists.
  - rewrite Hty. simpl.
    destruct (resource_directives_accept (loon.Object.Directives obj)
                (Resource.mk (TrimSpace (loon.Object.Name obj))
                   (Name.mk (TrimSpace (loon.Object.Name obj))
                      (TrimSpace (loon.Object.Name obj)))) Hds) as [res' ->].
    apply IH.
Qed.

Lemma block_resource_block obj res : block_resource obj res -> resource_block obj.
Proof. intros (Hty & Hds & _). by split. Qed.

(** The resource parser returns resources exactly when the scanner read
    the whole text without error and every block is a resource block whose
    directives are all singular or plural; in every other case it returns
    an error and no resource. *)
Theorem ResourceParser_accepts (scanned : list loon.Object.t * option loon.scan_error) :
  (exists rs : list Resource.t, ResourceParser.Parse scanned = inr rs)
  <-> snd scanned = None /\ Forall resource_block (fst scanned).
Proof.
  unfold ResourceParser.Parse. split.
  - intros [rs Hrs].
    destruct (ResourceParser.objects (fst scanned) []) as [?|rs0] eqn:Hobj; [done|].
    destruct (snd scanned); [done|]. split; [done|].
    apply (resource_objects_keep _ []) in Hobj; [|constructor]. simpl in Hobj.
    eapply Forall2_Forall_l; [exact Hobj|].
    apply Forall_forall. intros res _ obj Hblock. by eapply block_resource_block.
  - intros [Hscan Hall].
    destruct (resource_objects_accept (fst scanned) [] Hall) as [rs ->].
    rewrite Hscan. by eexists.
Qed.

Lemma ResourceParser_accepts_witness :
  exists rs : list Resource.t, ResourceParser.Parse (loon.scan text_resources) = inr rs.
Proof.
  apply (proj2 (ResourceParser_accepts (loon.scan text_resources))).
  split; [vm_compute; reflexivity|].
  vm_compute.
  repeat first [ reflexivity | apply Forall_nil | apply Forall_cons | split
               | (left; reflexivity) | (right; reflexivity) ].
Defined.
